(** * Salmon streaming quantification: mapping and mini-batch EM

    A shallow embedding of the parts of [SalmonQuantify.cpp] that decide
    the mapping score, the seed projection and the online EM update.

    Conventions.
    - Fixed-width integers are [Z] with the wrap-around written out
      ([u32], [i32], [u64], [i64]).
    - A [double] that is a ratio of two integers (the coverage score, the
      coverage threshold) is an exact rational [Q].
    - A [double] of the log domain (masses, probabilities) is a value of an
      abstract type carrying the operations of [SailfishMath.hpp], which is
      not part of the sources at hand.
    - [std::exit] is the result [None]. *)

From Stdlib Require Import ZArith QArith Qreals Reals Lra Lia List Bool Sorted.
From stdpp Require Import gmap.

Local Open Scope Z_scope.

(** ** Machine integers *)

Definition u32 (x : Z) : Z := x mod 2 ^ 32.
Definition i32 (x : Z) : Z := (x + 2 ^ 31) mod 2 ^ 32 - 2 ^ 31.
Definition u64 (x : Z) : Z := x mod 2 ^ 64.
Definition i64 (x : Z) : Z := (x + 2 ^ 63) mod 2 ^ 64 - 2 ^ 63.

(** ** The coverage chainer ([TranscriptHitList]) *)

Module Chainer.

(** [class KmerVote]: [int32_t votePos], [uint32_t readPos],
    [uint32_t voteLen]. *)
Record KmerVote := mkVote { votePos : Z; readPos : Z; voteLen : Z }.

(** [struct VoteInfo] local to [computeBestLoc_]. *)
Record VoteInfo := mkInfo { coverage : Z; rightmostBase : Z }.

(** The three reference arguments of [computeBestLoc_]. *)
Record BestLoc := mkBest {
  maxClusterPos : Z;
  maxClusterCount : Z;
  maxClusterScore : Q }.

(** Loop state of [computeBestLoc_]: the [flat_map<uint32_t, VoteInfo>],
    the current cluster, the running best and the returned flag. *)
Record LocState := mkLoc {
  hitMap : gmap Z VoteInfo;
  currClust : Z;
  best : BestLoc;
  updatedMaxScore : bool }.

(** [hitMap[k]] default-constructs a missing entry. *)
Definition entryAt (hm : gmap Z VoteInfo) (k : Z) : VoteInfo :=
  default (mkInfo 0 0) (hm !! u32 k).

(** The right end [votePos + readPos + voteLen], computed in [uint32_t]
    because two of the three operands are unsigned. *)
Definition voteEnd (v : KmerVote) : Z :=
  u32 (votePos v + readPos v + voteLen v).

(** One iteration of the [for] loop over [sVotes].  The score
    [maxClusterCount / static_cast<double>(readLen)] is the exact rational
    quotient, which is the value of the code for [readLen > 0]; for
    [readLen = 0] the code stores the [double] infinity, which [Q] does
    not have (there the quotient of [Q] is 0), so the statements on the
    value of a score take [0 < readLen]. *)
Definition voteStep (readLen : Z) (st : LocState) (v : KmerVote)
  : option LocState :=
  if votePos v >=? currClust st then
    let cc := if i32 (votePos v - currClust st) >? 10
              then votePos v else currClust st in
    let hmEntry := entryAt (hitMap st) cc in
    let cov := u32 (coverage hmEntry
                    + Z.min (voteLen v)
                            (u32 (voteEnd v - u32 (rightmostBase hmEntry)))) in
    let hm := <[u32 cc := mkInfo cov (i32 (voteEnd v))]> (hitMap st) in
    if cov >? maxClusterCount (best st) then
      Some (mkLoc hm cc
              (mkBest cc cov (inject_Z cov / inject_Z readLen)) true)
    else
      Some (mkLoc hm cc (best st) (updatedMaxScore st))
  else None.

Fixpoint voteLoop (readLen : Z) (st : LocState) (l : list KmerVote)
  : option LocState :=
  match l with
  | [] => Some st
  | v :: l' =>
      match voteStep readLen st v with
      | Some st' => voteLoop readLen st' l'
      | None => None
      end
  end.

(** [computeBestLoc_]: the flag it returns and the updated references. *)
Definition computeBestLoc_ (sVotes : list KmerVote) (readLen : Z)
  (b : BestLoc) : option (bool * BestLoc) :=
  match sVotes with
  | [] => Some (false, b)
  | v0 :: _ =>
      match voteLoop readLen (mkLoc ∅ (votePos v0) b false) sVotes with
      | Some st => Some (updatedMaxScore st, best st)
      | None => None
      end
  end.

(** The comparator handed to [std::sort] in [computeBestChain]. *)
Definition voteLt (v1 v2 : KmerVote) : bool :=
  if votePos v1 =? votePos v2 then readPos v1 <? readPos v2
  else votePos v1 <? votePos v2.

(** [std::sort] with [voteLt].  The order it gives to votes that compare
    equal is unspecified; this model keeps their input order.  Votes of
    pairwise distinct [(votePos, readPos)] have one sorted order only, so
    that on them the model and [std::sort] agree; a statement that depends
    on the order of tied votes takes the keys to be distinct. *)
Fixpoint insertVote (x : KmerVote) (l : list KmerVote) : list KmerVote :=
  match l with
  | [] => [x]
  | y :: l' => if voteLt y x then y :: insertVote x l' else x :: l
  end.

Fixpoint sortVotes (l : list KmerVote) : list KmerVote :=
  match l with
  | [] => []
  | x :: l' => insertVote x (sortVotes l')
  end.

(** [class TranscriptHitList] ([targetID] is never read). *)
Record TranscriptHitList := mkHits {
  bestHitPos : Z;
  bestHitCount : Z;
  bestHitScore : Q;
  votes : list KmerVote;
  rcVotes : list KmerVote;
  isForward_ : bool }.

Definition emptyHits : TranscriptHitList := mkHits 0 0 0 [] [] true.

(** [addFragMatch(tpos, readPos, voteLen)], all three [uint32_t]:
    [votePos = static_cast<int32_t>(tpos) - readPos]. *)
Definition addFragMatch (h : TranscriptHitList) (tpos rp vl : Z)
  : TranscriptHitList :=
  let vp := i32 (u32 tpos - u32 rp) in
  mkHits (bestHitPos h) (bestHitCount h) (bestHitScore h)
         (votes h ++ [mkVote vp (u32 rp) (u32 vl)]) (rcVotes h) (isForward_ h).

(** [addFragMatchRC(tpos, readPos, voteLen, readLen)]:
    [votePos = static_cast<int32_t>(tpos) - (readLen - readPos)]. *)
Definition addFragMatchRC (h : TranscriptHitList) (tpos rp vl rl : Z)
  : TranscriptHitList :=
  let vp := i32 (u32 tpos - u32 (u32 rl - u32 rp)) in
  mkHits (bestHitPos h) (bestHitCount h) (bestHitScore h)
         (votes h) (rcVotes h ++ [mkVote vp (u32 rp) (u32 vl)]) (isForward_ h).

(** [computeBestChain(transcript, read)]; only the read's length is used. *)
Definition computeBestChain (h : TranscriptHitList) (readLen : Z)
  : option TranscriptHitList :=
  let vs := sortVotes (votes h) in
  let rs := sortVotes (rcVotes h) in
  match computeBestLoc_ vs readLen (mkBest 0 0 0%Q) with
  | Some (_, b1) =>
      match computeBestLoc_ rs readLen b1 with
      | Some (revIsBest, b2) =>
          Some (mkHits (maxClusterPos b2) (maxClusterCount b2)
                       (maxClusterScore b2) vs rs (negb revIsBest))
      | None => None
      end
  | None => None
  end.

Definition isForward (h : TranscriptHitList) : bool := isForward_ h.

(** Vocabulary of the statements below. *)

Definition posLe (a b : KmerVote) : Prop := votePos a <= votePos b.

Definition zeroBest : BestLoc := mkBest 0 0 0.

(** The best cluster of the votes of one orientation taken alone: what
    [computeBestLoc_] finds on them when it starts from nothing. *)
Definition bestCluster (vs : list KmerVote) (readLen : Z) : BestLoc :=
  match computeBestLoc_ (sortVotes vs) readLen zeroBest with
  | Some (_, b) => b
  | None => zeroBest
  end.

(** [s] runs the loop of [s0] with [b] as the best found before. *)
Definition shadow (b : BestLoc) (s0 s : LocState) : Prop :=
  hitMap s = hitMap s0 /\ currClust s = currClust s0 /\
  updatedMaxScore s = (maxClusterCount b <? maxClusterCount (best s0)) /\
  best s = if updatedMaxScore s then best s0 else b.

(** Total length of a list of votes. *)
Definition sumLen (l : list KmerVote) : Z :=
  fold_right (fun v a => voteLen v + a) 0 l.


(** The vote [v] made longer by [d]. *)
Definition lengthenVote (d : Z) (v : KmerVote) : KmerVote :=
  mkVote (votePos v) (readPos v) (voteLen v + d).

(** The hit list with its [i]-th forward ([rc = false]) or
    reverse-complement ([rc = true]) vote made longer by [d]. *)
Definition lengthen (rc : bool) (i : nat) (d : Z) (h : TranscriptHitList)
  : TranscriptHitList :=
  if rc then
    mkHits (bestHitPos h) (bestHitCount h) (bestHitScore h)
           (votes h) (alter (lengthenVote d) i (rcVotes h)) (isForward_ h)
  else
    mkHits (bestHitPos h) (bestHitCount h) (bestHitScore h)
           (alter (lengthenVote d) i (votes h)) (rcVotes h) (isForward_ h).

(** Votes in which no vote ends to the left of the one before it: the
    right ends [votePos + readPos + voteLen] never decrease along the
    list, starting from [prev], and stay below [2^31]. *)
Fixpoint orderly (prev : Z) (l : list KmerVote) : bool :=
  match l with
  | [] => true
  | v :: l' =>
      let e := votePos v + readPos v + voteLen v in
      (0 <=? voteLen v) && (prev <=? e) && (e <? 2 ^ 31) && orderly e l'
  end.

(** The votes of one orientation are regular when, in the order of
    [computeBestChain], they are [orderly] from [0] and their lengths add
    up to less than [2^32]. *)
Definition regularVotes (l : list KmerVote) : bool :=
  orderly 0 (sortVotes l) && (sumLen l <? 2 ^ 32).

Definition regularHits (h : TranscriptHitList) : bool :=
  regularVotes (votes h) && regularVotes (rcVotes h).

(** Same place in the read and on the transcript, and at least as long. *)
Definition longerVote (a b : KmerVote) : Prop :=
  votePos a = votePos b /\ readPos a = readPos b /\ voteLen a <= voteLen b.

(** Two runs of the loop, the second on longer votes: entry by entry the
    second run has the larger right end and the larger coverage beyond
    it. *)
Definition pairInv (pa pb SA SB : Z) (sA sB : LocState) : Prop :=
  currClust sA = currClust sB /\
  (forall k,
     let a := default (mkInfo 0 0) (hitMap sA !! k) in
     let b := default (mkInfo 0 0) (hitMap sB !! k) in
     0 <= rightmostBase a <= pa /\ 0 <= coverage a <= SA /\
     0 <= rightmostBase b <= pb /\ 0 <= coverage b <= SB /\
     rightmostBase a <= rightmostBase b /\
     coverage a - rightmostBase a <= coverage b - rightmostBase b) /\
  maxClusterCount (best sA) <= maxClusterCount (best sB).

(** The score is the count over the read length. *)
Definition scoreOK (readLen : Z) (b : BestLoc) : Prop :=
  (maxClusterScore b == inject_Z (maxClusterCount b) / inject_Z readLen)%Q.

End Chainer.


(** ** Library formats and alignments *)

(** The three attributes of a [LibraryFormat]; [LibraryFormat.hpp] itself
    is not at hand, the enumerations are those the quantifier names. *)
Inductive ReadType := SINGLE_END | PAIRED_END.
Inductive ReadOrientation := SAME | AWAY | TOWARD | NONE.

(** [enum class ReadStrandedness]; its short names stay in their scope. *)
Module ReadStrandedness.
Inductive t := SA | AS | S | A | U.
Definition eqb (a b : t) : bool :=
  match a, b with
  | SA, SA | AS, AS | S, S | A, A | U, U => true
  | _, _ => false
  end.
End ReadStrandedness.

Record LibraryFormat := mkFormat {
  type : ReadType;
  orientation : ReadOrientation;
  strandedness : ReadStrandedness.t }.

Definition ReadType_eqb (a b : ReadType) : bool :=
  match a, b with
  | SINGLE_END, SINGLE_END | PAIRED_END, PAIRED_END => true
  | _, _ => false
  end.

Definition ReadOrientation_eqb (a b : ReadOrientation) : bool :=
  match a, b with
  | SAME, SAME | AWAY, AWAY | TOWARD, TOWARD | NONE, NONE => true
  | _, _ => false
  end.

(** The log-domain arithmetic of [sailfish::math] and of [<cmath>] on
    [double], as an interface: the constants, [x == LOG_0], [+], [-],
    [logAdd], [std::log] of a length and the test [r < std::exp(x)] of a
    uniform draw [r]. *)
Class LogDomain (D : Type) := {
  LOG_0 : D;
  LOG_1 : D;
  LOG_ONEHALF : D;
  isLog0 : D -> bool;
  dadd : D -> D -> D;
  dsub : D -> D -> D;
  logAdd : D -> D -> D;
  dlog : Z -> D;
  belowExp : Q -> D -> bool }.

(** [class SMEMAlignment] ([kmerCount] is never initialised nor read). *)
Record SMEMAlignment (D : Type) := mkAln {
  transcriptID : Z;
  libFormat : LibraryFormat;
  score : Q;
  fragLength : Z;
  logProb : D }.

Arguments mkAln {D} _ _ _ _ _.
Arguments transcriptID {D} _.
Arguments libFormat {D} _.
Arguments score {D} _.
Arguments fragLength {D} _.
Arguments logProb {D} _.

(** ** From chained hits to alignments ([getHitsForFragment]) *)

Module Mapping.
Import Chainer.

Section Fragments.

Context {D : Type} `{LogDomain D}.

(** [salmon::utils::hitType], one overload per fragment kind; [SalmonUtils]
    is not at hand. *)
Variable hitTypeSE : Z -> bool -> LibraryFormat.
Variable hitTypePE : Z -> bool -> Z -> bool -> LibraryFormat.

(** [x < y] on scores. *)
Definition Qlt_bool (x y : Q) : bool := negb (Qle_bool y x).

(** The loop [for (auto& tHitList : hits)] of the single-end overload, on
    the hits that [collectHitsForRead] gathered. *)
Fixpoint singleEndLoop (hits : list (Z * TranscriptHitList)) (readLen : Z)
  (cutoff : Q) : option (list (SMEMAlignment D)) :=
  match hits with
  | [] => Some []
  | (tid, hl) :: rest =>
      hl' ← computeBestChain hl readLen;
      alns ← singleEndLoop rest readLen cutoff;
      Some (if Qle_bool cutoff (bestHitScore hl')
            then mkAln tid (hitTypeSE (bestHitPos hl') (isForward hl'))
                       (bestHitScore hl') 0 LOG_0 :: alns
            else alns)
  end.

Definition getHitsForFragmentSE (hits : gmap Z TranscriptHitList)
  (readLen : Z) (coverageThresh : Q) : option (list (SMEMAlignment D)) :=
  singleEndLoop (map_to_list hits) readLen coverageThresh.

(** First loop of the paired overload: chain every left hit list. *)
Fixpoint chainAll (hits : list (Z * TranscriptHitList)) (readLen : Z)
  : option (list (Z * TranscriptHitList)) :=
  match hits with
  | [] => Some []
  | (tid, hl) :: rest =>
      hl' ← computeBestChain hl readLen;
      rest' ← chainAll rest readLen;
      Some ((tid, hl') :: rest')
  end.

(** The fragment length [std::abs(end1Start - end2Start) + rightReadLength],
    an [int] difference added to a [uint32_t]. *)
Definition pairFragLength (end1Start end2Start rightReadLength : Z) : Z :=
  u32 (Z.abs (i32 (end1Start - end2Start)) + rightReadLength).

(** One alignment of a pair, built from the chained left and right lists. *)
Definition pairAlignment (tid : Z) (l r : TranscriptHitList)
  (leftReadLength rightReadLength : Z) : SMEMAlignment D :=
  let end1Pos := if isForward l then u32 (bestHitPos l)
                 else u32 (bestHitPos l + leftReadLength) in
  let end2Pos := if isForward r then u32 (bestHitPos r)
                 else u32 (bestHitPos r + rightReadLength) in
  mkAln tid (hitTypePE end1Pos (isForward l) end2Pos (isForward r))
        ((bestHitScore l + bestHitScore r) * (1 # 2))%Q
        (pairFragLength (bestHitPos l) (bestHitPos r) rightReadLength)
        LOG_0.

(** One iteration of the second loop of the paired overload: the
    alignment it appends, if any. *)
Definition pairedStep (leftHits : gmap Z TranscriptHitList)
  (tid : Z) (rh : TranscriptHitList)
  (leftReadLength rightReadLength : Z) (cutoffLeft cutoffRight : Q)
  : option (list (SMEMAlignment D)) :=
  match leftHits !! tid with
  | Some l =>
      if Qle_bool cutoffLeft (bestHitScore l) then
        r ← computeBestChain rh rightReadLength;
        Some (if Qlt_bool (bestHitScore r) cutoffRight then []
              else [pairAlignment tid l r leftReadLength rightReadLength])
      else Some []
  | None => Some []
  end.

Fixpoint pairedLoop (leftHits : gmap Z TranscriptHitList)
  (rightHits : list (Z * TranscriptHitList))
  (leftReadLength rightReadLength : Z) (cutoffLeft cutoffRight : Q)
  : option (list (SMEMAlignment D)) :=
  match rightHits with
  | [] => Some []
  | (tid, rh) :: rest =>
      new ← pairedStep leftHits tid rh leftReadLength rightReadLength
                       cutoffLeft cutoffRight;
      alns ← pairedLoop leftHits rest leftReadLength rightReadLength
                        cutoffLeft cutoffRight;
      Some (new ++ alns)
  end.

Definition getHitsForFragmentPE (leftHits rightHits : gmap Z TranscriptHitList)
  (leftReadLength rightReadLength : Z) (coverageThresh : Q)
  : option (list (SMEMAlignment D)) :=
  chained ← chainAll (map_to_list leftHits) leftReadLength;
  pairedLoop (list_to_map chained) (map_to_list rightHits)
             leftReadLength rightReadLength coverageThresh coverageThresh.

End Fragments.

(** A pair whose first end lands at offset 10 and whose second end lands,
    reverse-complemented, at offset 210 of transcript 0. *)
Definition pairLeft : gmap Z TranscriptHitList :=
  {[ 0 := mkHits 0 0 0 [mkVote 10 0 30] [] true ]}.
Definition pairRight : gmap Z TranscriptHitList :=
  {[ 0 := mkHits 0 0 0 [] [mkVote 210 0 30] true ]}.
Definition pairFormat (_ : Z) (_ : bool) (_ : Z) (_ : bool) : LibraryFormat :=
  mkFormat PAIRED_END TOWARD ReadStrandedness.U.

(** Transcript offsets of the votes stay within thirty bits. *)
Definition votesInRange (h : TranscriptHitList) : Prop :=
  Forall (fun v => - 2 ^ 30 <= votePos v < 2 ^ 30) (votes h) /\
  Forall (fun v => - 2 ^ 30 <= votePos v < 2 ^ 30) (rcVotes h).

(** The current cluster and the best position lie in [[lo, hi)]. *)
Definition posWithin (lo hi : Z) (st : LocState) : Prop :=
  lo <= currClust st < hi /\ lo <= maxClusterPos (best st) < hi.

End Mapping.

(** ** From seeds to votes ([collectHitsForRead]) *)

Module Seeds.
Import Chainer.

(** One annotation of the packed reference: [int64_t offset] and
    [int32_t len] of a transcript. *)
Record bntann1_t := mkAnn { offset : Z; len : Z }.

(** The packed reference: its forward length [l_pac] and its annotations. *)
Record bntseq_t := mkBns { l_pac : Z; anns : list bntann1_t }.

(** Modelled from the spec: the index is an external collaborator (BWA's
    [bntseq]); the spec has it resolve a position of the doubled reference
    to a forward position and a strand tag.  Positions from [l_pac] on
    lie on the reverse strand and mirror the forward ones. *)
Definition bns_depos (bns : bntseq_t) (pos : Z) : Z * bool :=
  if pos >=? l_pac bns then (2 * l_pac bns - 1 - pos, true) else (pos, false).

Fixpoint ridScan (l : list bntann1_t) (pos i found : Z) : Z :=
  match l with
  | [] => found
  | a :: l' => if offset a <=? pos then ridScan l' pos (i + 1) i else found
  end.

(** Modelled from the spec: the index gives each sequence its offset in
    the packed reference; [bns_pos2rid] is the id of the sequence a forward
    position falls in, and [-1] beyond the forward strand. *)
Definition bns_pos2rid (bns : bntseq_t) (pos_f : Z) : Z :=
  if pos_f >=? l_pac bns then -1 else ridScan (anns bns) pos_f 0 0.

Definition annAt (bns : bntseq_t) (rid : Z) : bntann1_t :=
  default (mkAnn 0 0) (anns bns !! Z.to_nat rid).

(** The fields of [mem_opt_t] and [SalmonOpts] that the collector reads. *)
Record mem_opt_t := mkMemOpt { min_seed_len : Z; max_occ : Z }.
Record SeedOpts := mkSeedOpts { splitSpanningSeeds : bool }.

(** A seed ([bwtintv_t]): the start [x[0]] and size [x[2]] of its
    suffix-array interval, and the two halves of [info]. *)
Record Seed := mkSeed { x0 : Z; x2 : Z; qstart : Z; qend : Z }.

(** The call that ends an iteration of the occurrence loop:
    [hits[refID].addFragMatch(hitLoc, queryStart, slen)] or its
    reverse-complement form with [rlen]. *)
Record VoteCall := mkCall {
  callRefID : Z; callIsRev : bool;
  callHitLoc : Z; callQueryStart : Z; callLen : Z; callRlen : Z }.

(** [step = p->x[2] > max_occ ? p->x[2] / max_occ : 1], an [int] from a
    [uint64_t] quotient; the division by a zero [max_occ] traps. *)
Definition occStep (x2 max_occ : Z) : option Z :=
  if x2 >? u64 max_occ then
    if u64 max_occ =? 0 then None else Some (i32 (x2 / u64 max_occ))
  else Some 1.

(** The occurrences [k] that
    [for (k = count = 0; k < p->x[2] && count < max_occ; k += step, ++count)]
    visits.  The loop runs at most [max_occ] times, which is the fuel. *)
Fixpoint occLoop (fuel : nat) (x2 max_occ step k count : Z) : list Z :=
  match fuel with
  | O => []
  | S fuel' =>
      if (u64 k <? x2) && (count <? max_occ)
      then k :: occLoop fuel' x2 max_occ step (i64 (k + step)) (count + 1)
      else []
  end.

Definition sampledOccs (x2 max_occ : Z) : option (list Z) :=
  step ← occStep x2 max_occ;
  Some (occLoop (Z.to_nat max_occ) x2 max_occ step 0 0).

Section Collect.

Variable bns : bntseq_t.
(** [bwt_sa]: the position of the doubled reference held by a slot of
    the suffix array. *)
Variable bwt_sa : Z -> Z.
Variable memOptions : mem_opt_t.
Variable salmonOpts : SeedOpts.

(** A seed that spans two transcripts on the forward strand. *)
Definition splitForward (refID refIDEnd tlen hitLoc queryStart slen rlen : Z)
  : Z * option VoteCall :=
  let len1 := tlen - hitLoc in
  let len2 := slen - len1 in
  if Z.max len1 len2 <? min_seed_len memOptions then (slen, None)
  else if len1 >=? len2 then
    let slen := i32 len1 in
    (slen, Some (mkCall refID false hitLoc queryStart slen rlen))
  else
    let slen := i32 len2 in
    (slen, Some (mkCall refIDEnd false 0 (i32 (queryStart + len1)) slen rlen)).

(** A seed that spans two transcripts on the reverse strand; the lengths
    are [uint64_t] there. *)
Definition splitReverse (refID refIDEnd tlen endPos queryStart slen rlen : Z)
  : Z * option VoteCall :=
  let len2 := u64 (endPos - offset (annAt bns refIDEnd)) in
  let len1 := u64 (slen - len2) in
  if Z.max len1 len2 <? u64 (min_seed_len memOptions) then (slen, None)
  else if len1 >=? len2 then
    let slen := i32 len1 in
    let hitLoc := i64 (u64 (tlen - len2)) in
    let queryStart := i32 (queryStart + len2) in
    let rlen := u32 (rlen - len2) in
    (slen, Some (mkCall refID true hitLoc queryStart slen rlen))
  else
    let slen := i32 len2 in
    let refID := bns_pos2rid bns endPos in
    let hitLoc := i64 len2 in
    let rlen := u32 (hitLoc + queryStart) in
    (slen, Some (mkCall refID true hitLoc queryStart slen rlen)).

(** The body of the occurrence loop for the occurrence [k] of a seed that
    starts at [qstart] in a read of [readLen] bases.  [slen] is declared
    outside the loop: the value a split leaves in it is the one the next
    occurrence starts from, so it is returned along with the call. *)
Definition occurrence (readLen : Z) (p : Seed) (slen k : Z)
  : Z * option VoteCall :=
  let queryStart := qstart p in
  let rlen := readLen in
  let refStart := bwt_sa (x0 p + k) in
  let '(startPos, isRevStart) := bns_depos bns refStart in
  let '(endPos, isRevEnd) := bns_depos bns (refStart + slen - 1) in
  if negb (eqb isRevStart isRevEnd) then (slen, None)
  else
    let isRev := isRevStart in
    let '(startPos, endPos) :=
      if isRev then (endPos, startPos) else (startPos, endPos) in
    let refID := bns_pos2rid bns startPos in
    let refIDEnd := bns_pos2rid bns endPos in
    if refID <? 0 then (slen, None)
    else
      let tlen := len (annAt bns refID) in
      let hitLoc := (if isRev then endPos else startPos)
                    - offset (annAt bns refID) in
      if negb (refID =? refIDEnd) then
        if negb (splitSpanningSeeds salmonOpts) then (slen, None)
        else if negb isRev then
          splitForward refID refIDEnd tlen hitLoc queryStart slen rlen
        else
          splitReverse refID refIDEnd tlen endPos queryStart slen rlen
      else
        (slen, Some (mkCall refID isRev hitLoc queryStart slen rlen)).

(** [hits[refID]] followed by the call. *)
Definition applyCall (hits : gmap Z TranscriptHitList) (c : VoteCall)
  : gmap Z TranscriptHitList :=
  let h := default emptyHits (hits !! callRefID c) in
  <[callRefID c :=
      if callIsRev c
      then addFragMatchRC h (callHitLoc c) (callQueryStart c) (callLen c)
                          (callRlen c)
      else addFragMatch h (callHitLoc c) (callQueryStart c) (callLen c)]> hits.

Fixpoint occurrences (readLen : Z) (p : Seed) (slen : Z) (ks : list Z)
  (hits : gmap Z TranscriptHitList) : gmap Z TranscriptHitList :=
  match ks with
  | [] => hits
  | k :: ks' =>
      let '(slen', call) := occurrence readLen p slen k in
      occurrences readLen p slen' ks'
        (match call with Some c => applyCall hits c | None => hits end)
  end.

(** The loop over the seeds that [mem_collect_intv] left in
    [auxHits->mem]. *)
Fixpoint collectHitsForRead (mem : list Seed) (readLen : Z)
  (hits : gmap Z TranscriptHitList) : option (gmap Z TranscriptHitList) :=
  match mem with
  | [] => Some hits
  | p :: mem' =>
      ks ← sampledOccs (x2 p) (max_occ memOptions);
      collectHitsForRead mem' readLen
        (occurrences readLen p (i32 (u32 (qend p) - qstart p)) ks hits)
  end.

End Collect.

(** Vocabulary of the statements below. *)

(** The occurrence covers the forward positions [lo .. hi], both
    included, and straddles the boundary between the transcripts [i] and
    [i + 1]: [lo] falls in the first and [hi] in the second, which starts
    where the first ends. *)
Definition straddles (bns : bntseq_t) (i lo hi : Z) : Prop :=
  0 <= i /\
  bns_pos2rid bns lo = i /\ bns_pos2rid bns hi = i + 1 /\
  offset (annAt bns i) <= lo /\
  lo < offset (annAt bns (i + 1)) <= hi /\
  offset (annAt bns (i + 1)) = offset (annAt bns i) + len (annAt bns i).

(** The bases of the occurrence on either side of the boundary. *)
Definition leftPart (bns : bntseq_t) (i lo : Z) : Z :=
  offset (annAt bns (i + 1)) - lo.
Definition rightPart (bns : bntseq_t) (i hi : Z) : Z :=
  hi - offset (annAt bns (i + 1)) + 1.

(** Two transcripts of 100 bases each. *)
Definition twoTranscripts : bntseq_t :=
  mkBns 200 [mkAnn 0 100; mkAnn 100 100].

End Seeds.

(** ** The mini-batch EM worker ([processMiniBatch]) *)

Module EM.

(** [logAlignFormatProb(observed, expected)]. *)
Definition logAlignFormatProb {D : Type} `{LogDomain D}
  (observed expected : LibraryFormat) : D :=
  if negb (ReadType_eqb (type observed) (type expected))
     || negb (ReadOrientation_eqb (orientation observed) (orientation expected))
  then LOG_0
  else if ReadStrandedness.eqb (strandedness expected) ReadStrandedness.U
  then LOG_ONEHALF
  else if ReadStrandedness.eqb (strandedness expected) (strandedness observed)
  then LOG_1
  else LOG_0.

(** The fields of a [Transcript] that the worker touches;
    [Transcript.hpp] is not at hand. *)
Record Transcript (D : Type) := mkTranscript {
  RefLength : Z;
  mass : D;
  totalCount : Z;
  uniqueCount : Z }.

Arguments mkTranscript {D} _ _ _ _.
Arguments RefLength {D} _.
Arguments mass {D} _.
Arguments totalCount {D} _.
Arguments uniqueCount {D} _.

(** The calls made on the [ClusterForest], which is not at hand: the
    forest is the list of the calls it has received. *)
Inductive ClusterCall (D : Type) :=
| UpdateCluster (tid count : Z) (logForgettingMass : D) (updateCounts : bool)
| MergeClusters (tids : list Z).

Arguments UpdateCluster {D} _ _ _ _.
Arguments MergeClusters {D} _.

(** The two options of [SalmonOpts] that the worker reads. *)
Record EMOpts := mkEMOpts { useFragLenDist : bool; useReadCompat : bool }.

(** What [processMiniBatch] reads and writes through its reference
    arguments.  [fragLengthDist] is the list of the [addVal] calls made so
    far, [randEng] is the number of draws taken from the engine, and
    [libTypeCounts] lists the formats credited to the read library. *)
Record EMState (D : Type) := mkEM {
  transcripts : list (Transcript D);
  clusterForest : list (ClusterCall D);
  fragLengthDist : list (Z * D);
  numAssignedFragments : Z;
  randEng : nat;
  burnedIn : bool;
  libTypeCounts : list LibraryFormat }.

Arguments mkEM {D} _ _ _ _ _ _ _.
Arguments transcripts {D} _.
Arguments clusterForest {D} _.
Arguments fragLengthDist {D} _.
Arguments numAssignedFragments {D} _.
Arguments randEng {D} _.
Arguments burnedIn {D} _.
Arguments libTypeCounts {D} _.

(** The variables of the loop over the alignments of one group in the
    E-step. *)
Record ELoop (D : Type) := mkELoop {
  sumOfAlignProbs : D;
  transcriptUnique : bool;
  observedTranscripts : gset Z;
  eTranscripts : list (Transcript D);
  eLibTypeCounts : list LibraryFormat;
  eAlns : list (SMEMAlignment D) }.

Arguments mkELoop {D} _ _ _ _ _ _.
Arguments sumOfAlignProbs {D} _.
Arguments transcriptUnique {D} _.
Arguments observedTranscripts {D} _.
Arguments eTranscripts {D} _.
Arguments eLibTypeCounts {D} _.
Arguments eAlns {D} _.

Definition numBurninFrags : Z := 5000000.

Section MiniBatch.

Context {D : Type} `{LogDomain D}.

(** [FragmentLengthDistribution::pmf], a function of the calls of
    [addVal] made before. *)
Variable pmf : list (Z * D) -> Z -> D.

(** The draws of [uni(randEng)], in the order they are taken. *)
Variable uni : nat -> Q.

Variable salmonOpts : EMOpts.
Variable expectedLibraryFormat : LibraryFormat.
Variable logForgettingMass : D.
Variable initialRound : bool.

(** [transcripts[transcriptID]].  Ids are dense in the source and an id
    out of range is undefined there; here it reads a transcript of mass
    [LOG_0] and writes nothing. *)
Definition transcriptAt (ts : list (Transcript D)) (tid : Z) : Transcript D :=
  default (mkTranscript 0 LOG_0 0 0) (ts !! Z.to_nat tid).

Definition setLogProb (a : SMEMAlignment D) (lp : D) : SMEMAlignment D :=
  mkAln (transcriptID a) (libFormat a) (score a) (fragLength a) lp.

Definition addTotalCount (n : Z) (t : Transcript D) : Transcript D :=
  mkTranscript (RefLength t) (mass t) (totalCount t + n) (uniqueCount t).

Definition addUniqueCount (n : Z) (t : Transcript D) : Transcript D :=
  mkTranscript (RefLength t) (mass t) (totalCount t) (uniqueCount t + n).

(** Modelled from the spec: [Transcript::addMass] is not at hand; the
    M-step accumulates the update into [t.mass] via log-add. *)
Definition addMass (m : D) (t : Transcript D) : Transcript D :=
  mkTranscript (RefLength t) (logAdd (mass t) m) (totalCount t) (uniqueCount t).

(** The value the E-step gives to [aln.logProb] when the transcript has
    mass:
    [(transcriptLogCount - logRefLength) + logFragProb + logAlignCompatProb]. *)
Definition alignProb (fld : list (Z * D)) (transcript : Transcript D)
  (aln : SMEMAlignment D) : D :=
  let refLength := if RefLength transcript >? 0 then RefLength transcript
                   else 1 in
  let logRefLength := dlog refLength in
  let transcriptLogCount := mass transcript in
  let logFragProb :=
    if useFragLenDist salmonOpts then
      if fragLength aln >? 0 then pmf fld (fragLength aln) else LOG_1
    else LOG_1 in
  let logAlignCompatProb :=
    if useReadCompat salmonOpts
    then logAlignFormatProb (libFormat aln) expectedLibraryFormat
    else LOG_1 in
  dadd (dadd (dsub transcriptLogCount logRefLength) logFragProb)
       logAlignCompatProb.

(** One iteration of the first loop over the alignments of a group. *)
Definition eStepAln (fld : list (Z * D)) (firstTranscriptID : Z)
  (lp : ELoop D) (aln : SMEMAlignment D) : ELoop D :=
  let tid := transcriptID aln in
  let transcript := transcriptAt (eTranscripts lp) tid in
  let unique := transcriptUnique lp && (tid =? firstTranscriptID) in
  if negb (isLog0 (mass transcript)) then
    let p := alignProb fld transcript aln in
    let seen := bool_decide (tid ∈ observedTranscripts lp) in
    mkELoop (logAdd (sumOfAlignProbs lp) p) unique
            (if seen then observedTranscripts lp
             else {[tid]} ∪ observedTranscripts lp)
            (if seen then eTranscripts lp
             else if initialRound
                  then alter (addTotalCount 1) (Z.to_nat tid) (eTranscripts lp)
                  else eTranscripts lp)
            (eLibTypeCounts lp ++ [libFormat aln])
            (eAlns lp ++ [setLogProb aln p])
  else
    mkELoop (sumOfAlignProbs lp) unique (observedTranscripts lp)
            (eTranscripts lp) (eLibTypeCounts lp)
            (eAlns lp ++ [setLogProb aln LOG_0]).

Definition eStepGroup (st : EMState D) (alnGroup : list (SMEMAlignment D))
  : ELoop D :=
  let firstTranscriptID :=
    match alnGroup with a :: _ => transcriptID a | [] => 0 end in
  fold_left (eStepAln (fragLengthDist st) firstTranscriptID) alnGroup
            (mkELoop LOG_0 true ∅ (transcripts st) (libTypeCounts st) []).

(** One iteration of the second loop, which normalises the hits and
    samples the updates of the fragment length distribution. *)
Definition normalizeAln (sum : D) (burned : bool)
  (acc : list (SMEMAlignment D) * list (Z * D) * nat)
  (aln : SMEMAlignment D) : list (SMEMAlignment D) * list (Z * D) * nat :=
  let '(done, fld, eng) := acc in
  let aln' := setLogProb aln (dsub (logProb aln) sum) in
  let r := uni eng in
  let fld' :=
    if negb burned && belowExp r (logProb aln') then
      if fragLength aln' >? 0
      then fld ++ [(fragLength aln', logForgettingMass)]
      else fld
    else fld in
  (done ++ [aln'], fld', S eng).

(** The cluster-level update that ends the treatment of a group. *)
Definition clusterUpdate (unique : bool) (alns : list (SMEMAlignment D))
  (forest : list (ClusterCall D)) : list (ClusterCall D) :=
  let firstTranscriptID :=
    match alns with a :: _ => transcriptID a | [] => 0 end in
  if unique then
    forest ++ [UpdateCluster firstTranscriptID 1 logForgettingMass initialRound]
  else
    forest ++ [MergeClusters (map transcriptID alns);
               UpdateCluster firstTranscriptID 1 logForgettingMass initialRound].

(** The body of the loop over the groups of the batch.  The second
    component counts the group in [localNumAssignedFragments]. *)
Definition processGroup (st : EMState D) (alnGroup : list (SMEMAlignment D))
  : EMState D * list (SMEMAlignment D) * bool :=
  match alnGroup with
  | [] => (st, alnGroup, false)
  | first :: _ =>
      let e := eStepGroup st alnGroup in
      let st1 := mkEM (eTranscripts e) (clusterForest st) (fragLengthDist st)
                      (numAssignedFragments st) (randEng st) (burnedIn st)
                      (eLibTypeCounts e) in
      if isLog0 (sumOfAlignProbs e) then (st1, eAlns e, false)
      else
        let '(alns, fld, eng) :=
          fold_left (normalizeAln (sumOfAlignProbs e) (burnedIn st))
                    (eAlns e) ([], fragLengthDist st, randEng st) in
        let ts :=
          if transcriptUnique e && initialRound
          then alter (addUniqueCount 1) (Z.to_nat (transcriptID first))
                     (eTranscripts e)
          else eTranscripts e in
        (mkEM ts (clusterUpdate (transcriptUnique e) alns (clusterForest st))
              fld (numAssignedFragments st) eng (burnedIn st)
              (eLibTypeCounts e),
         alns, true)
  end.

(** The loop over the groups: the state, the groups with their
    [logProb] set, and [localNumAssignedFragments]. *)
Fixpoint eStep (st : EMState D) (batchHits : list (list (SMEMAlignment D)))
  : EMState D * list (list (SMEMAlignment D)) * Z :=
  match batchHits with
  | [] => (st, [], 0)
  | g :: rest =>
      let '(st1, g', assigned) := processGroup st g in
      let '(st2, rest', n) := eStep st1 rest in
      (st2, g' :: rest', (if assigned then 1 else 0) + n)
  end.

(** The keys of [hitsForTranscript], a [btree_map]: the transcript ids of
    the batch, each once, in increasing order. *)
Fixpoint insertKey (x : Z) (l : list Z) : list Z :=
  match l with
  | [] => [x]
  | y :: l' => if x <? y then x :: l
               else if x =? y then l else y :: insertKey x l'
  end.

Definition batchKeys (batchHits : list (list (SMEMAlignment D))) : list Z :=
  fold_right insertKey [] (map transcriptID (concat batchHits)).

(** [hitMass] of a transcript: the log-sum of [aln->logProb] over the
    alignments of the batch that name it.  [hitsForTranscript] holds
    pointers, so these are the values the E-step left. *)
Definition hitMass (batchHits : list (list (SMEMAlignment D))) (tid : Z) : D :=
  fold_left (fun m aln => logAdd m (logProb aln))
            (filter (fun aln => transcriptID aln = tid) (concat batchHits))
            LOG_0.

Definition mStep (batchHits : list (list (SMEMAlignment D)))
  (ts : list (Transcript D)) : list (Transcript D) :=
  fold_left (fun ts tid =>
               alter (addMass (dadd logForgettingMass (hitMass batchHits tid)))
                     (Z.to_nat tid) ts)
            (batchKeys batchHits) ts.

(** [processMiniBatch]: the state after the batch and the groups as the
    E-step left them. *)
Definition processMiniBatch (st : EMState D)
  (batchHits : list (list (SMEMAlignment D)))
  : EMState D * list (list (SMEMAlignment D)) :=
  let '(st1, hits, localNumAssignedFragments) := eStep st batchHits in
  let assigned := u64 (numAssignedFragments st1 + localNumAssignedFragments) in
  (mkEM (mStep hits (transcripts st1)) (clusterForest st1)
        (fragLengthDist st1) assigned (randEng st1)
        (if (assigned >=? numBurninFrags) && negb (burnedIn st1)
         then true else burnedIn st1)
        (libTypeCounts st1),
   hits).

End MiniBatch.

(** *** The pass over the reads that calls the worker *)

Section Pass.

Context {D : Type} `{LogDomain D}.

Variable pmf : list (Z * D) -> Z -> D.
Variable uni : nat -> Q.
Variable salmonOpts : EMOpts.
Variable expectedLibraryFormat : LibraryFormat.
Variable initialRound : bool.

(** The mini-batches that one worker hands to [processMiniBatch] during a
    pass, each with the forgetting mass in force when it is handed over;
    the state goes from one call to the next. *)
Fixpoint runBatches (st : EMState D)
  (batches : list (D * list (list (SMEMAlignment D)))) : EMState D :=
  match batches with
  | [] => st
  | (logForgettingMass, batchHits) :: rest =>
      runBatches
        (fst (processMiniBatch pmf uni salmonOpts expectedLibraryFormat
                               logForgettingMass initialRound st batchHits))
        rest
  end.

(** What the batches of a pass add to the fragment length distribution. *)
Definition fldUpdates (st st' : EMState D) : nat :=
  (length (fragLengthDist st') - length (fragLengthDist st))%nat.

(** [ReadExperiment::processReads]: the flag handed down to the workers
    starts as
    [totalAssignedFragments_ + numAssignedFragments_ > 5000000]. *)
Definition processReads (totalAssignedFragments : Z) (st : EMState D)
  (batches : list (D * list (list (SMEMAlignment D)))) : EMState D :=
  runBatches
    (mkEM (transcripts st) (clusterForest st) (fragLengthDist st)
          (numAssignedFragments st) (randEng st)
          (u64 (totalAssignedFragments + numAssignedFragments st) >? 5000000)
          (libTypeCounts st))
    batches.

(** [ReadExperiment::softReset], on the two counters of assigned
    fragments. *)
Definition softReset (totalAssignedFragments : Z) (st : EMState D)
  : Z * EMState D :=
  (u64 (totalAssignedFragments + numAssignedFragments st),
   mkEM (transcripts st) (clusterForest st) (fragLengthDist st)
        0 (randEng st) (burnedIn st) (libTypeCounts st)).

(** In [processReadsMEM], after [getHitsForFragment]:
    [if (hitList.size() > salmonOpts.maxReadOccs) hitList.alignments().clear()]. *)
Definition discardRepetitive (maxReadOccs : Z) (hitList : list (SMEMAlignment D))
  : list (SMEMAlignment D) :=
  if Z.of_nat (length hitList) >? maxReadOccs then [] else hitList.

(** The loop of [processReadsMEM] over the reads of a job, on the hits
    that [getHitsForFragment] found for each read: the groups handed to
    the mini-batch, [validHits] and [numObservedFragments]. *)
Fixpoint observeReads (maxReadOccs : Z) (mapped : list (list (SMEMAlignment D)))
  (validHits numObservedFragments : Z)
  : list (list (SMEMAlignment D)) * Z * Z :=
  match mapped with
  | [] => ([], validHits, numObservedFragments)
  | hitList :: rest =>
      let hitList' := discardRepetitive maxReadOccs hitList in
      let '(groups, v, n) :=
        observeReads maxReadOccs rest
                     (u64 (validHits + Z.of_nat (length hitList')))
                     (u64 (numObservedFragments + 1)) in
      (hitList' :: groups, v, n)
  end.

End Pass.

(** Vocabulary of the statements below. *)

Section Vocabulary.

Context {D : Type} `{LogDomain D}.

(** Same mass and length, transcript by transcript. *)
Definition sameMasses (ts ts' : list (Transcript D)) : Prop :=
  Forall2 (fun t t' => mass t = mass t' /\ RefLength t = RefLength t') ts ts'.

(** The laws of exact log-domain arithmetic, with [expD x] the
    probability that [x] stands for. *)
Class LogLaws (expD : D -> R) : Prop := {
  isLog0_spec : forall x, isLog0 x = true <-> x = LOG_0;
  expD_log0 : expD LOG_0 = 0%R;
  expD_pos : forall x, isLog0 x = false -> (0 < expD x)%R;
  expD_logAdd : forall x y, expD (logAdd x y) = (expD x + expD y)%R;
  expD_dsub : forall x s, isLog0 s = false ->
                          expD (dsub x s) = (expD x / expD s)%R;
  logAdd_log0_r : forall x, logAdd x LOG_0 = x;
  dadd_log0_r : forall x, dadd x LOG_0 = LOG_0 }.

(** The entry [e] of the fragment length distribution comes from an
    alignment of [alns] (with its final [logProb]) that has a positive
    fragment length and for which some draw fell below [exp(logProb)]. *)
Definition sampledFrom (uni : nat -> Q) (logForgettingMass : D)
  (alns : list (SMEMAlignment D)) (e : Z * D) : Prop :=
  exists a n, a ∈ alns /\ belowExp (uni n) (logProb a) = true /\
              0 < fragLength a /\ e = (fragLength a, logForgettingMass).

(** The sum of the probabilities of a group. *)
Definition sumExp (expD : D -> R) (alns : list (SMEMAlignment D)) : R :=
  fold_right (fun a acc => (expD (logProb a) + acc)%R) 0%R alns.

End Vocabulary.

End EM.

(** ** Exact log-domain arithmetic *)

Module ExactLog.

(** Modelled from the spec: [SailfishMath.hpp] ([LOG_0], [LOG_1],
    [LOG_ONEHALF], [logAdd]) is not among the sources.  The spec uses
    [LOG_0] as the logarithm of probability zero, [LOG_1] as [log 1],
    credits [log 0.5] for an unstranded expectation and calls the sum of a
    group [logSumExp].  A log-domain value is the exact logarithm of a
    non-negative real: [None] is [log 0], [Some x] is the finite value [x].
    Differences with [log 0] on the right are never formed by the
    quantifier (it subtracts the logarithm of a length of at least one, and
    a sum that it has tested against [LOG_0]). *)
#[export] Instance exactLog : LogDomain (option R) := {|
  LOG_0 := None;
  LOG_1 := Some 0%R;
  LOG_ONEHALF := Some (ln (1 / 2));
  isLog0 x := match x with None => true | Some _ => false end;
  dadd x y := match x, y with
              | Some a, Some b => Some (a + b)%R
              | _, _ => None
              end;
  dsub x y := match x, y with
              | Some a, Some b => Some (a - b)%R
              | _, _ => None
              end;
  logAdd x y := match x, y with
                | None, _ => y
                | _, None => x
                | Some a, Some b => Some (ln (exp a + exp b))
                end;
  dlog n := if 0 <? n then Some (ln (IZR n)) else None;
  belowExp r x := match x with
                  | None => if Rlt_dec (Q2R r) 0 then true else false
                  | Some a => if Rlt_dec (Q2R r) (exp a) then true else false
                  end |}.

(** The probability a log-domain value stands for. *)
Definition expD (x : option R) : R :=
  match x with None => 0%R | Some a => exp a end.

(** One transcript of 100 bases with mass [log 1], and a pair that maps to
    it with a fragment length of 200; neither the fragment length
    distribution nor the format compatibility enters the probability, and
    every draw is 0. *)
Definition exTranscripts : list (EM.Transcript (option R)) :=
  [EM.mkTranscript 100 (Some 0%R) 0 0].
Definition exFormat : LibraryFormat :=
  mkFormat PAIRED_END TOWARD ReadStrandedness.U.
Definition exAln : SMEMAlignment (option R) := mkAln 0 exFormat 1 200 None.
Definition exOpts : EM.EMOpts := EM.mkEMOpts false false.
Definition exPmf (_ : list (Z * option R)) (_ : Z) : option R := Some 0%R.
Definition exUni (_ : nat) : Q := 0.

(** The state of a first pass before its last mini-batch, with 4,999,999
    fragments assigned. *)
Definition exBeforeLastBatch : EM.EMState (option R) :=
  EM.mkEM exTranscripts [] [] 4999999 0 false [].

End ExactLog.

(** ** More on the chainer: the order of the votes *)

Module ChainOrder.
Import Chainer.

(** The sort key of a vote. *)
Definition voteKey (v : KmerVote) : Z * Z := (votePos v, readPos v).

(** [b] does not come before [a] under the comparator of
    [computeBestChain]. *)
Definition keyLe (a b : KmerVote) : Prop := voteLt b a = false.

(** The current cluster sits on a vote of [L]; the best location is the
    one given, [b0], or sits on a vote of [L] with a positive count. *)
Definition posInv (L : list KmerVote) (b0 : BestLoc) (st : LocState) : Prop :=
  (exists v, v ∈ L /\ currClust st = votePos v) /\
  0 <= maxClusterCount (best st) /\
  (best st = b0 \/
   (0 < maxClusterCount (best st) /\
    exists v, v ∈ L /\ maxClusterPos (best st) = votePos v)).

End ChainOrder.

(** ** Covered bases and match fragments ([basesCovered], [precedes]) *)

Module Coverage.

(** [std::sort] on a [std::vector<uint32_t>]. *)
Fixpoint insertHit (x : Z) (l : list Z) : list Z :=
  match l with
  | [] => [x]
  | y :: l' => if y <? x then y :: insertHit x l' else x :: l
  end.

Fixpoint sortHits (l : list Z) : list Z :=
  match l with
  | [] => []
  | x :: l' => insertHit x (sortHits l')
  end.

(** The body of the loop of [basesCovered] on [covered] and [lastHit],
    both [uint32_t]: [covered += std::min(h - lastHit, kl)]. *)
Definition coverStep (kl : Z) (acc : Z * Z) (h : Z) : Z * Z :=
  let '(covered, lastHit) := acc in
  (u32 (covered + Z.min (u32 (h - lastHit)) kl), h).

(** [basesCovered(kmerHits)]: the vector is sorted in place, so the caller
    sees it sorted; the second component is the value returned. *)
Definition basesCovered (kmerHits : list Z) : list Z * Z :=
  let sorted := sortHits kmerHits in
  (sorted, fst (fold_left (coverStep 20) sorted (0, 0))).

(** [basesCovered(posLeft, posRight)]. *)
Definition basesCovered2 (posLeft posRight : list Z) : list Z * list Z * Z :=
  let '(l, cl) := basesCovered posLeft in
  let '(r, cr) := basesCovered posRight in
  (l, r, u32 (cl + cr)).

(** [class MatchFragment]: [refStart], [queryStart] and [length], all
    [uint32_t] ([weight] and [score] are never set). *)
Module MatchFragment.
Record t := mk { refStart : Z; queryStart : Z; length : Z }.
End MatchFragment.

Definition precedes (a b : MatchFragment.t) : bool :=
  (u32 (MatchFragment.refStart a + MatchFragment.length a)
   <? MatchFragment.refStart b)
  && (u32 (MatchFragment.queryStart a + MatchFragment.length a)
      <? MatchFragment.queryStart b).

(** Vocabulary of the statements below. *)

(** The largest hit, 0 for no hit. *)
Definition maxHit (l : list Z) : Z := fold_right Z.max 0 l.

(** The bases covered by k-mers of [kl] bases that start at the sorted
    positions [l], counted from [last] on, as an unbounded integer. *)
Fixpoint cover (kl last : Z) (l : list Z) : Z :=
  match l with
  | [] => 0
  | h :: l' => Z.min (h - last) kl + cover kl h l'
  end.

(** The three fields fit their type and neither end wraps. *)
Definition fits (a : MatchFragment.t) : Prop :=
  0 <= MatchFragment.refStart a /\ 0 <= MatchFragment.queryStart a /\
  0 <= MatchFragment.length a /\
  MatchFragment.refStart a + MatchFragment.length a < 2 ^ 32 /\
  MatchFragment.queryStart a + MatchFragment.length a < 2 ^ 32.

End Coverage.

(** ** Sampled validation of a vote ([numSampledHits_]) *)

Module Sampling.

(** The local variables that [numSampledHits_] corrects before it samples:
    [readStart], [readLen], [posInRead], [voteLen], all [int32_t], and how
    far the pointer [read] has moved into [readIn]. *)
Record Trimmed := mkTrim {
  readStart : Z;
  readLen : Z;
  posInRead : Z;
  voteLen : Z;
  read : Z }.

(** [if (readStart < 0)]: trim the overhang before the first base of the
    transcript (both branches of the inner [if (isRC)] are the same). *)
Definition trimStart (t : Trimmed) : Trimmed :=
  if readStart t <? 0 then
    let correction := u32 (- readStart t) in
    mkTrim 0 (i32 (readLen t - correction)) (i32 (posInRead t - correction))
           (voteLen t) (read t + correction)
  else t.

(** [if (readStart + readLen >= tlen)]: shorten a read that hangs off the
    end of the transcript. *)
Definition trimEnd (isRC : bool) (RefLength : Z) (t : Trimmed) : Trimmed :=
  let tlen := i32 RefLength in
  if i32 (readStart t + readLen t) >=? tlen then
    if isRC then
      let correction := u32 (i32 (readStart t + readLen t) - RefLength + 1) in
      let readLen' := i32 (readLen t - correction) in
      mkTrim (readStart t) readLen' 0
             (if voteLen t >? readLen' then readLen' else voteLen t)
             (read t + correction)
    else
      let readLen' := i32 (tlen - i32 (readStart t + 1)) in
      mkTrim (readStart t) readLen' (posInRead t)
             (Z.max (voteLen t)
                    (i32 (readLen' - i32 (posInRead t + voteLen t))))
             (read t)
  else t.

(** [if (isRC) { if (voteLen > readStart) { readLen -= (readLen - (posInRead + voteLen)); } }]. *)
Definition clipRC (isRC : bool) (t : Trimmed) : Trimmed :=
  if isRC && (voteLen t >? readStart t) then
    mkTrim (readStart t)
           (i32 (readLen t - i32 (readLen t - i32 (posInRead t + voteLen t))))
           (posInRead t) (voteLen t) (read t)
  else t.

(** The head of [numSampledHits_], up to the test [readLen <= 15], for a
    read of [len] bases. *)
Definition trimRead (isRC : bool) (RefLength votePos len posInRead voteLen : Z)
  : Trimmed :=
  clipRC isRC
    (trimEnd isRC RefLength
       (trimStart (mkTrim votePos (i32 len) posInRead voteLen 0))).

Definition leftPattern : list Z := [-4; -2; 0].
Definition rightPattern : list Z := [0; 2; 4].
Definition centerPattern : list Z := [-4; 0; 4].

(** The centre pattern, unless the sample is near an end of the read. *)
Definition choosePattern (readIndex readLen : Z) : list Z :=
  if i32 (readIndex + -4) <? 0 then rightPattern
  else if i32 (readIndex + 4) >=? readLen then leftPattern
  else centerPattern.

(** The places one sub-vote reads: the index into [readIn] and the base of
    the transcript. *)
Definition subvoteLocus (isRC : bool) (t : Trimmed) (readIndex offset : Z)
  : Z * Z :=
  let readPos := i32 (readIndex + offset) in
  (read t + readPos,
   if isRC then i32 (i32 (readStart t + readLen t) - readPos)
   else i32 (readStart t + readPos)).

Section Sample.

(** [Transcript::charBaseAt(idx, dir)], with [true] for the reverse
    strand, and the table [sailfish::stringtools::charCanon]; neither is
    at hand. *)
Variable charBaseAt : Z -> bool -> Z.
Variable charCanon : Z -> Z.

(** [static_cast<uint32_t>(std::round(readStart + i * step))] with
    [double step = (readLen - 1) / static_cast<double>(numTries - 1)], as a
    function of [readStart], [readLen], [numTries] and [i]. *)
Variable sampleCentre : Z -> Z -> Z -> Z -> Z.

(** [readIn[i]]; an index outside the string is [None]. *)
Definition charAt (readIn : list Z) (i : Z) : option Z :=
  if i <? 0 then None else readIn !! Z.to_nat i.

Definition subvote (isRC : bool) (t : Trimmed) (readIn : list Z)
  (readIndex offset : Z) : option bool :=
  let '(r, x) := subvoteLocus isRC t readIndex offset in
  c ← charAt readIn r;
  Some (charBaseAt x isRC =? charCanon c).

(** [readIndex] of the sample [i]. *)
Definition sampleIndex (t : Trimmed) (numTries i : Z) : Z :=
  i32 (sampleCentre (readStart t) (readLen t) numTries i - readStart t).

(** One sample: whether all the sub-votes of its pattern hit. *)
Definition sample (isRC : bool) (t : Trimmed) (readIn : list Z)
  (numTries i : Z) : option bool :=
  let readIndex := sampleIndex t numTries i in
  subHits ← mapM (subvote isRC t readIn readIndex)
                 (choosePattern readIndex (readLen t));
  Some (forallb (fun hit : bool => hit) subHits).

(** [for (size_t i = 0; i < numTries; ++i)], with [n] samples to go. *)
Fixpoint sampleLoop (isRC : bool) (t : Trimmed) (readIn : list Z)
  (numTries : Z) (n : nat) (i numHits : Z) : option Z :=
  match n with
  | O => Some numHits
  | S n' =>
      match sample isRC t readIn numTries i with
      | Some hit =>
          sampleLoop isRC t readIn numTries n' (i + 1)
                     (u32 (numHits + (if hit then 1 else 0)))
      | None => None
      end
  end.

(** [numSampledHits_(transcript, readIn, votePos, posInRead, voteLen, isRC,
    numTries)]; [None] when it reads outside [readIn]. *)
Definition numSampledHits_ (RefLength : Z) (readIn : list Z)
  (votePos posInRead voteLen : Z) (isRC : bool) (numTries : Z) : option Z :=
  let t := trimRead isRC RefLength votePos (Z.of_nat (length readIn))
                    posInRead voteLen in
  if readLen t <=? 15 then Some 0
  else sampleLoop isRC t readIn numTries (Z.to_nat numTries) 0 0.

End Sample.

(** Vocabulary of the statements below. *)

(** The sample centres fall inside the trimmed read, as the exact value
    [readStart + i * (readLen - 1) / (numTries - 1)] does. *)
Definition centresInside (sampleCentre : Z -> Z -> Z -> Z -> Z)
  (t : Trimmed) (numTries : Z) : Prop :=
  forall i, 0 <= i < numTries ->
    readStart t <= sampleCentre (readStart t) (readLen t) numTries i
    < readStart t + readLen t.

(** A centre rounded down instead of to the nearest. *)
Definition floorCentre (readStart readLen numTries i : Z) : Z :=
  readStart + i * (readLen - 1) / (numTries - 1).

End Sampling.

(** ** Names of the two mates of a pair ([consistentNames]) *)

Module Names.
Import Stdlib.Strings.Ascii.
Local Open Scope char_scope.

(** A header is the list of its characters. *)
Definition header := list Ascii.ascii.

(** [header[i]]: the character at [i], and ['\0'] at the length. *)
Definition charAt (s : header) (i : nat) : Ascii.ascii := nth i s Ascii.zero.

(** [memchr(&header[0], c, length)]: the offset of the first [c]. *)
Fixpoint memchr (c : Ascii.ascii) (s : header) : option nat :=
  match s with
  | [] => None
  | x :: s' => if Ascii.eqb x c then Some O else S <$> memchr c s'
  end.

(** [memcmp(&a[0], &b[0], n) == 0].  The quantifier only compares bytes
    that both headers have. *)
Fixpoint memcmp0 (a b : header) (n : nat) {struct n} : bool :=
  match n with
  | O => true
  | S n' =>
      match a, b with
      | x :: a', y :: b' => Ascii.eqb x y && memcmp0 a' b' n'
      | _, _ => false
      end
  end.

(** [consistentNames(rp)] on the headers of the two mates. *)
Definition consistentNames (first second : header) : bool :=
  let l1 := length first in
  let l2 := length second in
  match memchr " " first with
  | None =>
      if (1 <? l1)%nat then
        (l1 =? l2)%nat
        && memcmp0 first second (l1 - 1)
        && ((Ascii.eqb (charAt first (l1 - 1)) "1"
             && Ascii.eqb (charAt second (l2 - 1)) "2")
            || Ascii.eqb (charAt first (l1 - 1)) (charAt second (l2 - 1)))
      else
        (l1 =? l2)%nat && Ascii.eqb (charAt first 0) (charAt second 0)
  | Some offset =>
      if (offset + 1 <? l2)%nat then
        memcmp0 first second offset
        && (Ascii.eqb (charAt first (offset + 1)) (charAt second (offset + 1))
            || (Ascii.eqb (charAt first (offset + 1)) "1"
                && Ascii.eqb (charAt second (offset + 1)) "2"))
      else false
  end.

(** [consistentNames(r)] on a single read. *)
Definition consistentNamesSE (r : header) : bool := true.

End Names.

(** ** Accounting of a mini-batch *)

Module Accounting.
Import EM.

Section Vocabulary.

Context {D : Type} `{LogDomain D}.

(** The ids of the batch are ids of transcripts. *)
Definition validIds (ts : list (Transcript D))
  (batchHits : list (list (SMEMAlignment D))) : Prop :=
  Forall (Forall (fun a => 0 <= transcriptID a < Z.of_nat (length ts)))
         batchHits.

(** The number of groups of the batch that hold an alignment to the
    transcript [i]. *)
Definition namingGroups (i : nat) (batchHits : list (list (SMEMAlignment D)))
  : Z :=
  Z.of_nat (length (filter (fun g => Z.of_nat i ∈ map transcriptID g)
                           batchHits)).

(** The mass of all transcripts, as a probability mass. *)
Definition totalMass (expD : D -> R) (ts : list (Transcript D)) : R :=
  fold_right (fun t acc => (expD (mass t) + acc)%R) 0%R ts.

(** The sum of two log-domain values stands for the product. *)
Class LogMulLaw (expD : D -> R) : Prop := {
  expD_dadd : forall x y, expD (dadd x y) = (expD x * expD y)%R }.

(** The count that a list of calls credits to the clusters: the sum of
    the [count] arguments of its [updateCluster] calls. *)
Definition creditedCount (calls : list (ClusterCall D)) : Z :=
  fold_right (fun c acc =>
                match c with
                | UpdateCluster _ count _ _ => count + acc
                | MergeClusters _ => acc
                end) 0 calls.

(** The sum of [f] over the keys [ks]. *)
Definition sumOver (f : Z -> R) (ks : list Z) : R :=
  fold_right (fun k acc => (f k + acc)%R) 0%R ks.

(** The alignment as it sits in a recycled group object: every field but
    [logProb], which is whatever the object held. *)
Definition withLogProb (stale : SMEMAlignment D -> D) (a : SMEMAlignment D)
  : SMEMAlignment D :=
  mkAln (transcriptID a) (libFormat a) (score a) (fragLength a) (stale a).

End Vocabulary.

End Accounting.

(** ** The experiment and the driver ([ReadExperiment], [quantifyLibrary]) *)

Module Experiment.

Section Summary.

(** [LibraryFormat::formatID], which is not at hand: the index of a format
    in the counts of a read library. *)
Variable formatID : LibraryFormat -> Z.

(** The loop [for (size_t i = 0; i < counts.size(); ++i)] of
    [summarizeLibraryTypeCounts] for a stranded expectation, from the
    index [i] on: [numAgree] and [numDisagree]. *)
Fixpoint tallyStranded (id : Z) (counts : list Z) (i numAgree numDisagree : Z)
  : Z * Z :=
  match counts with
  | [] => (numAgree, numDisagree)
  | c :: counts' =>
      if i =? id then tallyStranded id counts' (i + 1) c numDisagree
      else tallyStranded id counts' (i + 1) numAgree (u64 (numDisagree + c))
  end.

(** The same loop for an unstranded expectation: [numFmt1], [numFmt2] and
    [numDisagree]. *)
Fixpoint tallyUnstranded (id1 id2 : Z) (counts : list Z)
  (i numFmt1 numFmt2 numDisagree : Z) : Z * Z * Z :=
  match counts with
  | [] => (numFmt1, numFmt2, numDisagree)
  | c :: counts' =>
      if i =? id1 then
        tallyUnstranded id1 id2 counts' (i + 1) c numFmt2 numDisagree
      else if i =? id2 then
        tallyUnstranded id1 id2 counts' (i + 1) numFmt1 c numDisagree
      else
        tallyUnstranded id1 id2 counts' (i + 1) numFmt1 numFmt2
                        (u64 (numDisagree + c))
  end.

(** The two strand-specific formats that an unstranded expectation
    aggregates. *)
Definition strandPair (fmt : LibraryFormat) : LibraryFormat * LibraryFormat :=
  let '(s1, s2) :=
    match orientation fmt with
    | SAME | NONE => (ReadStrandedness.S, ReadStrandedness.A)
    | AWAY | TOWARD => (ReadStrandedness.AS, ReadStrandedness.SA)
    end in
  (mkFormat (type fmt) (orientation fmt) s1,
   mkFormat (type fmt) (orientation fmt) s2).

(** [summarizeLibraryTypeCounts] for one read library: what it reports as
    the number of consistent and of inconsistent alignments. *)
Definition summarizeLibraryTypeCounts (fmt : LibraryFormat)
  (counts : list Z) : Z * Z :=
  if ReadStrandedness.eqb (strandedness fmt) ReadStrandedness.U then
    let '(fmt1, fmt2) := strandPair fmt in
    let '(numFmt1, numFmt2, numDisagree) :=
      tallyUnstranded (formatID fmt1) (formatID fmt2) counts 0 0 0 0 in
    (u64 (numFmt1 + numFmt2), numDisagree)
  else tallyStranded (formatID fmt) counts 0 0 0.

End Summary.

(** The sum of the counts. *)
Definition sumCounts (counts : list Z) : Z := fold_right Z.add 0 counts.

End Experiment.

Module Driver.

(** How [quantifyLibrary] leaves its loop: the condition
    [numObservedFragments < numRequiredFragments] fails, or a reset fails
    and it breaks; the number of passes made and [numObservedFragments]. *)
Inductive Outcome :=
| Finished (passes : nat) (numObservedFragments : Z)
| GaveUp (passes : nat) (numObservedFragments : Z).

Section Loop.

(** [salmonOpts.disableMappingCache] and [numRequiredFragments]. *)
Variable disableMappingCache : bool.
Variable numRequiredFragments : Z.

(** Whether every read library is a regular file, which is what
    [ReadExperiment::reset] tests; [softReset] always succeeds. *)
Variable regularFiles : bool.

(** The number of fragments that the pass [j] over the read libraries
    adds to [numObservedFragments]. *)
Variable passObserves : nat -> Z.

Definition didReset : bool :=
  if disableMappingCache then regularFiles else true.

(** [while (numObservedFragments < numRequiredFragments)], after [passes]
    passes ([initialRound] is [passes = 0]); [None] when the fuel is
    used up before the loop ends. *)
Fixpoint quantifyLoop (fuel : nat) (passes : nat) (numObservedFragments : Z)
  : option Outcome :=
  match fuel with
  | O => None
  | S fuel' =>
      if numObservedFragments <? numRequiredFragments then
        if (0 <? passes)%nat && negb didReset
        then Some (GaveUp passes numObservedFragments)
        else quantifyLoop fuel' (S passes)
               (u64 (numObservedFragments + passObserves passes))
      else Some (Finished passes numObservedFragments)
  end.

(** [quantifyLibrary], as far as its loop goes. *)
Definition quantifyLibrary (fuel : nat) : option Outcome :=
  quantifyLoop fuel 0 0.

End Loop.

End Driver.

(** ** Facts on machine integers *)

Lemma u32_range x : 0 <= u32 x < 2 ^ 32.
Proof. unfold u32. apply Z.mod_pos_bound. lia. Qed.

Lemma u32_small x : 0 <= x < 2 ^ 32 -> u32 x = x.
Proof. intros H. unfold u32. now apply Z.mod_small. Qed.


Lemma i32_small x : - 2 ^ 31 <= x < 2 ^ 31 -> i32 x = x.
Proof. intros H. unfold i32. rewrite Z.mod_small; lia. Qed.

Lemma u32_idem x : u32 (u32 x) = u32 x.
Proof. unfold u32. apply Z.mod_mod. lia. Qed.

Lemma u32_sub_u32_r a b : u32 (a - u32 b) = u32 (a - b).
Proof. unfold u32. now rewrite Zminus_mod_idemp_r. Qed.

Module ChainerFacts.
Import Chainer.

(** *** Sorting *)

Lemma insertVote_Forall (P : KmerVote -> Prop) x l :
  P x -> Forall P l -> Forall P (insertVote x l).
Proof.
  intros Hx Hl. induction Hl as [|y l Hy Hl IH]; simpl.
  - constructor; [assumption | constructor].
  - destruct (voteLt y x); constructor; auto.
Qed.

Lemma sortVotes_Forall (P : KmerVote -> Prop) l :
  Forall P l -> Forall P (sortVotes l).
Proof.
  induction 1 as [|x l Hx Hl IH]; simpl; [constructor|].
  now apply insertVote_Forall.
Qed.

Lemma voteLt_false_posLe y x : voteLt y x = false -> posLe x y.
Proof.
  unfold voteLt, posLe. destruct (votePos y =? votePos x) eqn:E.
  - apply Z.eqb_eq in E. lia.
  - intros H. apply Z.ltb_ge in H. lia.
Qed.

Lemma voteLt_true_posLe y x : voteLt y x = true -> posLe y x.
Proof.
  unfold voteLt, posLe. destruct (votePos y =? votePos x) eqn:E.
  - apply Z.eqb_eq in E. lia.
  - intros H. apply Z.ltb_lt in H. lia.
Qed.

Lemma insertVote_sorted x l :
  StronglySorted posLe l -> StronglySorted posLe (insertVote x l).
Proof.
  induction 1 as [|y l Hs IH Hy]; simpl.
  - repeat constructor.
  - destruct (voteLt y x) eqn:E.
    + constructor; [assumption|].
      apply insertVote_Forall; [now apply voteLt_true_posLe | assumption].
    + apply voteLt_false_posLe in E.
      constructor; [now constructor|].
      constructor; [assumption|].
      eapply Forall_impl; [exact Hy|].
      unfold posLe in *. simpl. intros a Ha. lia.
Qed.

Lemma sortVotes_sorted l : StronglySorted posLe (sortVotes l).
Proof.
  induction l as [|x l IH]; simpl; [constructor|].
  now apply insertVote_sorted.
Qed.


(** *** The loop never reaches [std::exit] on sorted votes *)

Lemma voteStep_some rl st v :
  currClust st <= votePos v ->
  exists st', voteStep rl st v = Some st' /\ currClust st' <= votePos v.
Proof.
  intros H. unfold voteStep.
  destruct (votePos v >=? currClust st) eqn:E; [|lia].
  destruct (i32 _ >? 10); destruct (_ >? maxClusterCount _);
    eexists; (split; [reflexivity|]); simpl; lia.
Qed.

Lemma voteLoop_total rl l :
  StronglySorted posLe l ->
  forall st, Forall (fun v => currClust st <= votePos v) l ->
  exists st', voteLoop rl st l = Some st'.
Proof.
  induction 1 as [|v l Hs IH Hv]; intros st Hst; simpl.
  - eauto.
  - inversion Hst as [|? ? Hhd Htl]; subst.
    destruct (voteStep_some rl st v Hhd) as (st' & -> & Hle).
    apply IH. eapply Forall_impl; [exact Hv|].
    unfold posLe. simpl. intros a Ha. lia.
Qed.

Lemma computeBestLoc__total l rl b :
  StronglySorted posLe l -> exists r, computeBestLoc_ l rl b = Some r.
Proof.
  intros Hs. unfold computeBestLoc_. destruct l as [|v0 l]; [eauto|].
  destruct (voteLoop_total rl (v0 :: l) Hs (mkLoc ∅ (votePos v0) b false))
    as [st ->]; [|eauto].
  inversion Hs as [|? ? _ Hv]; subst.
  constructor; simpl; [lia|].
  eapply Forall_impl; [exact Hv|]. unfold posLe. auto.
Qed.

Lemma computeBestChain_total h rl : exists h', computeBestChain h rl = Some h'.
Proof.
  unfold computeBestChain.
  destruct (computeBestLoc__total (sortVotes (votes h)) rl (mkBest 0 0 0%Q)
              (sortVotes_sorted _)) as [[u1 b1] ->].
  destruct (computeBestLoc__total (sortVotes (rcVotes h)) rl b1
              (sortVotes_sorted _)) as [[u2 b2] ->].
  eauto.
Qed.

(** *** Starting from an earlier best *)

Lemma voteStep_shadow rl b s0 s v s0' :
  shadow b s0 s -> voteStep rl s0 v = Some s0' ->
  exists s', voteStep rl s v = Some s' /\ shadow b s0' s'.
Proof.
  intros (Hm & Hc & Hu & Hb). unfold voteStep. rewrite Hm, Hc.
  destruct (votePos v >=? currClust s0); [|discriminate].
  set (cc := if i32 _ >? 10 then _ else _).
  set (cov := u32 _).
  set (hm := <[_ := _]> _).
  destruct (updatedMaxScore s) eqn:Eu.
  - rewrite Hb. symmetry in Hu. apply Z.ltb_lt in Hu.
    destruct (cov >? maxClusterCount (best s0)) eqn:E; intros [= <-];
      eexists; (split; [reflexivity|]); unfold shadow; simpl.
    + repeat split; auto. symmetry. apply Z.ltb_lt. lia.
    + repeat split; auto. symmetry. now apply Z.ltb_lt.
  - rewrite Hb. symmetry in Hu. apply Z.ltb_ge in Hu.
    destruct (cov >? maxClusterCount b) eqn:Eb.
    + assert (E : (cov >? maxClusterCount (best s0)) = true) by lia.
      rewrite E. intros [= <-].
      eexists; (split; [reflexivity|]); unfold shadow; simpl.
      repeat split; auto. symmetry. apply Z.ltb_lt. lia.
    + destruct (cov >? maxClusterCount (best s0)) eqn:E; intros [= <-];
        eexists; (split; [reflexivity|]); unfold shadow; simpl;
        repeat split; auto; symmetry; apply Z.ltb_ge; lia.
Qed.

Lemma voteLoop_shadow rl b l : forall s0 s s0',
  shadow b s0 s -> voteLoop rl s0 l = Some s0' ->
  exists s', voteLoop rl s l = Some s' /\ shadow b s0' s'.
Proof.
  induction l as [|v l IH]; intros s0 s s0' Hsh; simpl.
  - intros [= <-]. eauto.
  - destruct (voteStep rl s0 v) as [t0|] eqn:E0; [|discriminate].
    destruct (voteStep_shadow rl b s0 s v t0 Hsh E0) as (t & -> & Ht).
    now apply IH.
Qed.

Lemma computeBestLoc__from l rl b u0 b0 :
  0 <= maxClusterCount b ->
  computeBestLoc_ l rl zeroBest = Some (u0, b0) ->
  computeBestLoc_ l rl b
  = Some (maxClusterCount b <? maxClusterCount b0,
          if maxClusterCount b <? maxClusterCount b0 then b0 else b).
Proof.
  intros Hb. unfold computeBestLoc_. destruct l as [|v0 l].
  - intros [= <- <-]. simpl.
    replace (maxClusterCount b <? 0) with false; [reflexivity|].
    symmetry. now apply Z.ltb_ge.
  - destruct (voteLoop rl (mkLoc ∅ (votePos v0) zeroBest false) (v0 :: l))
      as [s0|] eqn:E0; [|discriminate].
    intros [= <- <-].
    assert (Hsh : shadow b (mkLoc ∅ (votePos v0) zeroBest false)
                           (mkLoc ∅ (votePos v0) b false)).
    { unfold shadow; simpl. repeat split; auto.
      symmetry. now apply Z.ltb_ge. }
    destruct (voteLoop_shadow rl b (v0 :: l) _ _ s0 Hsh E0)
      as (s & -> & (_ & _ & Hu & Hbest)).
    rewrite Hbest, Hu. reflexivity.
Qed.

(** *** Invariants of the running best *)

Lemma voteStep_count_nonneg rl st v st' :
  voteStep rl st v = Some st' ->
  0 <= maxClusterCount (best st) -> 0 <= maxClusterCount (best st').
Proof.
  unfold voteStep. destruct (_ >=? _); [|discriminate].
  destruct (_ >? maxClusterCount _) eqn:E; intros [= <-]; simpl; auto.
  intros _. apply u32_range.
Qed.

Lemma voteStep_scoreOK rl st v st' :
  voteStep rl st v = Some st' ->
  scoreOK rl (best st) -> scoreOK rl (best st').
Proof.
  unfold voteStep. destruct (_ >=? _); [|discriminate].
  destruct (_ >? maxClusterCount _) eqn:E; intros [= <-]; simpl; auto.
  intros _. unfold scoreOK. simpl. reflexivity.
Qed.

Lemma voteLoop_inv (P : BestLoc -> Prop) rl :
  (forall st v st', voteStep rl st v = Some st' -> P (best st) -> P (best st')) ->
  forall l st st', voteLoop rl st l = Some st' -> P (best st) -> P (best st').
Proof.
  intros Hstep. induction l as [|v l IH]; simpl; intros st st'.
  - now intros [= <-].
  - destruct (voteStep rl st v) as [t|] eqn:E; [|discriminate].
    intros Hl Hp. eapply IH; [exact Hl|]. eapply Hstep; eauto.
Qed.

Lemma computeBestLoc__inv (P : BestLoc -> Prop) rl :
  (forall st v st', voteStep rl st v = Some st' -> P (best st) -> P (best st')) ->
  forall l b u b', computeBestLoc_ l rl b = Some (u, b') -> P b -> P b'.
Proof.
  intros Hstep l b u b'. unfold computeBestLoc_. destruct l as [|v0 l].
  - now intros [= _ <-].
  - destruct (voteLoop _ _ _) as [st|] eqn:E; [|discriminate].
    intros [= _ <-] Hp.
    now apply (voteLoop_inv P rl Hstep _ _ _ E).
Qed.

Lemma zeroBest_scoreOK rl : scoreOK rl zeroBest.
Proof. unfold scoreOK, zeroBest; simpl. unfold Qdiv. now rewrite Qmult_0_l. Qed.

Lemma bestCluster_spec vs rl :
  exists u, computeBestLoc_ (sortVotes vs) rl zeroBest = Some (u, bestCluster vs rl).
Proof.
  unfold bestCluster.
  destruct (computeBestLoc__total (sortVotes vs) rl zeroBest (sortVotes_sorted _))
    as [[u b] ->]. eauto.
Qed.

Lemma bestCluster_count_nonneg vs rl : 0 <= maxClusterCount (bestCluster vs rl).
Proof.
  destruct (bestCluster_spec vs rl) as [u H].
  eapply (computeBestLoc__inv (fun b => 0 <= maxClusterCount b));
    [exact (voteStep_count_nonneg rl) | exact H | simpl; lia].
Qed.

Lemma bestCluster_scoreOK vs rl : scoreOK rl (bestCluster vs rl).
Proof.
  destruct (bestCluster_spec vs rl) as [u H].
  eapply (computeBestLoc__inv (scoreOK rl));
    [exact (voteStep_scoreOK rl) | exact H | apply zeroBest_scoreOK].
Qed.

(** [computeBestChain] in closed form: the forward best unless the
    reverse-complement best has a strictly larger count. *)
Lemma computeBestChain_spec h rl :
  let f := bestCluster (votes h) rl in
  let r := bestCluster (rcVotes h) rl in
  let rev := maxClusterCount f <? maxClusterCount r in
  let b := if rev then r else f in
  computeBestChain h rl
  = Some (mkHits (maxClusterPos b) (maxClusterCount b) (maxClusterScore b)
                 (sortVotes (votes h)) (sortVotes (rcVotes h)) (negb rev)).
Proof.
  simpl. unfold computeBestChain.
  destruct (bestCluster_spec (votes h) rl) as [u1 H1].
  destruct (bestCluster_spec (rcVotes h) rl) as [u2 H2].
  change (mkBest 0 0 0%Q) with zeroBest. rewrite H1.
  rewrite (computeBestLoc__from _ rl _ u2 _
             (bestCluster_count_nonneg (votes h) rl) H2).
  reflexivity.
Qed.


(** *** Scores and counts *)

Lemma Qdiv_lt_pos (a b n : Z) :
  0 < n -> (inject_Z a / inject_Z n < inject_Z b / inject_Z n)%Q <-> a < b.
Proof.
  intros Hn. unfold Qdiv.
  assert (Hi : (0 < / inject_Z n)%Q).
  { apply Qinv_lt_0_compat. change 0%Q with (inject_Z 0). now rewrite <- Zlt_Qlt. }
  rewrite Qmult_lt_r by exact Hi. rewrite <- Zlt_Qlt. reflexivity.
Qed.

Lemma Qdiv_le_nonneg (a b n : Z) :
  0 <= n -> a <= b -> (inject_Z a / inject_Z n <= inject_Z b / inject_Z n)%Q.
Proof.
  intros Hn Hab. unfold Qdiv. apply Qmult_le_compat_r.
  - now rewrite <- Zle_Qle.
  - apply Qinv_le_0_compat. change 0%Q with (inject_Z 0). now rewrite <- Zle_Qle.
Qed.

(** C10: after [computeBestChain] the hit is reported as
    reverse-complement exactly when the best reverse-complement cluster
    score is strictly above the best forward cluster score; with equal
    scores, both zero included, it is reported as forward. *)
Theorem computeBestChain_orientation (h : TranscriptHitList) (readLen : Z) :
  0 < readLen ->
  exists h', computeBestChain h readLen = Some h' /\
    (isForward h' = false <->
     (maxClusterScore (bestCluster (votes h) readLen)
      < maxClusterScore (bestCluster (rcVotes h) readLen))%Q) /\
    ((maxClusterScore (bestCluster (rcVotes h) readLen)
      == maxClusterScore (bestCluster (votes h) readLen))%Q ->
     isForward h' = true).
Proof.
  intros Hlen. rewrite computeBestChain_spec. eexists. split; [reflexivity|].
  unfold isForward; simpl.
  pose proof (bestCluster_scoreOK (votes h) readLen) as Hf.
  pose proof (bestCluster_scoreOK (rcVotes h) readLen) as Hr.
  unfold scoreOK in Hf, Hr.
  assert (Hiff : (maxClusterScore (bestCluster (votes h) readLen)
                  < maxClusterScore (bestCluster (rcVotes h) readLen))%Q
                 <-> maxClusterCount (bestCluster (votes h) readLen)
                     < maxClusterCount (bestCluster (rcVotes h) readLen)).
  { rewrite Hf, Hr. now apply Qdiv_lt_pos. }
  split.
  - rewrite Hiff, negb_false_iff. apply Z.ltb_lt.
  - intros Heq. apply negb_true_iff. apply Z.ltb_ge.
    destruct (Z_lt_le_dec (maxClusterCount (bestCluster (votes h) readLen))
                (maxClusterCount (bestCluster (rcVotes h) readLen)))
      as [Hlt|Hle]; [|exact Hle].
    apply Hiff in Hlt. rewrite Heq in Hlt. now apply Qlt_irrefl in Hlt.
Qed.

Lemma computeBestChain_orientation_witness :
  exists h', computeBestChain
               (mkHits 0 0 0 [mkVote 3 0 25] [mkVote 40 0 25] true) 30 = Some h' /\
    (isForward h' = false <->
     (maxClusterScore (bestCluster [mkVote 3 0 25] 30)
      < maxClusterScore (bestCluster [mkVote 40 0 25] 30))%Q) /\
    ((maxClusterScore (bestCluster [mkVote 40 0 25] 30)
      == maxClusterScore (bestCluster [mkVote 3 0 25] 30))%Q ->
     isForward h' = true).
Proof.
  apply (computeBestChain_orientation
           (mkHits 0 0 0 [mkVote 3 0 25] [mkVote 40 0 25] true) 30).
  lia.
Defined.


(** *** The count is bounded by the total length of the votes *)

Lemma insertVote_sumLen x l : sumLen (insertVote x l) = voteLen x + sumLen l.
Proof.
  induction l as [|y l IH]; simpl; [reflexivity|].
  destruct (voteLt y x); simpl; [rewrite IH|]; lia.
Qed.

Lemma sortVotes_sumLen l : sumLen (sortVotes l) = sumLen l.
Proof.
  induction l as [|x l IH]; simpl; [reflexivity|].
  rewrite insertVote_sumLen. lia.
Qed.











(** *** Longer votes, when no vote ends before the one before it *)

(** C8 (the code at the failing input): a 50-base read with a seed over
    its bases [0, 30) and a seed over its bases [10, 29) at the same
    offset has the count 49 and the score 49/50; with the second seed one
    base longer, [10, 30), the count is 30 and the score 30/50. *)
Lemma longer_vote_lower_score :
  exists r1 r2,
    computeBestChain (mkHits 0 0 0 [mkVote 0 0 30; mkVote 0 10 19] [] true) 50
    = Some r1 /\
    computeBestChain
      (lengthen false 1 1 (mkHits 0 0 0 [mkVote 0 0 30; mkVote 0 10 19] [] true))
      50 = Some r2 /\
    votes (lengthen false 1 1 (mkHits 0 0 0 [mkVote 0 0 30; mkVote 0 10 19] [] true))
    = [mkVote 0 0 30; mkVote 0 10 20] /\
    bestHitCount r1 = 49 /\ bestHitCount r2 = 30 /\
    (bestHitScore r2 < bestHitScore r1)%Q.
Proof.
  do 2 eexists. split; [vm_compute; reflexivity|].
  split; [vm_compute; reflexivity|].
  repeat split.
Qed.

Lemma voteStep_pair rl pa pb SA SB sA sB vA vB sA' sB' :
  longerVote vA vB ->
  0 <= voteLen vA ->
  pa <= votePos vA + readPos vA + voteLen vA < 2 ^ 31 ->
  pb <= votePos vB + readPos vB + voteLen vB < 2 ^ 31 ->
  SA + voteLen vA < 2 ^ 32 -> SB + voteLen vB < 2 ^ 32 ->
  pairInv pa pb SA SB sA sB ->
  voteStep rl sA vA = Some sA' -> voteStep rl sB vB = Some sB' ->
  pairInv (votePos vA + readPos vA + voteLen vA)
          (votePos vB + readPos vB + voteLen vB)
          (SA + voteLen vA) (SB + voteLen vB) sA' sB'.
Proof.
  intros (Hp & Hr & Hl) HlA HeA HeB HSA HSB (Hcc & Hk & Hcnt).
  set (eA := votePos vA + readPos vA + voteLen vA) in *.
  set (eB := votePos vB + readPos vB + voteLen vB) in *.
  unfold voteStep. rewrite <- Hcc, <- Hp.
  destruct (votePos vA >=? currClust sA); [|discriminate].
  set (cc := if i32 _ >? 10 then _ else _).
  pose proof (Hk (u32 cc)) as Hcur. simpl in Hcur.
  unfold entryAt.
  set (a := default (mkInfo 0 0) (hitMap sA !! u32 cc)) in *.
  set (b := default (mkInfo 0 0) (hitMap sB !! u32 cc)) in *.
  destruct Hcur as (Hra & Hca & Hrb & Hcb & Hrab & Hphi).
  assert (HeAB : eA <= eB) by (unfold eA, eB; lia).
  assert (HvA : voteEnd vA = eA) by (apply (u32_small eA); lia).
  assert (HvB : voteEnd vB = eB) by (apply (u32_small eB); lia).
  rewrite HvA, HvB, !u32_sub_u32_r.
  rewrite (u32_small (eA - rightmostBase a)) by lia.
  rewrite (u32_small (eB - rightmostBase b)) by lia.
  rewrite (i32_small eA) by lia. rewrite (i32_small eB) by lia.
  set (dA := Z.min (voteLen vA) (eA - rightmostBase a)).
  set (dB := Z.min (voteLen vB) (eB - rightmostBase b)).
  rewrite (u32_small (coverage a + dA)) by (unfold dA; lia).
  rewrite (u32_small (coverage b + dB)) by (unfold dB; lia).
  assert (Hnew : coverage a + dA <= coverage b + dB) by (unfold dA, dB, eA, eB; lia).
  assert (Hmap : forall k,
    let a' := default (mkInfo 0 0)
                (<[u32 cc := mkInfo (coverage a + dA) eA]> (hitMap sA) !! k) in
    let b' := default (mkInfo 0 0)
                (<[u32 cc := mkInfo (coverage b + dB) eB]> (hitMap sB) !! k) in
    0 <= rightmostBase a' <= eA /\ 0 <= coverage a' <= SA + voteLen vA /\
    0 <= rightmostBase b' <= eB /\ 0 <= coverage b' <= SB + voteLen vB /\
    rightmostBase a' <= rightmostBase b' /\
    coverage a' - rightmostBase a' <= coverage b' - rightmostBase b').
  { intros k. destruct (decide (u32 cc = k)) as [<-|Hne].
    - rewrite !lookup_insert_eq. simpl. unfold dA, dB, eA, eB in *. lia.
    - rewrite !lookup_insert_ne by exact Hne.
      specialize (Hk k). simpl in Hk. simpl. lia. }
  destruct (coverage a + dA >? maxClusterCount (best sA)) eqn:EA;
    destruct (coverage b + dB >? maxClusterCount (best sB)) eqn:EB;
    intros [= <-] [= <-]; (split; [reflexivity|]);
    (split; [intros k; exact (Hmap k)|]); simpl; lia.
Qed.


Lemma orderly_cons prev v l :
  orderly prev (v :: l) = true ->
  0 <= voteLen v /\
  prev <= votePos v + readPos v + voteLen v < 2 ^ 31 /\
  orderly (votePos v + readPos v + voteLen v) l = true.
Proof.
  simpl. rewrite !andb_true_iff. intros [[[H1 H2] H3] H4].
  apply Z.leb_le in H1, H2. apply Z.ltb_lt in H3. auto.
Qed.

Lemma orderly_sumLen_nonneg l : forall prev,
  orderly prev l = true -> 0 <= sumLen l.
Proof.
  induction l as [|v l IH]; intros prev H; simpl; [lia|].
  apply orderly_cons in H as (Hv & _ & Hl). specialize (IH _ Hl). lia.
Qed.

Lemma voteLoop_pair rl lA lB :
  Forall2 longerVote lA lB ->
  forall pa pb SA SB sA sB sA' sB',
    orderly pa lA = true -> orderly pb lB = true ->
    SA + sumLen lA < 2 ^ 32 -> SB + sumLen lB < 2 ^ 32 ->
    pairInv pa pb SA SB sA sB ->
    voteLoop rl sA lA = Some sA' -> voteLoop rl sB lB = Some sB' ->
    maxClusterCount (best sA') <= maxClusterCount (best sB').
Proof.
  induction 1 as [|vA vB lA lB Hv Hl IH];
    intros pa pb SA SB sA sB sA' sB' HoA HoB HSA HSB Hinv; simpl.
  - intros [= <-] [= <-]. apply Hinv.
  - apply orderly_cons in HoA as (HlA & HeA & HoA).
    apply orderly_cons in HoB as (HlB & HeB & HoB).
    pose proof (orderly_sumLen_nonneg _ _ HoA).
    pose proof (orderly_sumLen_nonneg _ _ HoB).
    simpl in HSA, HSB.
    destruct (voteStep rl sA vA) as [tA|] eqn:EA; [|discriminate].
    destruct (voteStep rl sB vB) as [tB|] eqn:EB; [|discriminate].
    intros LA LB.
    apply (IH (votePos vA + readPos vA + voteLen vA)
              (votePos vB + readPos vB + voteLen vB)
              (SA + voteLen vA) (SB + voteLen vB) tA tB); auto; try lia.
    apply (voteStep_pair rl pa pb SA SB sA sB vA vB); auto; lia.
Qed.

Lemma insertVote_longer x x' p p' :
  longerVote x x' -> Forall2 longerVote p p' ->
  Forall2 longerVote (insertVote x p) (insertVote x' p').
Proof.
  intros Hx Hp. induction Hp as [|y y' p p' Hy Hp IH]; simpl.
  - constructor; [assumption|constructor].
  - assert (E : voteLt y x = voteLt y' x').
    { unfold voteLt. destruct Hx as (-> & -> & _), Hy as (-> & -> & _).
      reflexivity. }
    rewrite <- E. destruct (voteLt y x).
    + constructor; [assumption|exact IH].
    + constructor; [assumption|]. constructor; assumption.
Qed.

Lemma sortVotes_longer l l' :
  Forall2 longerVote l l' -> Forall2 longerVote (sortVotes l) (sortVotes l').
Proof.
  induction 1; simpl; [constructor|]. now apply insertVote_longer.
Qed.

Lemma longerVote_refl v : longerVote v v.
Proof. unfold longerVote. lia. Qed.

Lemma longerVote_all_refl l : Forall2 longerVote l l.
Proof. induction l; constructor; auto using longerVote_refl. Qed.

Lemma lengthenVote_longer d l : 0 <= d -> forall i,
  Forall2 longerVote l (alter (lengthenVote d) i l).
Proof.
  intros Hd. induction l as [|v l IH]; intros i; [constructor|].
  destruct i as [|i]; simpl.
  - constructor; [|apply longerVote_all_refl].
    unfold longerVote, lengthenVote; simpl. lia.
  - constructor; [apply longerVote_refl | apply IH].
Qed.

Lemma bestCluster_mono vsA vsB rl :
  Forall2 longerVote vsA vsB ->
  regularVotes vsA = true -> regularVotes vsB = true ->
  maxClusterCount (bestCluster vsA rl) <= maxClusterCount (bestCluster vsB rl).
Proof.
  intros Hl HA HB.
  apply andb_true_iff in HA as [HoA HsA]. apply Z.ltb_lt in HsA.
  apply andb_true_iff in HB as [HoB HsB]. apply Z.ltb_lt in HsB.
  rewrite <- sortVotes_sumLen in HsA, HsB.
  apply sortVotes_longer in Hl.
  destruct (bestCluster_spec vsA rl) as [uA EA].
  destruct (bestCluster_spec vsB rl) as [uB EB].
  unfold computeBestLoc_ in EA, EB.
  destruct Hl as [|vA vB lA lB Hv Hl].
  - injection EA as _ <-. injection EB as _ <-. simpl. lia.
  - destruct (voteLoop rl _ (vA :: lA)) as [sA|] eqn:LA; [|discriminate].
    destruct (voteLoop rl _ (vB :: lB)) as [sB|] eqn:LB; [|discriminate].
    injection EA as _ <-. injection EB as _ <-.
    eapply (voteLoop_pair rl (vA :: lA) (vB :: lB)) with (SA := 0) (SB := 0);
      [constructor; eassumption | exact HoA | exact HoB | lia | lia | | exact LA | exact LB].
    split; [simpl; apply Hv|]. split; [|simpl; lia].
    intros k. simpl. rewrite lookup_empty. simpl. lia.
Qed.

(** Where the monotonicity of C8 does hold: for a read of positive
    length and votes of which no two of an orientation share their
    [(votePos, readPos)] (so that the order after [std::sort] is the one
    of [sortVotes]), provided that, before and after the change, no vote
    of either orientation ends to the left of the vote before it in the
    order of [computeBestChain] and the vote lengths of an orientation add
    up to less than [2^32], making one vote longer never lowers
    [bestHitScore]. *)
Theorem longer_vote_no_lower_score (h : TranscriptHitList) (rc : bool)
  (i : nat) (d readLen : Z) :
  0 <= d -> 0 < readLen ->
  NoDup (map ChainOrder.voteKey (votes h)) ->
  NoDup (map ChainOrder.voteKey (rcVotes h)) ->
  regularHits h = true -> regularHits (lengthen rc i d h) = true ->
  exists r1 r2,
    computeBestChain h readLen = Some r1 /\
    computeBestChain (lengthen rc i d h) readLen = Some r2 /\
    (bestHitScore r1 <= bestHitScore r2)%Q.
Proof.
  intros Hd Hpos _ _ Hreg Hreg'.
  assert (Hlen : 0 <= readLen) by lia.
  rewrite !computeBestChain_spec. do 2 eexists.
  split; [reflexivity|]. split; [reflexivity|]. simpl.
  apply andb_true_iff in Hreg as [Hf Hr].
  apply andb_true_iff in Hreg' as [Hf' Hr'].
  set (h' := lengthen rc i d h) in *.
  assert (HF : maxClusterCount (bestCluster (votes h) readLen)
               <= maxClusterCount (bestCluster (votes h') readLen)).
  { apply bestCluster_mono; auto. unfold h', lengthen.
    destruct rc; simpl.
    - apply longerVote_all_refl.
    - now apply lengthenVote_longer. }
  assert (HR : maxClusterCount (bestCluster (rcVotes h) readLen)
               <= maxClusterCount (bestCluster (rcVotes h') readLen)).
  { apply bestCluster_mono; auto. unfold h', lengthen.
    destruct rc; simpl.
    - now apply lengthenVote_longer.
    - apply longerVote_all_refl. }
  set (b1 := if maxClusterCount (bestCluster (votes h) readLen)
                <? maxClusterCount (bestCluster (rcVotes h) readLen)
             then bestCluster (rcVotes h) readLen
             else bestCluster (votes h) readLen).
  set (b2 := if maxClusterCount (bestCluster (votes h') readLen)
                <? maxClusterCount (bestCluster (rcVotes h') readLen)
             then bestCluster (rcVotes h') readLen
             else bestCluster (votes h') readLen).
  assert (Hif : forall (c : bool) x y,
             scoreOK readLen x -> scoreOK readLen y ->
             scoreOK readLen (if c then x else y)) by (intros []; auto).
  assert (H1 : scoreOK readLen b1) by (apply Hif; apply bestCluster_scoreOK).
  assert (H2 : scoreOK readLen b2) by (apply Hif; apply bestCluster_scoreOK).
  unfold scoreOK in H1, H2. rewrite H1, H2.
  apply Qdiv_le_nonneg; [exact Hlen|].
  unfold b1, b2.
  destruct (maxClusterCount (bestCluster (votes h) readLen)
            <? maxClusterCount (bestCluster (rcVotes h) readLen)) eqn:E1;
    destruct (maxClusterCount (bestCluster (votes h') readLen)
              <? maxClusterCount (bestCluster (rcVotes h') readLen)) eqn:E2;
    lia.
Qed.

Lemma longer_vote_no_lower_score_witness :
  exists r1 r2,
    computeBestChain (mkHits 0 0 0 [mkVote 0 0 19; mkVote 0 25 20] [] true) 50
    = Some r1 /\
    computeBestChain
      (lengthen false 0 3 (mkHits 0 0 0 [mkVote 0 0 19; mkVote 0 25 20] [] true))
      50 = Some r2 /\
    (bestHitScore r1 <= bestHitScore r2)%Q.
Proof.
  apply (longer_vote_no_lower_score
           (mkHits 0 0 0 [mkVote 0 0 19; mkVote 0 25 20] [] true) false 0 3 50).
  - lia.
  - lia.
  - simpl. apply NoDup_cons. split; [|apply NoDup_singleton].
    intros Hx. apply list_elem_of_singleton in Hx. discriminate.
  - constructor.
  - reflexivity.
  - reflexivity.
Defined.

End ChainerFacts.

(** ** Facts on [getHitsForFragment] *)

Module MappingFacts.
Import Chainer ChainerFacts Mapping ExactLog.

Lemma voteLoop_inv_st (P : LocState -> Prop) (V : KmerVote -> Prop) rl :
  (forall st v st', V v -> voteStep rl st v = Some st' -> P st -> P st') ->
  forall l st st', Forall V l -> voteLoop rl st l = Some st' -> P st -> P st'.
Proof.
  intros Hstep. induction l as [|v l IH]; simpl; intros st st' Hl.
  - now intros [= <-].
  - inversion Hl as [|? ? Hv Hl']; subst.
    destruct (voteStep rl st v) as [t|] eqn:E; [|discriminate].
    intros Hloop Hp. eapply IH; eauto.
Qed.

Lemma voteStep_posWithin lo hi rl st v st' :
  lo <= votePos v < hi -> voteStep rl st v = Some st' ->
  posWithin lo hi st -> posWithin lo hi st'.
Proof.
  intros Hv. unfold voteStep, posWithin.
  destruct (_ >=? _); [|discriminate].
  destruct (i32 _ >? 10); destruct (_ >? maxClusterCount _);
    intros [= <-]; simpl; lia.
Qed.

Lemma bestCluster_pos lo hi vs rl :
  lo <= 0 < hi -> Forall (fun v => lo <= votePos v < hi) vs ->
  lo <= maxClusterPos (bestCluster vs rl) < hi.
Proof.
  intros H0 Hvs. destruct (bestCluster_spec vs rl) as [u E].
  apply (sortVotes_Forall _ _) in Hvs.
  unfold computeBestLoc_ in E. destruct (sortVotes vs) as [|v0 l].
  - injection E as _ <-. exact H0.
  - destruct (voteLoop _ _ _) as [st|] eqn:L; [|discriminate].
    injection E as _ <-.
    assert (Hp : posWithin lo hi st); [|apply Hp].
    eapply (voteLoop_inv_st (posWithin lo hi)
              (fun v => lo <= votePos v < hi) rl); [|exact Hvs|exact L|].
    + intros s v s' Hv Hs. exact (voteStep_posWithin lo hi rl s v s' Hv Hs).
    + inversion Hvs; subst. split; simpl; auto.
Qed.

Lemma computeBestChain_pos h rl h' :
  votesInRange h -> computeBestChain h rl = Some h' ->
  - 2 ^ 30 <= bestHitPos h' < 2 ^ 30.
Proof.
  intros [Hf Hr]. rewrite computeBestChain_spec. intros [= <-]. simpl.
  destruct (_ <? _); apply bestCluster_pos; auto; lia.
Qed.

Lemma pairFragLength_exact e1 e2 rl :
  - 2 ^ 30 <= e1 < 2 ^ 30 -> - 2 ^ 30 <= e2 < 2 ^ 30 -> 0 <= rl < 2 ^ 31 ->
  pairFragLength e1 e2 rl = Z.abs (e1 - e2) + rl.
Proof.
  intros H1 H2 H3. unfold pairFragLength.
  rewrite i32_small by lia. apply u32_small. lia.
Qed.

Section Fragments.

Context {D : Type} `{LogDomain D}.
Variable hitTypeSE : Z -> bool -> LibraryFormat.
Variable hitTypePE : Z -> bool -> Z -> bool -> LibraryFormat.

Lemma chainAll_elem rl l : forall l' tid h',
  chainAll l rl = Some l' -> (tid, h') ∈ l' ->
  exists h, (tid, h) ∈ l /\ computeBestChain h rl = Some h'.
Proof.
  induction l as [|[t h] l IH]; simpl; intros l' tid h'.
  - intros [= <-] Hin. inversion Hin.
  - destruct (computeBestChain h rl) as [hc|] eqn:E; simpl; [|discriminate].
    destruct (chainAll l rl) as [lc|] eqn:El; simpl; [|discriminate].
    intros [= <-] Hin. apply elem_of_cons in Hin as [[= -> ->]|Hin].
    + exists h. split; [left|assumption].
    + destruct (IH _ _ _ eq_refl Hin) as (h0 & Hh0 & Hc).
      exists h0. split; [now right|assumption].
Qed.

Lemma pairedStep_elem lm tid rh l1 l2 cl cr new a :
  pairedStep (D := D) hitTypePE lm tid rh l1 l2 cl cr = Some new -> a ∈ new ->
  exists l r, lm !! tid = Some l /\ computeBestChain rh l2 = Some r /\
    (cl <= bestHitScore l)%Q /\ (cr <= bestHitScore r)%Q /\
    a = pairAlignment hitTypePE tid l r l1 l2.
Proof.
  unfold pairedStep. destruct (lm !! tid) as [l|]; [|intros [= <-] Hin; inversion Hin].
  destruct (Qle_bool cl (bestHitScore l)) eqn:El; [|intros [= <-] Hin; inversion Hin].
  destruct (computeBestChain rh l2) as [r|]; simpl; [|discriminate].
  unfold Qlt_bool. destruct (Qle_bool cr (bestHitScore r)) eqn:Er; simpl;
    intros [= <-] Hin; [|inversion Hin].
  apply list_elem_of_singleton in Hin as ->.
  exists l, r. repeat split; auto; now apply Qle_bool_iff.
Qed.

Lemma pairedLoop_elem lm l1 l2 cl cr rs : forall alns a,
  pairedLoop (D := D) hitTypePE lm rs l1 l2 cl cr = Some alns -> a ∈ alns ->
  exists tid rh l r, (tid, rh) ∈ rs /\
    lm !! tid = Some l /\ computeBestChain rh l2 = Some r /\
    (cl <= bestHitScore l)%Q /\ (cr <= bestHitScore r)%Q /\
    a = pairAlignment hitTypePE tid l r l1 l2.
Proof.
  induction rs as [|[t rh] rs IH]; simpl; intros alns a.
  - intros [= <-] Hin. inversion Hin.
  - destruct (pairedStep _ _ _ _ _ _ _ _) as [new|] eqn:Es; simpl; [|discriminate].
    destruct (pairedLoop _ _ _ _ _ _ _) as [rest|] eqn:El; simpl; [|discriminate].
    intros [= <-] Hin. apply elem_of_app in Hin as [Hin|Hin].
    + destruct (pairedStep_elem _ _ _ _ _ _ _ _ _ Es Hin) as (l & r & ?).
      exists t, rh, l, r. split; [left|assumption].
    + destruct (IH _ _ eq_refl Hin) as (t' & rh' & l & r & Hel & ?).
      exists t', rh', l, r. split; [now right|assumption].
Qed.

(** C4: for a paired-end fragment, every emitted alignment stands for a
    transcript that has a left and a right hit list whose best chain
    scores both reach [coverageThresh]; its score is the mean of the two
    [bestHitScore] values and its fragment length is
    [|end1Start - end2Start| + readLen2]. *)
Theorem paired_alignment_both_ends
  (leftHits rightHits : gmap Z TranscriptHitList)
  (leftReadLength rightReadLength : Z) (coverageThresh : Q)
  (alns : list (SMEMAlignment D)) (a : SMEMAlignment D) :
  0 <= rightReadLength < 2 ^ 31 ->
  map_Forall (fun _ h => votesInRange h) leftHits ->
  map_Forall (fun _ h => votesInRange h) rightHits ->
  getHitsForFragmentPE hitTypePE leftHits rightHits
    leftReadLength rightReadLength coverageThresh = Some alns ->
  a ∈ alns ->
  exists lh rh lh' rh',
    leftHits !! transcriptID a = Some lh /\
    rightHits !! transcriptID a = Some rh /\
    computeBestChain lh leftReadLength = Some lh' /\
    computeBestChain rh rightReadLength = Some rh' /\
    (coverageThresh <= bestHitScore lh')%Q /\
    (coverageThresh <= bestHitScore rh')%Q /\
    (score a == (bestHitScore lh' + bestHitScore rh') / 2)%Q /\
    fragLength a = Z.abs (bestHitPos lh' - bestHitPos rh') + rightReadLength.
Proof.
  intros Hlen HL HR. unfold getHitsForFragmentPE.
  destruct (chainAll (map_to_list leftHits) leftReadLength) as [chained|] eqn:Ec;
    simpl; [|discriminate].
  intros Hloop Hin.
  destruct (pairedLoop_elem _ _ _ _ _ _ _ _ Hloop Hin)
    as (tid & rh & l & r & Hrh & Hl & Hr & Hcl & Hcr & ->).
  apply elem_of_list_to_map_2 in Hl.
  destruct (chainAll_elem _ _ _ _ _ Ec Hl) as (lh & Hlh & Hchain).
  apply elem_of_map_to_list in Hlh, Hrh.
  exists lh, rh, l, r. simpl.
  split; [exact Hlh|]. split; [exact Hrh|]. split; [exact Hchain|].
  split; [exact Hr|]. split; [exact Hcl|]. split; [exact Hcr|]. split.
  - apply Qeq_refl.
  - apply pairFragLength_exact; [| |exact Hlen].
    + eapply computeBestChain_pos; [|exact Hchain]. exact (HL _ _ Hlh).
    + eapply computeBestChain_pos; [|exact Hr]. exact (HR _ _ Hrh).
Qed.

End Fragments.

Lemma paired_alignment_both_ends_witness :
  exists (alns : list (SMEMAlignment (option R))) a,
    getHitsForFragmentPE pairFormat pairLeft pairRight 30 30 (3 # 4)
    = Some alns /\
    a ∈ alns /\
    exists lh rh lh' rh',
      pairLeft !! transcriptID a = Some lh /\
      pairRight !! transcriptID a = Some rh /\
      computeBestChain lh 30 = Some lh' /\
      computeBestChain rh 30 = Some rh' /\
      (3 # 4 <= bestHitScore lh')%Q /\
      (3 # 4 <= bestHitScore rh')%Q /\
      (score a == (bestHitScore lh' + bestHitScore rh') / 2)%Q /\
      fragLength a = Z.abs (bestHitPos lh' - bestHitPos rh') + 30.
Proof.
  assert (E : getHitsForFragmentPE (D := option R) pairFormat pairLeft pairRight
                30 30 (3 # 4)
              = Some [pairAlignment pairFormat 0
                        (mkHits 10 30 (30 # 30) [mkVote 10 0 30] [] true)
                        (mkHits 210 30 (30 # 30) [] [mkVote 210 0 30] false)
                        30 30]) by (vm_compute; reflexivity).
  eexists. eexists. split; [exact E|]. split; [left|].
  eapply (paired_alignment_both_ends (D := option R) pairFormat
            pairLeft pairRight 30 30 (3 # 4)).
  - lia.
  - apply map_Forall_singleton. split; repeat constructor; simpl; lia.
  - apply map_Forall_singleton. split; repeat constructor; simpl; lia.
  - exact E.
  - left.
Defined.

End MappingFacts.

(** ** Facts on [collectHitsForRead] *)

Module SeedsFacts.
Import Chainer Seeds.

(** *** Sampling the occurrences of a seed *)

Lemma u64_small x : 0 <= x < 2 ^ 64 -> u64 x = x.
Proof. intros H. unfold u64. now apply Z.mod_small. Qed.

Lemma i64_small x : - 2 ^ 63 <= x < 2 ^ 63 -> i64 x = x.
Proof. intros H. unfold i64. rewrite Z.mod_small; lia. Qed.

(** C5 (counterexample): with an interval of 5 occurrences and
    [maxOcc = 2] the step is 2, not [ceil(5 / 2) = 3], and the occurrences
    0 and 2 are visited. *)
Lemma occStep_is_not_ceil :
  occStep 5 2 = Some 2 /\ sampledOccs 5 2 = Some [0; 2] /\
  (5 + 2 - 1) / 2 = 3 /\ occStep 5 2 <> Some ((5 + 2 - 1) / 2).
Proof. repeat split. vm_compute. discriminate. Qed.

Lemma occLoop_spec x2 max_occ s : 0 < s -> 0 <= x2 -> x2 + s < 2 ^ 63 ->
  forall fuel k count,
    0 <= k < x2 + s -> Z.of_nat fuel = max_occ - count ->
    let l := occLoop fuel x2 max_occ s k count in
    (length l <= fuel)%nat /\
    (forall j kk, l !! j = Some kk -> kk = k + Z.of_nat j * s /\ kk < x2) /\
    ((length l < fuel)%nat -> x2 <= k + Z.of_nat (length l) * s).
Proof.
  intros Hs Hx Hb. induction fuel as [|fuel IH]; intros k count Hk Hf; simpl.
  - split; [lia|]. split; [|lia]. intros j kk Hj. destruct j; discriminate.
  - rewrite u64_small by lia.
    destruct (k <? x2) eqn:Ek; simpl.
    + assert (Ec : (count <? max_occ) = true) by (apply Z.ltb_lt; lia).
      rewrite Ec. apply Z.ltb_lt in Ek.
      rewrite i64_small by lia.
      destruct (IH (k + s) (count + 1)) as (Hlen & Hnth & Hmax); [lia|lia|].
      simpl. split; [lia|]. split.
      * intros [|j] kk Hj; simpl in Hj.
        -- injection Hj as <-. lia.
        -- destruct (Hnth j kk Hj). lia.
      * intros Hlt. lia.
    + apply Z.ltb_ge in Ek. simpl. split; [lia|]. split; [|lia].
      intros j kk Hj. destruct j; discriminate.
Qed.

(** C5 (amended): at most [maxOcc] occurrences of a seed's interval are
    visited, at the offsets [0, step, 2 * step, ...] below the interval
    size, with [step = floor(intervalSize / maxOcc)] when the interval is
    larger than [maxOcc] and [step = 1] otherwise; the visit stops early
    only when the next offset would leave the interval. *)
Theorem sampledOccs_floor_step (x2 max_occ : Z) :
  0 < max_occ < 2 ^ 31 -> 0 <= x2 < 2 ^ 62 -> x2 / max_occ < 2 ^ 31 ->
  let step := if max_occ <? x2 then x2 / max_occ else 1 in
  exists l, sampledOccs x2 max_occ = Some l /\
    occStep x2 max_occ = Some step /\
    Z.of_nat (length l) <= max_occ /\
    (forall j k, l !! j = Some k -> k = Z.of_nat j * step /\ k < x2) /\
    (Z.of_nat (length l) < max_occ -> x2 <= Z.of_nat (length l) * step).
Proof.
  intros Hm Hx Hq step.
  assert (Hstep : occStep x2 max_occ = Some step /\ 0 < step < 2 ^ 31).
  { unfold occStep, step. rewrite (u64_small max_occ) by lia.
    destruct (x2 >? max_occ) eqn:E.
    - assert (E' : (max_occ <? x2) = true) by (apply Z.ltb_lt; lia).
      rewrite E'. assert (E0 : (max_occ =? 0) = false) by (apply Z.eqb_neq; lia).
      rewrite E0. rewrite i32_small.
      + split; [reflexivity|]. split; [|lia].
        apply Z.div_str_pos. lia.
      + pose proof (Z.div_pos x2 max_occ). lia.
    - assert (E' : (max_occ <? x2) = false) by (apply Z.ltb_ge; lia).
      rewrite E'. split; [reflexivity|lia]. }
  destruct Hstep as [Es Hs]. unfold sampledOccs. rewrite Es. simpl.
  eexists. split; [reflexivity|]. split; [reflexivity|].
  destruct (occLoop_spec x2 max_occ step) with
    (fuel := Z.to_nat max_occ) (k := 0) (count := 0)
    as (Hlen & Hnth & Hmax); try lia.
  split; [lia|]. split.
  - intros j k Hj. destruct (Hnth j k Hj). lia.
  - intros Hlt. lia.
Qed.

Lemma sampledOccs_floor_step_witness :
  exists l, sampledOccs 5 2 = Some l /\
    occStep 5 2 = Some 2 /\
    Z.of_nat (length l) <= 2 /\
    (forall j k, l !! j = Some k -> k = Z.of_nat j * 2 /\ k < 5) /\
    (Z.of_nat (length l) < 2 -> 5 <= Z.of_nat (length l) * 2).
Proof.
  apply (sampledOccs_floor_step 5 2).
  - lia.
  - lia.
  - vm_compute. reflexivity.
Defined.


(** *** Seeds that span two transcripts *)

Ltac red_occ := cbn -[Z.add Z.sub Z.mul Z.pow bns_pos2rid annAt].

Section Spanning.

Variable bns : bntseq_t.
Variable bwt_sa : Z -> Z.
Variable memOptions : mem_opt_t.
Variable salmonOpts : SeedOpts.

Lemma bns_depos_forward pos :
  pos < l_pac bns -> bns_depos bns pos = (pos, false).
Proof.
  intros H. unfold bns_depos. destruct (pos >=? l_pac bns) eqn:E; [lia|reflexivity].
Qed.

Lemma bns_depos_reverse pos :
  l_pac bns <= pos -> bns_depos bns pos = (2 * l_pac bns - 1 - pos, true).
Proof.
  intros H. unfold bns_depos. destruct (pos >=? l_pac bns) eqn:E; [reflexivity|lia].
Qed.

Lemma straddles_forward i lo hi :
  straddles bns i lo hi -> lo < l_pac bns /\ hi < l_pac bns.
Proof.
  intros (Hi & Hlo & Hhi & _). unfold bns_pos2rid in Hlo, Hhi.
  destruct (lo >=? l_pac bns) eqn:E1; [lia|].
  destruct (hi >=? l_pac bns) eqn:E2; [lia|]. lia.
Qed.

(** Without [splitSpanningSeeds] a spanning occurrence of the forward
    strand gives no vote. *)
Lemma occurrence_forward_no_split readLen p slen k i :
  splitSpanningSeeds salmonOpts = false ->
  straddles bns i (bwt_sa (x0 p + k)) (bwt_sa (x0 p + k) + slen - 1) ->
  occurrence bns bwt_sa memOptions salmonOpts readLen p slen k = (slen, None).
Proof.
  intros Hoff Hst. destruct (straddles_forward _ _ _ Hst) as [Hlo Hhi].
  destruct Hst as (Hi & Hrlo & Hrhi & _).
  unfold occurrence. rewrite !bns_depos_forward by lia. red_occ.
  rewrite Hrlo, Hrhi.
  destruct (i <? 0) eqn:E3; [lia|].
  destruct (i =? i + 1) eqn:E4; [lia|]. red_occ. now rewrite Hoff.
Qed.

(** Without [splitSpanningSeeds] a spanning occurrence of the reverse
    strand gives no vote either. *)
Lemma occurrence_reverse_no_split readLen p slen k i :
  splitSpanningSeeds salmonOpts = false ->
  l_pac bns <= bwt_sa (x0 p + k) -> 0 < slen ->
  straddles bns i (2 * l_pac bns - 1 - (bwt_sa (x0 p + k) + slen - 1))
                  (2 * l_pac bns - 1 - bwt_sa (x0 p + k)) ->
  occurrence bns bwt_sa memOptions salmonOpts readLen p slen k = (slen, None).
Proof.
  intros Hoff Hrev Hlen (Hi & Hrlo & Hrhi & _).
  unfold occurrence. rewrite !bns_depos_reverse by lia. red_occ.
  rewrite Hrlo, Hrhi.
  destruct (i <? 0) eqn:E3; [lia|].
  destruct (i =? i + 1) eqn:E4; [lia|]. red_occ. now rewrite Hoff.
Qed.

(** With [splitSpanningSeeds], a spanning occurrence of the forward strand
    is dropped when its longer part is below [min_seed_len] and otherwise
    gives one vote, for the transcript of the longer part and with the
    length of that part. *)
Lemma occurrence_forward_split readLen p slen k i :
  splitSpanningSeeds salmonOpts = true ->
  0 < slen < 2 ^ 31 ->
  straddles bns i (bwt_sa (x0 p + k)) (bwt_sa (x0 p + k) + slen - 1) ->
  let L := leftPart bns i (bwt_sa (x0 p + k)) in
  let R := rightPart bns i (bwt_sa (x0 p + k) + slen - 1) in
  snd (occurrence bns bwt_sa memOptions salmonOpts readLen p slen k)
  = if Z.max L R <? min_seed_len memOptions then None
    else if L >=? R then
      Some (mkCall i false (bwt_sa (x0 p + k) - offset (annAt bns i))
                   (qstart p) L readLen)
    else Some (mkCall (i + 1) false 0 (i32 (qstart p + L)) R readLen).
Proof.
  intros Hon Hlen Hst L R. destruct (straddles_forward _ _ _ Hst) as [Hlo Hhi].
  destruct Hst as (Hi & Hrlo & Hrhi & Ho & Hb & Hc).
  unfold occurrence. rewrite !bns_depos_forward by lia. red_occ.
  rewrite Hrlo, Hrhi.
  destruct (i <? 0) eqn:E3; [lia|].
  destruct (i =? i + 1) eqn:E4; [lia|]. red_occ. rewrite Hon. red_occ.
  unfold splitForward.
  set (lo := bwt_sa (x0 p + k)) in *.
  assert (HL : len (annAt bns i) - (lo - offset (annAt bns i)) = L)
    by (unfold L, leftPart; lia).
  assert (HR : slen - L = R) by (unfold L, R, leftPart, rightPart; lia).
  rewrite HL, HR.
  assert (HLb : 0 < L < 2 ^ 31) by (unfold L, R, leftPart, rightPart in *; lia).
  assert (HRb : 0 < R < 2 ^ 31) by (unfold L, R, leftPart, rightPart in *; lia).
  rewrite (i32_small L), (i32_small R) by lia.
  destruct (Z.max L R <? min_seed_len memOptions); [reflexivity|].
  destruct (L >=? R); reflexivity.
Qed.

(** On the reverse strand the collector takes [endPos - offset] for the
    part in the second transcript, one base less than that part, and the
    rest, one base more than the first part, for the first transcript. *)
Lemma occurrence_reverse_split readLen p slen k i :
  splitSpanningSeeds salmonOpts = true ->
  l_pac bns <= bwt_sa (x0 p + k) -> 0 < slen < 2 ^ 31 ->
  0 <= min_seed_len memOptions < 2 ^ 31 ->
  let lo := 2 * l_pac bns - 1 - (bwt_sa (x0 p + k) + slen - 1) in
  let hi := 2 * l_pac bns - 1 - bwt_sa (x0 p + k) in
  straddles bns i lo hi ->
  let L := leftPart bns i lo in
  let R := rightPart bns i hi in
  match snd (occurrence bns bwt_sa memOptions salmonOpts readLen p slen k) with
  | None => Z.max (L + 1) (R - 1) < min_seed_len memOptions
  | Some c =>
      min_seed_len memOptions <= Z.max (L + 1) (R - 1) /\
      callIsRev c = true /\
      callRefID c = (if L + 1 >=? R - 1 then i else i + 1) /\
      callLen c = (if L + 1 >=? R - 1 then L + 1 else R - 1)
  end.
Proof.
  intros Hon Hrev Hlen Hmin lo hi (Hi & Hrlo & Hrhi & Ho & Hb & Hc) L R.
  unfold occurrence. rewrite !bns_depos_reverse by lia. red_occ.
  fold lo hi. rewrite Hrlo, Hrhi.
  destruct (i <? 0) eqn:E3; [lia|].
  destruct (i =? i + 1) eqn:E4; [lia|]. red_occ. rewrite Hon. red_occ.
  unfold splitReverse.
  assert (HR : hi - offset (annAt bns (i + 1)) = R - 1)
    by (unfold R, rightPart; lia).
  assert (HLR : slen = L + R) by (unfold L, R, leftPart, rightPart, lo, hi; lia).
  assert (HLb : 0 < L) by (unfold L, leftPart; lia).
  assert (HRb : 0 < R) by (unfold R, rightPart; lia).
  rewrite HR, (u64_small (R - 1)) by lia.
  replace (slen - (R - 1)) with (L + 1) by lia.
  rewrite (u64_small (L + 1)), (u64_small (min_seed_len memOptions)) by lia.
  destruct (Z.max (L + 1) (R - 1) <? min_seed_len memOptions) eqn:Em.
  - simpl. lia.
  - destruct (L + 1 >=? R - 1) eqn:E; simpl; rewrite ?Hrhi;
      (split; [lia|]); (split; [reflexivity|]); (split; [reflexivity|]);
      apply i32_small; lia.
Qed.

End Spanning.

(** C6 (the code at the failing input): with [splitSpanningSeeds] and
    [min_seed_len = 19], a reverse-strand occurrence of 36 bases that has
    18 bases in each of two transcripts gives a vote of length 19 for the
    first transcript, although neither part reaches [min_seed_len]. *)
Theorem reverse_split_counts_one_base_more :
  let lo := 2 * l_pac twoTranscripts - 1 - (282 + 36 - 1) in
  let hi := 2 * l_pac twoTranscripts - 1 - 282 in
  straddles twoTranscripts 0 lo hi /\
  leftPart twoTranscripts 0 lo = 18 /\
  rightPart twoTranscripts 0 hi = 18 /\
  occurrence twoTranscripts (fun i => i) (mkMemOpt 19 200) (mkSeedOpts true)
             50 (mkSeed 282 1 0 36) 36 0
  = (19, Some (mkCall 0 true 83 17 19 33)).
Proof.
  simpl. split; [|repeat split].
  unfold straddles, annAt, bns_pos2rid. simpl. lia.
Qed.

(** The same seed one base longer on the right, 18 and 19 bases: the vote
    goes to the first transcript, which holds the shorter part. *)
Lemma reverse_split_prefers_shorter_part :
  let lo := 2 * l_pac twoTranscripts - 1 - (281 + 37 - 1) in
  let hi := 2 * l_pac twoTranscripts - 1 - 281 in
  straddles twoTranscripts 0 lo hi /\
  leftPart twoTranscripts 0 lo = 18 /\
  rightPart twoTranscripts 0 hi = 19 /\
  occurrence twoTranscripts (fun i => i) (mkMemOpt 19 200) (mkSeedOpts true)
             50 (mkSeed 281 1 0 37) 37 0
  = (19, Some (mkCall 0 true 82 18 19 32)).
Proof.
  simpl. split; [|repeat split].
  unfold straddles, annAt, bns_pos2rid. simpl. lia.
Qed.

(** The forward occurrence over the same 18 and 19 bases votes for the
    second transcript, which holds the longer part. *)
Lemma forward_split_prefers_longer_part :
  straddles twoTranscripts 0 82 118 /\
  occurrence twoTranscripts (fun i => i) (mkMemOpt 19 200) (mkSeedOpts true)
             50 (mkSeed 82 1 0 37) 37 0
  = (19, Some (mkCall 1 false 0 18 19 50)).
Proof.
  split; [|reflexivity].
  unfold straddles, annAt, bns_pos2rid. simpl. lia.
Qed.

End SeedsFacts.

(** ** Facts on [processMiniBatch] *)

Module EMFacts.
Import EM.

Section MiniBatch.

Context {D : Type} `{LogDomain D}.

Variable pmf : list (Z * D) -> Z -> D.
Variable uni : nat -> Q.
Variable salmonOpts : EMOpts.
Variable expectedLibraryFormat : LibraryFormat.
Variable logForgettingMass : D.
Variable initialRound : bool.

Local Abbreviation eStepAln := (eStepAln pmf salmonOpts expectedLibraryFormat initialRound).
Local Abbreviation eStepGroup := (eStepGroup pmf salmonOpts expectedLibraryFormat initialRound).
Local Abbreviation alignProb := (alignProb pmf salmonOpts expectedLibraryFormat).
Local Abbreviation processGroup :=
  (processGroup pmf uni salmonOpts expectedLibraryFormat logForgettingMass
                initialRound).
Local Abbreviation eStep :=
  (eStep pmf uni salmonOpts expectedLibraryFormat logForgettingMass initialRound).
Local Abbreviation processMiniBatch :=
  (processMiniBatch pmf uni salmonOpts expectedLibraryFormat logForgettingMass
                    initialRound).
Local Abbreviation normalizeAln := (normalizeAln uni logForgettingMass).

(** *** The E-step leaves masses and lengths alone *)

Lemma sameMasses_refl (ts : list (Transcript D)) : sameMasses ts ts.
Proof. induction ts; constructor; auto. Qed.

Lemma sameMasses_trans (a b c : list (Transcript D)) :
  sameMasses a b -> sameMasses b c -> sameMasses a c.
Proof.
  unfold sameMasses. intros Hab. revert c.
  induction Hab as [|x y a b [Hm Hr] Hab IH]; intros c Hbc;
    inversion Hbc as [|? z ? c' [Hm' Hr'] Hbc']; subst; constructor.
  - split; congruence.
  - now apply IH.
Qed.

Lemma sameMasses_alter (f : Transcript D -> Transcript D) n ts :
  (forall t, mass (f t) = mass t /\ RefLength (f t) = RefLength t) ->
  sameMasses ts (alter f n ts).
Proof.
  intros Hf. revert n. induction ts as [|t ts IH]; intros n; [constructor|].
  destruct n as [|n]; simpl.
  - constructor; [|apply sameMasses_refl]. destruct (Hf t). auto.
  - constructor; [auto|apply IH].
Qed.

Lemma sameMasses_at (ts ts' : list (Transcript D)) tid :
  sameMasses ts ts' ->
  mass (transcriptAt ts tid) = mass (transcriptAt ts' tid) /\
  RefLength (transcriptAt ts tid) = RefLength (transcriptAt ts' tid).
Proof.
  unfold transcriptAt. generalize (Z.to_nat tid). intros n Hs. revert n.
  induction Hs as [|t t' ts ts' Ht Hs IH]; intros n.
  - rewrite !lookup_nil. auto.
  - destruct n as [|n]; simpl; auto.
Qed.

Lemma alignProb_ext fld (t t' : Transcript D) a :
  mass t = mass t' -> RefLength t = RefLength t' ->
  alignProb fld t a = alignProb fld t' a.
Proof. intros Hm Hr. unfold EM.alignProb. now rewrite Hm, Hr. Qed.

Lemma eStepAln_sameMasses fld first lp a :
  sameMasses (eTranscripts lp) (eTranscripts (eStepAln fld first lp a)).
Proof.
  unfold EM.eStepAln. destruct (negb _); simpl; [|apply sameMasses_refl].
  destruct (bool_decide _); [apply sameMasses_refl|].
  destruct initialRound; [|apply sameMasses_refl].
  apply sameMasses_alter. intros t. simpl. auto.
Qed.

(** The value that the first loop gives to [logProb], read off the
    transcripts the group started from. *)
Lemma eStep_fold_alns fld first ts0 g : forall lp,
  sameMasses ts0 (eTranscripts lp) ->
  let r := fold_left (eStepAln fld first) g lp in
  sameMasses ts0 (eTranscripts r) /\
  eAlns r = eAlns lp ++
    map (fun a => setLogProb a
           (if isLog0 (mass (transcriptAt ts0 (transcriptID a))) then LOG_0
            else alignProb fld (transcriptAt ts0 (transcriptID a)) a)) g.
Proof.
  induction g as [|a g IH]; intros lp Hs; simpl.
  - split; [assumption|]. now rewrite app_nil_r.
  - destruct (IH (eStepAln fld first lp a)) as [Hs' Hal].
    { eapply sameMasses_trans; [exact Hs|apply eStepAln_sameMasses]. }
    split; [exact Hs'|]. rewrite Hal. clear IH Hs' Hal.
    destruct (sameMasses_at _ _ (transcriptID a) Hs) as [Hm Hr].
    unfold EM.eStepAln. rewrite <- Hm.
    destruct (isLog0 (mass (transcriptAt ts0 (transcriptID a)))); simpl.
    + now rewrite <- app_assoc.
    + rewrite <- app_assoc. simpl. do 3 f_equal.
      symmetry. now apply alignProb_ext.
Qed.

Lemma eStepGroup_alns st g :
  eAlns (eStepGroup st g)
  = map (fun a => setLogProb a
           (if isLog0 (mass (transcriptAt (transcripts st) (transcriptID a)))
            then LOG_0
            else alignProb (fragLengthDist st)
                           (transcriptAt (transcripts st) (transcriptID a)) a)) g.
Proof.
  unfold EM.eStepGroup.
  match goal with |- context [fold_left ?f g ?lp] =>
    destruct (eStep_fold_alns (fragLengthDist st)
                (match g with a :: _ => transcriptID a | [] => 0 end)
                (transcripts st) g lp (sameMasses_refl _)) as [_ E]
  end.
  exact E.
Qed.

Lemma eStepGroup_sameMasses st g :
  sameMasses (transcripts st) (eTranscripts (eStepGroup st g)).
Proof.
  unfold EM.eStepGroup.
  match goal with |- context [fold_left ?f g ?lp] =>
    destruct (eStep_fold_alns (fragLengthDist st)
                (match g with a :: _ => transcriptID a | [] => 0 end)
                (transcripts st) g lp (sameMasses_refl _)) as [E _]
  end.
  exact E.
Qed.

(** C1: the first loop over a group sets [a.logProb] to [LOG_0] when the
    transcript of [a] has mass [LOG_0], and otherwise to
    [(t.mass - log(t.length)) + logFragProb + logOrientationProb], with
    the length clamped to at least 1 and [logFragProb] the [pmf] of the
    fragment length when [useFragLenDist] is set and the length is
    positive, and [log 1] otherwise. *)
Theorem eStep_sets_logProb (st : EMState D) (alnGroup : list (SMEMAlignment D)) :
  Forall2
    (fun a a' =>
       transcriptID a' = transcriptID a /\ libFormat a' = libFormat a /\
       score a' = score a /\ fragLength a' = fragLength a /\
       let t := transcriptAt (transcripts st) (transcriptID a) in
       let logFragProb :=
         if useFragLenDist salmonOpts && (0 <? fragLength a)
         then pmf (fragLengthDist st) (fragLength a) else LOG_1 in
       let logOrientationProb :=
         if useReadCompat salmonOpts
         then logAlignFormatProb (libFormat a) expectedLibraryFormat
         else LOG_1 in
       logProb a' =
         if isLog0 (mass t) then LOG_0
         else dadd (dadd (dsub (mass t) (dlog (Z.max 1 (RefLength t))))
                         logFragProb)
                   logOrientationProb)
    alnGroup (eAlns (eStepGroup st alnGroup)).
Proof.
  rewrite eStepGroup_alns.
  induction alnGroup as [|a g IH]; simpl; constructor; [|exact IH].
  repeat split. simpl.
  destruct (isLog0 _); [reflexivity|].
  unfold EM.alignProb.
  replace (if RefLength _ >? 0 then _ else 1)
    with (Z.max 1 (RefLength (transcriptAt (transcripts st) (transcriptID a))))
    by (destruct (Z.gtb_spec
                    (RefLength (transcriptAt (transcripts st) (transcriptID a)))
                    0); lia).
  destruct (useFragLenDist salmonOpts); simpl; [|reflexivity].
  replace (0 <? fragLength a) with (fragLength a >? 0) by lia.
  reflexivity.
Qed.

(** *** Updates of the fragment length distribution *)

Lemma normalize_fold sm burned alns : forall done fld eng,
  exists new,
    fold_left (normalizeAln sm burned) alns (done, fld, eng)
    = (done ++ map (fun a => setLogProb a (dsub (logProb a) sm)) alns,
       fld ++ new, (eng + length alns)%nat) /\
    (burned = true -> new = []) /\
    forall e, e ∈ new ->
      sampledFrom uni logForgettingMass
        (map (fun a => setLogProb a (dsub (logProb a) sm)) alns) e.
Proof.
  induction alns as [|a alns IH]; intros done fld eng; simpl.
  - exists []. rewrite !app_nil_r, Nat.add_0_r. split; [reflexivity|].
    split; [reflexivity|]. intros e He. inversion He.
  - set (a' := setLogProb a (dsub (logProb a) sm)).
    set (fld' := if negb burned && belowExp (uni eng) (dsub (logProb a) sm)
                 then if fragLength a >? 0
                      then fld ++ [(fragLength a, logForgettingMass)] else fld
                 else fld).
    destruct (IH (done ++ [a']) fld' (S eng)) as (new & E & Hb & Hs).
    assert (Hfld : exists hd, fld' = fld ++ hd /\ (burned = true -> hd = []) /\
                     forall e, e ∈ hd -> sampledFrom uni logForgettingMass
                                           (a' :: map (fun a => setLogProb a
                                              (dsub (logProb a) sm)) alns) e).
    { unfold fld'. destruct burned; simpl.
      - exists []. rewrite app_nil_r. repeat split; auto.
        intros e He. inversion He.
      - destruct (belowExp (uni eng) (dsub (logProb a) sm)) eqn:Eb;
          [destruct (fragLength a >? 0) eqn:Ef|].
        + exists [(fragLength a, logForgettingMass)]. split; [reflexivity|].
          split; [discriminate|]. intros e He.
          apply list_elem_of_singleton in He as ->.
          exists a', eng. split; [left|]. split; [exact Eb|]. split; [simpl; lia|].
          reflexivity.
        + exists []. rewrite app_nil_r. repeat split; auto.
          intros e He. inversion He.
        + exists []. rewrite app_nil_r. repeat split; auto.
          intros e He. inversion He. }
    destruct Hfld as (hd & Ehd & Hbhd & Hshd).
    exists (hd ++ new). fold a'. fold fld'. rewrite E, Ehd.
    rewrite <- !app_assoc. simpl.
    split; [f_equal; lia|]. split.
    + intros Hbt. now rewrite Hb, Hbhd.
    + intros e He. apply elem_of_app in He as [He|He]; [now apply Hshd|].
      destruct (Hs e He) as (x & n & Hx & Hn & Hf & ->).
      exists x, n. split; [now right|]. auto.
Qed.

Lemma processGroup_fld st g st' g' b :
  processGroup st g = (st', g', b) ->
  burnedIn st' = burnedIn st /\
  numAssignedFragments st' = numAssignedFragments st /\
  exists new,
    fragLengthDist st' = fragLengthDist st ++ new /\
    (burnedIn st = true -> new = []) /\
    forall e, e ∈ new -> sampledFrom uni logForgettingMass g' e.
Proof.
  unfold EM.processGroup. destruct g as [|first g].
  - intros [= <- <- <-]. repeat split. exists []. rewrite app_nil_r.
    repeat split; auto. intros e He. inversion He.
  - set (e := eStepGroup st (first :: g)).
    destruct (isLog0 (sumOfAlignProbs e)).
    + intros [= <- <- <-]. simpl. repeat split. exists [].
      rewrite app_nil_r. repeat split; auto. intros x Hx. inversion Hx.
    + destruct (normalize_fold (sumOfAlignProbs e) (burnedIn st) (eAlns e)
                  [] (fragLengthDist st) (randEng st)) as (new & E & Hb & Hs).
      rewrite E. simpl. intros [= <- <- <-]. simpl. repeat split.
      exists new. repeat split; auto.
Qed.

Lemma eStep_fld batch : forall st st' out n,
  eStep st batch = (st', out, n) ->
  burnedIn st' = burnedIn st /\
  numAssignedFragments st' = numAssignedFragments st /\
  exists new,
    fragLengthDist st' = fragLengthDist st ++ new /\
    (burnedIn st = true -> new = []) /\
    forall e, e ∈ new ->
      exists g', g' ∈ out /\ sampledFrom uni logForgettingMass g' e.
Proof.
  induction batch as [|g batch IH]; intros st st' out n; simpl.
  - intros [= <- <- <-]. repeat split. exists []. rewrite app_nil_r.
    repeat split; auto. intros e He. inversion He.
  - destruct (processGroup st g) as [[st1 g'] b] eqn:Eg.
    destruct (eStep st1 batch) as [[st2 rest] m] eqn:Er.
    intros [= <- <- <-].
    destruct (processGroup_fld _ _ _ _ _ Eg) as (Hb1 & Hn1 & new1 & E1 & Hq1 & Hs1).
    destruct (IH _ _ _ _ Er) as (Hb2 & Hn2 & new2 & E2 & Hq2 & Hs2).
    split; [congruence|]. split; [congruence|].
    exists (new1 ++ new2). rewrite E2, E1, <- app_assoc.
    split; [reflexivity|]. split.
    + intros Hb. rewrite Hq1 by exact Hb. rewrite Hq2 by congruence. reflexivity.
    + intros e He. apply elem_of_app in He as [He|He].
      * exists g'. split; [left|]. now apply Hs1.
      * destruct (Hs2 e He) as (x & Hx & Hsx). exists x. split; [now right|auto].
Qed.

(** What one call of [processMiniBatch] does to the fragment length
    distribution and to [burnedIn]. *)
Lemma processMiniBatch_fld st batch st' out :
  processMiniBatch st batch = (st', out) ->
  (exists new,
     fragLengthDist st' = fragLengthDist st ++ new /\
     (burnedIn st = true -> new = []) /\
     forall e, e ∈ new ->
       exists g', g' ∈ out /\ sampledFrom uni logForgettingMass g' e) /\
  burnedIn st'
  = burnedIn st || (numBurninFrags <=? numAssignedFragments st').
Proof.
  unfold EM.processMiniBatch.
  destruct (eStep st batch) as [[st1 hits] n] eqn:E.
  intros [= <- <-]. simpl.
  destruct (eStep_fld _ _ _ _ _ E) as (Hb & Hn & new & Ef & Hq & Hs).
  split; [exists new; auto|]. rewrite Hb.
  set (x := u64 _).
  replace (x >=? numBurninFrags) with (numBurninFrags <=? x) by lia.
  destruct (burnedIn st); destruct (numBurninFrags <=? x); reflexivity.
Qed.

(** *** A batch of one read with one alignment *)

Lemma processMiniBatch_single st (a : SMEMAlignment D) :
  let t := transcriptAt (transcripts st) (transcriptID a) in
  let p := alignProb (fragLengthDist st) t a in
  let sm := logAdd LOG_0 p in
  let r := fst (processMiniBatch st [[a]]) in
  isLog0 (mass t) = false -> isLog0 sm = false ->
  numAssignedFragments r = u64 (numAssignedFragments st + 1) /\
  burnedIn r
  = burnedIn st || (numBurninFrags <=? u64 (numAssignedFragments st + 1)) /\
  fragLengthDist r
  = fragLengthDist st ++
    (if negb (burnedIn st) && belowExp (uni (randEng st)) (dsub p sm)
     then if fragLength a >? 0 then [(fragLength a, logForgettingMass)] else []
     else []).
Proof.
  intros t p sm r Ht Hsm.
  assert (E : processGroup st [a]
              = (fst (fst (processGroup st [a])),
                 snd (fst (processGroup st [a])), true) /\
              numAssignedFragments (fst (fst (processGroup st [a])))
              = numAssignedFragments st /\
              burnedIn (fst (fst (processGroup st [a]))) = burnedIn st /\
              fragLengthDist (fst (fst (processGroup st [a])))
              = fragLengthDist st ++
                (if negb (burnedIn st)
                    && belowExp (uni (randEng st)) (dsub p sm)
                 then if fragLength a >? 0
                      then [(fragLength a, logForgettingMass)] else []
                 else [])).
  { unfold EM.processGroup, EM.eStepGroup. simpl fold_left.
    unfold EM.eStepAln. simpl eTranscripts. fold t. rewrite Ht.
    simpl negb. cbv iota. simpl sumOfAlignProbs. fold p. fold sm. rewrite Hsm.
    simpl eAlns. simpl fold_left. unfold EM.normalizeAln. simpl.
    repeat split.
    destruct (negb (burnedIn st) && belowExp (uni (randEng st)) (dsub p sm));
      [destruct (fragLength a >? 0)|]; simpl; now rewrite ?app_nil_r. }
  unfold r, EM.processMiniBatch, EM.eStep.
  set (pg := processGroup st [a]) in *. clearbody pg.
  destruct pg as [[st1 g'] b]. simpl in E. destruct E as (Eg & En & Eb & Ef).
  injection Eg as ->. simpl.
  rewrite En, Eb, Ef. split; [reflexivity|]. split; [|reflexivity].
  set (x := u64 _).
  replace (x >=? numBurninFrags) with (numBurninFrags <=? x) by lia.
  destruct (burnedIn st); destruct (numBurninFrags <=? x); reflexivity.
Qed.

(** *** A group without alignments *)





(** *** Exact arithmetic: the sum of a group and its normalisation *)

Section Exact.

Variable expD : D -> R.
Context {laws : LogLaws expD}.

Lemma expD_nonneg x : (0 <= expD x)%R.
Proof.
  destruct (isLog0 x) eqn:E.
  - apply isLog0_spec in E. subst. rewrite expD_log0. lra.
  - apply Rlt_le. now apply expD_pos.
Qed.

Lemma expD_zero x : expD x = 0%R -> x = LOG_0.
Proof.
  intros Hx. apply isLog0_spec. destruct (isLog0 x) eqn:E; [reflexivity|].
  pose proof (expD_pos x E). lra.
Qed.

Lemma isLog0_LOG_0 : isLog0 (LOG_0 : D) = true.
Proof. now apply isLog0_spec. Qed.

Lemma sumExp_app (l1 l2 : list (SMEMAlignment D)) :
  sumExp expD (l1 ++ l2) = (sumExp expD l1 + sumExp expD l2)%R.
Proof. induction l1 as [|a l1 IH]; simpl; [lra|]. rewrite IH. lra. Qed.

Lemma sumExp_nonneg (l : list (SMEMAlignment D)) : (0 <= sumExp expD l)%R.
Proof.
  induction l as [|a l IH]; simpl; [lra|].
  pose proof (expD_nonneg (logProb a)). lra.
Qed.

Lemma sumExp_zero (l : list (SMEMAlignment D)) :
  sumExp expD l = 0%R -> Forall (fun a => logProb a = LOG_0) l.
Proof.
  induction l as [|a l IH]; simpl; intros Hs; constructor.
  - apply expD_zero. pose proof (expD_nonneg (logProb a)).
    pose proof (sumExp_nonneg l). lra.
  - apply IH. pose proof (expD_nonneg (logProb a)).
    pose proof (sumExp_nonneg l). lra.
Qed.

Lemma eStepAln_sum fld first lp a :
  expD (sumOfAlignProbs lp) = sumExp expD (eAlns lp) ->
  expD (sumOfAlignProbs (eStepAln fld first lp a))
  = sumExp expD (eAlns (eStepAln fld first lp a)).
Proof.
  intros Hs. unfold EM.eStepAln. destruct (negb _); simpl.
  - rewrite expD_logAdd, sumExp_app, Hs. simpl. lra.
  - rewrite sumExp_app, Hs. simpl. rewrite expD_log0. lra.
Qed.

(** The sum that the first loop accumulates is the log-sum-exp of the
    values it gave to [logProb]. *)
Lemma eStepGroup_sum st g :
  expD (sumOfAlignProbs (eStepGroup st g))
  = sumExp expD (eAlns (eStepGroup st g)).
Proof.
  unfold EM.eStepGroup.
  set (first := match g with a :: _ => transcriptID a | [] => 0 end).
  set (lp := mkELoop LOG_0 true ∅ (transcripts st) (libTypeCounts st) []).
  assert (H0 : expD (sumOfAlignProbs lp) = sumExp expD (eAlns lp))
    by (simpl; apply expD_log0).
  clearbody lp first. revert lp H0.
  induction g as [|a g IH]; intros lp H0; simpl; [exact H0|].
  apply IH. now apply eStepAln_sum.
Qed.

Lemma sumExp_normalised sm (alns : list (SMEMAlignment D)) :
  isLog0 sm = false ->
  sumExp expD (map (fun a => setLogProb a (dsub (logProb a) sm)) alns)
  = (sumExp expD alns / expD sm)%R.
Proof.
  intros Hs. induction alns as [|a alns IH]; simpl.
  - unfold Rdiv. now rewrite Rmult_0_l.
  - rewrite IH, expD_dsub by exact Hs. unfold Rdiv. lra.
Qed.

(** *** The M-step *)

Lemma insertKey_elem x y l : x ∈ insertKey y l <-> x = y \/ x ∈ l.
Proof.
  induction l as [|z l IH]; simpl.
  - rewrite list_elem_of_singleton. split; [auto|]. intros [?|Hn]; [auto|inversion Hn].
  - destruct (y <? z) eqn:E1; [apply elem_of_cons|].
    destruct (y =? z) eqn:E2.
    + apply Z.eqb_eq in E2. subst. rewrite elem_of_cons. tauto.
    + rewrite !elem_of_cons, IH. tauto.
Qed.

Lemma insertKey_sorted y l :
  StronglySorted Z.lt l -> StronglySorted Z.lt (insertKey y l).
Proof.
  induction 1 as [|z l Hs IH Hz]; simpl; [repeat constructor|].
  destruct (y <? z) eqn:E1.
  - apply Z.ltb_lt in E1. constructor; [now constructor|].
    constructor; [exact E1|]. eapply Forall_impl; [exact Hz|].
    simpl. intros. lia.
  - destruct (y =? z) eqn:E2; [now constructor|].
    apply Z.ltb_ge in E1. apply Z.eqb_neq in E2.
    constructor; [exact IH|]. apply Forall_forall. intros x Hx.
    apply insertKey_elem in Hx as [->|Hx]; [lia|].
    rewrite Forall_forall in Hz. now apply Hz.
Qed.

Lemma sorted_lt_NoDup (l : list Z) : StronglySorted Z.lt l -> NoDup l.
Proof.
  induction 1 as [|z l Hs IH Hz]; constructor; [|exact IH].
  intros Hin. rewrite Forall_forall in Hz. specialize (Hz _ Hin). lia.
Qed.

Lemma batchKeys_NoDup (gs : list (list (SMEMAlignment D))) :
  NoDup (batchKeys gs).
Proof.
  apply sorted_lt_NoDup. unfold batchKeys.
  induction (map transcriptID (concat gs)) as [|x l IH]; simpl;
    [constructor|now apply insertKey_sorted].
Qed.

Lemma batchKeys_elem (gs : list (list (SMEMAlignment D))) x :
  x ∈ batchKeys gs <-> exists a, a ∈ concat gs /\ transcriptID a = x.
Proof.
  unfold batchKeys. induction (concat gs) as [|a l IH]; simpl.
  - split; [intros Hn; inversion Hn|intros (a & Hn & _); inversion Hn].
  - rewrite insertKey_elem, IH. split.
    + intros [->|(b & Hb & Hx)]; [exists a; split; [left|reflexivity]|].
      exists b. split; [now right|exact Hx].
    + intros (b & Hb & Hx). apply elem_of_cons in Hb as [->|Hb]; [now left|].
      right. exists b. auto.
Qed.

Lemma fold_alter_lookup (F : Z -> Transcript D -> Transcript D) keys :
  NoDup keys -> Forall (fun k => 0 <= k) keys ->
  forall (ts : list (Transcript D)) n,
    fold_left (fun ts k => alter (F k) (Z.to_nat k) ts) keys ts !! n
    = (fun t => if bool_decide (Z.of_nat n ∈ keys) then F (Z.of_nat n) t else t)
      <$> ts !! n.
Proof.
  induction 1 as [|k keys Hk Hnd IH]; intros Hpos ts n; simpl.
  - destruct (ts !! n); reflexivity.
  - inversion Hpos as [|? ? Hk0 Hpos']; subst. rewrite IH by exact Hpos'.
    destruct (decide (n = Z.to_nat k)) as [->|Hne].
    + rewrite list_lookup_alter_eq, Z2Nat.id by exact Hk0.
      rewrite (bool_decide_eq_false_2 _ Hk).
      rewrite bool_decide_eq_true_2 by left.
      destruct (ts !! Z.to_nat k); reflexivity.
    + rewrite list_lookup_alter_ne by auto.
      assert (Hnk : Z.of_nat n <> k) by lia.
      destruct (ts !! n) as [t|]; [simpl|reflexivity].
      destruct (decide (Z.of_nat n ∈ keys)) as [Hin|Hnin].
      * rewrite !bool_decide_eq_true_2; [reflexivity|now right|exact Hin].
      * rewrite !bool_decide_eq_false_2; [reflexivity| |exact Hnin].
        intros Hin. apply elem_of_cons in Hin as [?|?]; auto.
Qed.

Lemma hitMass_fold_log0 tid (g : list (SMEMAlignment D)) m :
  Forall (fun a => logProb a = LOG_0) g ->
  fold_left (fun m aln => logAdd m (logProb aln))
            (filter (fun aln => transcriptID aln = tid) g) m = m.
Proof.
  induction 1 as [|a g Ha Hg IH]; [reflexivity|].
  rewrite filter_cons. destruct (decide (transcriptID a = tid)); [|exact IH].
  simpl. rewrite Ha, logAdd_log0_r. exact IH.
Qed.

Lemma hitMass_skip gs1 g gs2 tid :
  Forall (fun a => logProb a = LOG_0) g ->
  hitMass (gs1 ++ g :: gs2) tid = hitMass (gs1 ++ gs2) tid.
Proof.
  intros Hg. unfold hitMass. rewrite !concat_app. simpl.
  rewrite !filter_app, !fold_left_app. f_equal.
  now apply hitMass_fold_log0.
Qed.

Lemma hitMass_absent (gs : list (list (SMEMAlignment D))) tid :
  tid ∉ batchKeys gs -> hitMass gs tid = LOG_0.
Proof.
  intros Hn. unfold hitMass.
  assert (Hf : Forall (fun a => transcriptID a <> tid) (concat gs)).
  { apply Forall_forall. intros a Ha Ht. apply Hn, batchKeys_elem. eauto. }
  induction Hf as [|a l Ha Hl IH]; [reflexivity|].
  rewrite filter_cons. destruct (decide (transcriptID a = tid)); [contradiction|].
  exact IH.
Qed.

Lemma addMass_log0 (t : Transcript D) : addMass LOG_0 t = t.
Proof. destruct t. unfold addMass. simpl. now rewrite logAdd_log0_r. Qed.

(** A group whose alignments all have [logProb = LOG_0] adds no mass in
    the M-step. *)
Lemma mStep_skip gs1 g gs2 ts :
  Forall (Forall (fun a => 0 <= transcriptID a)) (gs1 ++ g :: gs2) ->
  Forall (fun a => logProb a = LOG_0) g ->
  mStep logForgettingMass (gs1 ++ g :: gs2) ts
  = mStep logForgettingMass (gs1 ++ gs2) ts.
Proof.
  intros Hpos Hg. unfold mStep.
  assert (Hkeys : forall gs : list (list (SMEMAlignment D)),
             Forall (Forall (fun a => 0 <= transcriptID a)) gs ->
             Forall (fun k => 0 <= k) (batchKeys gs)).
  { intros gs Hgs. apply Forall_forall. intros k Hk.
    apply batchKeys_elem in Hk as (a & Ha & <-).
    apply list_elem_of_In, in_concat in Ha as (l & Hl & Hal).
    apply list_elem_of_In in Hl, Hal.
    rewrite Forall_forall in Hgs. specialize (Hgs _ Hl).
    rewrite Forall_forall in Hgs. now apply Hgs. }
  assert (Hpos' : Forall (Forall (fun a => 0 <= transcriptID a)) (gs1 ++ gs2)).
  { apply Forall_app in Hpos as [H1 H2]. inversion H2; subst.
    apply Forall_app. auto. }
  apply list_eq. intros n.
  rewrite (fold_alter_lookup
             (fun k => addMass (dadd logForgettingMass
                                     (hitMass (gs1 ++ g :: gs2) k)))
             _ (batchKeys_NoDup _) (Hkeys _ Hpos)).
  rewrite (fold_alter_lookup
             (fun k => addMass (dadd logForgettingMass
                                     (hitMass (gs1 ++ gs2) k)))
             _ (batchKeys_NoDup _) (Hkeys _ Hpos')).
  destruct (ts !! n) as [t|]; [simpl|reflexivity]. f_equal.
  rewrite (hitMass_skip _ _ _ _ Hg).
  destruct (decide (Z.of_nat n ∈ batchKeys (gs1 ++ gs2))) as [Hin|Hnin].
  - rewrite (bool_decide_eq_true_2 _ Hin).
    rewrite bool_decide_eq_true_2; [reflexivity|].
    apply batchKeys_elem in Hin as (a & Ha & Ht).
    apply batchKeys_elem. exists a. split; [|exact Ht].
    rewrite concat_app in *. simpl.
    apply elem_of_app in Ha as [Ha|Ha]; apply elem_of_app; [now left|].
    right. apply elem_of_app. now right.
  - rewrite (bool_decide_eq_false_2 _ Hnin).
    rewrite (hitMass_absent _ _ Hnin), dadd_log0_r, addMass_log0.
    now destruct (bool_decide _).
Qed.

(** C2: the sum [S] of a group is the log-sum-exp of the values the
    E-step gave to its alignments.  When [S] is [LOG_0] the read is
    skipped: it is not counted as assigned, the cluster forest, the
    fragment length distribution and the masses are as before, and the
    group adds no mass in the M-step.  Otherwise [S] is subtracted from
    every [logProb] and the probabilities of the group add up to 1. *)
Theorem group_skipped_or_normalised (st : EMState D)
  (alnGroup : list (SMEMAlignment D)) :
  let e := eStepGroup st alnGroup in
  let sm := sumOfAlignProbs e in
  let st' := fst (fst (processGroup st alnGroup)) in
  let alns' := snd (fst (processGroup st alnGroup)) in
  let assigned := snd (processGroup st alnGroup) in
  expD sm = sumExp expD (eAlns e) /\
  (isLog0 sm = true ->
     assigned = false /\
     clusterForest st' = clusterForest st /\
     fragLengthDist st' = fragLengthDist st /\
     randEng st' = randEng st /\
     sameMasses (transcripts st) (transcripts st') /\
     forall gs1 gs2 ts,
       Forall (Forall (fun a => 0 <= transcriptID a)) (gs1 ++ alns' :: gs2) ->
       mStep logForgettingMass (gs1 ++ alns' :: gs2) ts
       = mStep logForgettingMass (gs1 ++ gs2) ts) /\
  (isLog0 sm = false ->
     assigned = true /\
     alns' = map (fun a => setLogProb a (dsub (logProb a) sm)) (eAlns e) /\
     sumExp expD alns' = 1%R).
Proof.
  intros e sm st' alns' assigned.
  pose proof (eStepGroup_sum st alnGroup) as Hsum. fold e sm in Hsum.
  split; [exact Hsum|].
  unfold assigned, alns', st'. clear assigned alns' st'.
  unfold EM.processGroup. destruct alnGroup as [|first g].
  - assert (Hsm : isLog0 sm = true) by apply isLog0_LOG_0.
    split; [|intros Hf; congruence]. intros _. simpl.
    repeat split; auto using sameMasses_refl.
    intros gs1 gs2 ts Hpos. apply mStep_skip; [exact Hpos|constructor].
  - fold e sm. destruct (isLog0 sm) eqn:Esm.
    + split; [|discriminate]. intros _. simpl.
      repeat split; [apply eStepGroup_sameMasses|].
      intros gs1 gs2 ts Hpos. apply mStep_skip; [exact Hpos|].
      apply sumExp_zero. rewrite <- Hsum.
      apply isLog0_spec in Esm. rewrite Esm. apply expD_log0.
    + split; [discriminate|]. intros _.
      destruct (normalize_fold sm (burnedIn st) (eAlns e) []
                  (fragLengthDist st) (randEng st)) as (new & E & _ & _).
      rewrite E. simpl. repeat split.
      rewrite sumExp_normalised by exact Esm. rewrite <- Hsum.
      apply Rinv_r. pose proof (expD_pos sm Esm). lra.
Qed.

End Exact.

End MiniBatch.

(** *** A pass over the reads *)

Section Pass.

Context {D : Type} `{LogDomain D}.

Variable pmf : list (Z * D) -> Z -> D.
Variable uni : nat -> Q.
Variable salmonOpts : EMOpts.
Variable expectedLibraryFormat : LibraryFormat.
Variable initialRound : bool.

Local Abbreviation processMiniBatch :=
  (processMiniBatch pmf uni salmonOpts expectedLibraryFormat).
Local Abbreviation runBatches :=
  (runBatches pmf uni salmonOpts expectedLibraryFormat initialRound).
Local Abbreviation processReads :=
  (processReads pmf uni salmonOpts expectedLibraryFormat initialRound).

Lemma runBatches_burnedIn batches : forall st,
  burnedIn st = true ->
  burnedIn (runBatches st batches) = true /\
  fragLengthDist (runBatches st batches) = fragLengthDist st.
Proof.
  induction batches as [|[lfm batch] batches IH]; intros st Hb; simpl; [auto|].
  destruct (processMiniBatch lfm initialRound st batch) as [st' out] eqn:E.
  destruct (processMiniBatch_fld _ _ _ _ _ _ _ _ _ _ E)
    as [(new & Ef & Hq & _) Hb'].
  simpl. rewrite Hb in Hb'. simpl in Hb'.
  destruct (IH st' Hb') as [H1 H2]. split; [exact H1|].
  rewrite H2, Ef, (Hq Hb). apply app_nil_r.
Qed.

(** Where C3 does hold: during one pass over the reads, [addVal] is
    called for an alignment only in a mini-batch that starts with
    [burnedIn] false, only when a draw falls below [exp(a.logProb)] and
    only when [a.fragLength > 0]; at the end of a mini-batch [burnedIn]
    becomes true when the [numAssignedFragments] of the pass has reached
    5,000,000; once it is true no later mini-batch of the pass updates the
    distribution, and a pass that starts with more than 5,000,000
    fragments assigned so far makes no update at all. *)
Theorem fld_updates_within_a_pass
  (logForgettingMass : D) (st : EMState D)
  (batchHits : list (list (SMEMAlignment D))) :
  let r := processMiniBatch logForgettingMass initialRound st batchHits in
  (exists new,
     fragLengthDist (fst r) = fragLengthDist st ++ new /\
     (burnedIn st = true -> new = []) /\
     forall e, e ∈ new ->
       exists g', g' ∈ snd r /\ sampledFrom uni logForgettingMass g' e) /\
  burnedIn (fst r)
  = burnedIn st || (5000000 <=? numAssignedFragments (fst r)) /\
  (forall later,
     burnedIn (fst r) = true ->
     burnedIn (runBatches (fst r) later) = true /\
     fragLengthDist (runBatches (fst r) later) = fragLengthDist (fst r)) /\
  (forall totalAssignedFragments batches,
     5000000 < u64 (totalAssignedFragments + numAssignedFragments st) ->
     fragLengthDist (processReads totalAssignedFragments st batches)
     = fragLengthDist st).
Proof.
  intros r.
  destruct (processMiniBatch_fld pmf uni salmonOpts expectedLibraryFormat
              logForgettingMass initialRound st batchHits (fst r) (snd r))
    as [Hnew Hb]; [apply surjective_pairing|].
  split; [exact Hnew|]. split; [exact Hb|]. split.
  - intros later Ht. now apply runBatches_burnedIn.
  - intros total batches Hlt. unfold EM.processReads.
    match goal with |- context [EM.runBatches _ _ _ _ _ ?s _] =>
      destruct (runBatches_burnedIn batches s) as [_ E]
    end.
    + simpl. apply Z.gtb_lt. lia.
    + exact E.
Qed.

End Pass.

End EMFacts.

(** ** Exact log-domain arithmetic: laws and executions *)

Module ExactFacts.
Import EM EMFacts ExactLog.

Local Open Scope R_scope.

#[export] Instance exactLaws : LogLaws expD.
Proof.
  split.
  - intros [a|]; simpl; split; congruence.
  - reflexivity.
  - intros [a|]; simpl; [intros _; apply exp_pos | discriminate].
  - intros [a|] [b|]; simpl; try lra.
    apply exp_ln. pose proof (exp_pos a). pose proof (exp_pos b). lra.
  - intros [a|] [b|]; simpl; try discriminate; intros _.
    + unfold Rminus, Rdiv. now rewrite exp_plus, exp_Ropp.
    + unfold Rdiv. now rewrite Rmult_0_l.
  - intros [a|]; reflexivity.
  - intros [a|]; reflexivity.
Qed.

Local Open Scope Z_scope.

Lemma exAln_sampled n (x : R) : belowExp (exUni n) (Some x) = true.
Proof.
  simpl. destruct (Rlt_dec (Q2R (exUni n)) (exp x)) as [_|Hn]; [reflexivity|].
  exfalso. apply Hn. unfold exUni. rewrite RMicromega.Q2R_0. apply exp_pos.
Qed.

(** C3 (the code at the failing input): a first pass reaches exactly
    5,000,000 assigned fragments with its last mini-batch, so that
    [processMiniBatch] sets [burnedIn] (it tests [>=]); after [softReset]
    the total of assigned fragments is 5,000,000, and
    [ReadExperiment::processReads] starts the next pass from
    [5000000 > 5000000], which is false: the first mini-batch of that pass
    calls [addVal] again, after the burn-in has ended. *)
Lemma fld_update_after_burn_in :
  let lfm : option R := Some 0%R in
  let endOfPass1 :=
    fst (processMiniBatch exPmf exUni exOpts exFormat lfm true
                          exBeforeLastBatch [[exAln]]) in
  let total := fst (softReset 0 endOfPass1) in
  let pass2 :=
    processReads exPmf exUni exOpts exFormat false total
                 (snd (softReset 0 endOfPass1)) [(lfm, [[exAln]])] in
  burnedIn endOfPass1 = true /\
  numAssignedFragments endOfPass1 = 5000000 /\
  total = 5000000 /\
  fragLengthDist pass2 = fragLengthDist endOfPass1 ++ [(200, lfm)].
Proof.
  intros lfm endOfPass1 total pass2.
  destruct (processMiniBatch_single exPmf exUni exOpts exFormat lfm true
              exBeforeLastBatch exAln) as (Hn & Hb & _); [reflexivity..|].
  fold endOfPass1 in Hn, Hb.
  assert (Hn' : numAssignedFragments endOfPass1 = 5000000)
    by (rewrite Hn; reflexivity).
  assert (Hb' : burnedIn endOfPass1 = true) by (rewrite Hb; reflexivity).
  assert (Ht : total = 5000000).
  { change total with (u64 (0 + numAssignedFragments endOfPass1)).
    rewrite Hn'. reflexivity. }
  split; [exact Hb'|]. split; [exact Hn'|]. split; [exact Ht|].
  change pass2 with
    (fst (processMiniBatch exPmf exUni exOpts exFormat lfm false
            (mkEM (transcripts endOfPass1) (clusterForest endOfPass1)
                  (fragLengthDist endOfPass1) 0 (randEng endOfPass1)
                  (u64 (total + 0) >? 5000000) (libTypeCounts endOfPass1))
            [[exAln]])).
  rewrite Ht. change (u64 (5000000 + 0) >? 5000000) with false.
  match goal with |- fragLengthDist (fst (processMiniBatch _ _ _ _ _ _ ?s _)) = _ =>
    destruct (processMiniBatch_single exPmf exUni exOpts exFormat lfm false
                s exAln) as (_ & _ & Hf); [reflexivity..|]
  end.
  rewrite Hf. simpl fragLengthDist. f_equal.
  simpl burnedIn. simpl randEng.
  match goal with |- context [belowExp _ ?x] =>
    assert (Hx : exists y, x = Some y) by (eexists; reflexivity)
  end.
  destruct Hx as [y ->]. rewrite exAln_sampled. reflexivity.
Qed.


Lemma group_skipped_or_normalised_witness :
  let lfm : option R := Some 0%R in
  let st := exBeforeLastBatch in
  let alnGroup := [exAln] in
  let e := eStepGroup exPmf exOpts exFormat true st alnGroup in
  let sm := sumOfAlignProbs e in
  let r := processGroup exPmf exUni exOpts exFormat lfm true st alnGroup in
  let st' := fst (fst r) in
  let alns' := snd (fst r) in
  let assigned := snd r in
  expD sm = sumExp expD (eAlns e) /\
  (isLog0 sm = true ->
     assigned = false /\
     clusterForest st' = clusterForest st /\
     fragLengthDist st' = fragLengthDist st /\
     randEng st' = randEng st /\
     sameMasses (transcripts st) (transcripts st') /\
     forall gs1 gs2 ts,
       Forall (Forall (fun a => 0 <= transcriptID a)) (gs1 ++ alns' :: gs2) ->
       mStep lfm (gs1 ++ alns' :: gs2) ts = mStep lfm (gs1 ++ gs2) ts) /\
  (isLog0 sm = false ->
     assigned = true /\
     alns' = map (fun a => setLogProb a (dsub (logProb a) sm)) (eAlns e) /\
     sumExp expD alns' = 1%R).
Proof.
  exact (group_skipped_or_normalised exPmf exUni exOpts exFormat (Some 0%R)
           true expD (laws := exactLaws) exBeforeLastBatch [exAln]).
Defined.


End ExactFacts.

(** ** Facts on the order of the votes *)

Module ChainOrderFacts.
Import Chainer ChainOrder.

Lemma keyLe_spec a b :
  keyLe a b <->
  votePos a < votePos b \/ (votePos a = votePos b /\ readPos a <= readPos b).
Proof.
  unfold keyLe, voteLt.
  destruct (votePos b =? votePos a) eqn:E.
  - apply Z.eqb_eq in E. rewrite Z.ltb_ge. lia.
  - apply Z.eqb_neq in E. rewrite Z.ltb_ge. lia.
Qed.

Lemma keyLe_trans a b c : keyLe a b -> keyLe b c -> keyLe a c.
Proof. rewrite !keyLe_spec. lia. Qed.

Lemma keyLe_total a b : voteLt a b = true -> keyLe a b.
Proof.
  rewrite keyLe_spec. unfold voteLt.
  destruct (votePos a =? votePos b) eqn:E.
  - apply Z.eqb_eq in E. rewrite Z.ltb_lt. lia.
  - apply Z.eqb_neq in E. rewrite Z.ltb_lt. lia.
Qed.

Lemma keyLe_antisym a b : keyLe a b -> keyLe b a -> voteKey a = voteKey b.
Proof. rewrite !keyLe_spec. unfold voteKey. intros; f_equal; lia. Qed.

Lemma insertVote_perm x l : insertVote x l ≡ₚ x :: l.
Proof.
  induction l as [|y l IH]; simpl; [reflexivity|].
  destruct (voteLt y x); [|reflexivity].
  rewrite IH. apply Permutation_swap.
Qed.

Lemma sortVotes_perm l : sortVotes l ≡ₚ l.
Proof.
  induction l as [|x l IH]; simpl; [reflexivity|].
  rewrite insertVote_perm. by rewrite IH.
Qed.

Lemma insertVote_keySorted x l :
  StronglySorted keyLe l -> StronglySorted keyLe (insertVote x l).
Proof.
  induction 1 as [|y l Hs IH Hy]; simpl.
  - repeat constructor.
  - destruct (voteLt y x) eqn:E.
    + constructor; [exact IH|].
      rewrite insertVote_perm. constructor; [by apply keyLe_total|exact Hy].
    + constructor; [by constructor|].
      constructor; [exact E|].
      eapply Forall_impl; [exact Hy|].
      intros z Hz. eapply keyLe_trans; [exact E|exact Hz].
Qed.

Lemma sortVotes_keySorted l : StronglySorted keyLe (sortVotes l).
Proof.
  induction l as [|x l IH]; simpl; [constructor|].
  by apply insertVote_keySorted.
Qed.

(** Two sorted lists with the same elements are equal when the order
    tells the elements apart. *)
Lemma sorted_perm_eq {A} (R : A -> A -> Prop) (l1 : list A) :
  forall l2,
  (forall x y, x ∈ l1 -> y ∈ l1 -> R x y -> R y x -> x = y) ->
  StronglySorted R l1 -> StronglySorted R l2 -> l1 ≡ₚ l2 -> l1 = l2.
Proof.
  induction l1 as [|x l1 IH]; intros l2 Ha H1 H2 Hp.
  - by apply Permutation_nil_l in Hp.
  - destruct l2 as [|y l2]; [by apply Permutation_nil_r in Hp|].
    apply StronglySorted_inv in H1 as [H1 Hx].
    apply StronglySorted_inv in H2 as [H2 Hy].
    assert (x = y) as ->.
    { assert (Hxin : x ∈ y :: l2) by (rewrite <- Hp; left).
      assert (Hyin : y ∈ x :: l1) by (rewrite Hp; left).
      apply elem_of_cons in Hxin as [->|Hxin]; [done|].
      apply elem_of_cons in Hyin as [->|Hyin]; [done|].
      apply Ha; [left|by right| |].
      - rewrite Forall_forall in Hx. by apply Hx.
      - rewrite Forall_forall in Hy. by apply Hy. }
    f_equal. apply IH; [|done|done|by apply Permutation_cons_inv in Hp].
    intros a b Hain Hbin. apply Ha; by right.
Qed.

Lemma NoDup_key_inj l x y :
  NoDup (map voteKey l) -> x ∈ l -> y ∈ l -> voteKey x = voteKey y -> x = y.
Proof.
  induction l as [|z l IH]; simpl; intros Hn Hx Hy Hk.
  - by apply elem_of_nil in Hx.
  - apply NoDup_cons in Hn as [Hz Hn].
    apply elem_of_cons in Hx as [->|Hx]; apply elem_of_cons in Hy as [->|Hy].
    + done.
    + exfalso. apply Hz. rewrite Hk.
      apply list_elem_of_In, in_map. by apply list_elem_of_In.
    + exfalso. apply Hz. rewrite <- Hk.
      apply list_elem_of_In, in_map. by apply list_elem_of_In.
    + by apply IH.
Qed.

Lemma sortVotes_order_free l1 l2 :
  NoDup (map voteKey l1) -> l1 ≡ₚ l2 -> sortVotes l1 = sortVotes l2.
Proof.
  intros Hn Hp.
  apply (sorted_perm_eq keyLe); try apply sortVotes_keySorted.
  - intros x y Hx Hy Hxy Hyx.
    rewrite sortVotes_perm in Hx, Hy.
    eapply NoDup_key_inj; eauto. by apply keyLe_antisym.
  - by rewrite !sortVotes_perm.
Qed.

(** X1: [computeBestChain] never takes the [std::exit(1)] that
    [computeBestLoc_] holds for a vote to the left of the current cluster:
    it always returns, and it leaves both vote lists sorted by
    [(votePos, readPos)] and holding the votes they held. *)
Theorem computeBestChain_returns_sorted (h : TranscriptHitList) (readLen : Z) :
  exists h', computeBestChain h readLen = Some h' /\
    votes h' ≡ₚ votes h /\ rcVotes h' ≡ₚ rcVotes h /\
    StronglySorted keyLe (votes h') /\ StronglySorted keyLe (rcVotes h').
Proof.
  rewrite ChainerFacts.computeBestChain_spec. eexists; split; [reflexivity|].
  simpl. repeat split;
    auto using sortVotes_perm, sortVotes_keySorted.
Qed.

(** X2: the abort is real for [computeBestLoc_] itself: on a list whose
    second vote lies to the left of the first it exits, whatever follows
    and whatever best location it was given. *)
Theorem computeBestLoc__exits_on_unsorted (v1 v2 : KmerVote)
  (l : list KmerVote) (readLen : Z) (b : BestLoc) :
  votePos v2 < votePos v1 ->
  computeBestLoc_ (v1 :: v2 :: l) readLen b = None.
Proof.
  intros Hlt. unfold computeBestLoc_. cbn [voteLoop].
  assert (E1 : exists st, voteStep readLen (mkLoc ∅ (votePos v1) b false) v1
                          = Some st /\ currClust st = votePos v1).
  { unfold voteStep. cbn [currClust].
    rewrite (proj2 (Z.geb_le _ _)) by lia.
    rewrite Z.sub_diag. change (i32 0 >? 10) with false. cbv iota.
    destruct (_ >? _); eexists; split; reflexivity. }
  destruct E1 as (st & -> & Hc).
  unfold voteStep at 1. rewrite Hc.
  destruct (votePos v2 >=? votePos v1) eqn:E; [|reflexivity].
  apply Z.geb_le in E. lia.
Qed.

Lemma computeBestLoc__exits_on_unsorted_witness :
  computeBestLoc_ [mkVote 5 0 20; mkVote 3 0 20] 30 zeroBest = None.
Proof.
  apply (computeBestLoc__exits_on_unsorted (mkVote 5 0 20) (mkVote 3 0 20)
           [] 30 zeroBest).
  simpl. lia.
Defined.

Lemma voteStep_posInv L b0 rl st v st' :
  v ∈ L -> voteStep rl st v = Some st' -> posInv L b0 st -> posInv L b0 st'.
Proof.
  intros Hv Hs (Hc & Hn & Hb). unfold voteStep in Hs.
  destruct (votePos v >=? currClust st); [|discriminate].
  set (cc := if i32 (votePos v - currClust st) >? 10 then votePos v
             else currClust st) in *.
  assert (Hcc : exists w, w ∈ L /\ cc = votePos w).
  { subst cc. destruct (_ >? 10); [by exists v|exact Hc]. }
  set (cov := u32 _) in Hs.
  destruct (cov >? maxClusterCount (best st)) eqn:E.
  - injection Hs as <-. apply Z.gtb_lt in E.
    split; [exact Hcc|]. cbn [best maxClusterCount maxClusterPos].
    split; [lia|]. right. split; [lia|exact Hcc].
  - injection Hs as <-. by split.
Qed.

Lemma voteLoop_posInv L b0 rl l : forall st st',
  (forall v, v ∈ l -> v ∈ L) ->
  voteLoop rl st l = Some st' -> posInv L b0 st -> posInv L b0 st'.
Proof.
  induction l as [|v l IH]; simpl; intros st st' Hin Hl Hi.
  - by injection Hl as <-.
  - destruct (voteStep rl st v) as [st1|] eqn:E; [|discriminate].
    eapply IH; [|exact Hl|].
    + intros w Hw. apply Hin. by right.
    + eapply voteStep_posInv; [|exact E|exact Hi]. apply Hin. left.
Qed.

Lemma bestCluster_on_a_vote vs rl :
  bestCluster vs rl = zeroBest \/
  (0 < maxClusterCount (bestCluster vs rl) /\
   exists v, v ∈ vs /\ maxClusterPos (bestCluster vs rl) = votePos v).
Proof.
  destruct (ChainerFacts.bestCluster_spec vs rl) as [u Hu].
  unfold computeBestLoc_ in Hu.
  destruct (sortVotes vs) as [|v0 l] eqn:El.
  - injection Hu as _ <-. by left.
  - destruct (voteLoop _ _ _) as [st|] eqn:E; [|discriminate].
    injection Hu as _ Hb.
    assert (Hin : forall v, v ∈ v0 :: l -> v ∈ vs).
    { intros v Hv. rewrite <- El in Hv. by rewrite sortVotes_perm in Hv. }
    pose proof (voteLoop_posInv vs zeroBest rl (v0 :: l) _ _ Hin E) as Hp.
    destruct Hp as (_ & _ & Hp).
    + split; [|split; [cbn; lia|by left]].
      exists v0. split; [apply Hin; left|reflexivity].
    + rewrite Hb in Hp. exact Hp.
Qed.

(** X3: the position [computeBestChain] reports is never made up: either
    no cluster scored, and it reports position 0, count 0, score 0 and the
    forward strand, or [bestHitPos] is the [votePos] of one of the votes of
    the orientation it reports, with a positive count. *)
Theorem bestHitPos_is_a_vote (h : TranscriptHitList) (readLen : Z) :
  exists h', computeBestChain h readLen = Some h' /\
    ((bestHitPos h' = 0 /\ bestHitCount h' = 0 /\ bestHitScore h' = 0%Q /\
      isForward h' = true) \/
     (0 < bestHitCount h' /\
      exists v, v ∈ (if isForward h' then votes h else rcVotes h) /\
                bestHitPos h' = votePos v)).
Proof.
  rewrite ChainerFacts.computeBestChain_spec. eexists; split; [reflexivity|].
  cbn [bestHitPos bestHitCount bestHitScore isForward isForward_].
  destruct (maxClusterCount (bestCluster (votes h) readLen)
            <? maxClusterCount (bestCluster (rcVotes h) readLen)) eqn:E; cbn.
  - apply Z.ltb_lt in E.
    pose proof (ChainerFacts.bestCluster_count_nonneg (votes h) readLen).
    destruct (bestCluster_on_a_vote (rcVotes h) readLen) as [Hz|Hv].
    + rewrite Hz in E. cbn in E. lia.
    + by right.
  - destruct (bestCluster_on_a_vote (votes h) readLen) as [Hz|Hv].
    + left. rewrite Hz. by cbn.
    + by right.
Qed.

(** X4: the result of [computeBestChain] does not depend on the order in
    which the seeds were added, as long as no two votes of an orientation
    share their [(votePos, readPos)] (the order [std::sort] gives to ties
    is the only freedom). *)
Theorem computeBestChain_order_free (h1 h2 : TranscriptHitList) (readLen : Z) :
  NoDup (map voteKey (votes h1)) -> NoDup (map voteKey (rcVotes h1)) ->
  votes h1 ≡ₚ votes h2 -> rcVotes h1 ≡ₚ rcVotes h2 ->
  computeBestChain h1 readLen = computeBestChain h2 readLen.
Proof.
  intros Hn Hr Hp Hq. unfold computeBestChain.
  by rewrite (sortVotes_order_free _ _ Hn Hp), (sortVotes_order_free _ _ Hr Hq).
Qed.

Lemma computeBestChain_order_free_witness :
  computeBestChain (mkHits 0 0 0 [mkVote 5 10 20; mkVote 0 0 20] [] true) 30
  = computeBestChain (mkHits 7 7 1 [mkVote 0 0 20; mkVote 5 10 20] [] false) 30.
Proof.
  apply (computeBestChain_order_free
           (mkHits 0 0 0 [mkVote 5 10 20; mkVote 0 0 20] [] true)
           (mkHits 7 7 1 [mkVote 0 0 20; mkVote 5 10 20] [] false) 30).
  - simpl. apply NoDup_cons. split; [|apply NoDup_singleton].
    intros Hx. apply list_elem_of_singleton in Hx. discriminate.
  - constructor.
  - apply Permutation_swap.
  - reflexivity.
Defined.

(** X5: a read of positive length with a single forward seed:
    [addFragMatch] followed by [computeBestChain] places the read at
    [tpos - readPos], counts the whole seed and scores
    [voteLen / readLen], on the forward strand.  (With [readLen = 0] the
    quotient of the code is the [double] infinity, which the rational
    score cannot hold.) *)
Theorem lone_forward_seed (tpos rp vl readLen : Z) :
  0 < readLen ->
  0 <= tpos < 2 ^ 31 -> 0 <= rp < 2 ^ 31 -> 0 < vl -> tpos + vl < 2 ^ 32 ->
  computeBestChain (addFragMatch emptyHits tpos rp vl) readLen
  = Some (mkHits (tpos - rp) vl (inject_Z vl / inject_Z readLen)
                 [mkVote (tpos - rp) rp vl] [] true).
Proof.
  intros _ Ht Hr Hv Hs.
  unfold addFragMatch, emptyHits. cbn [votes rcVotes app bestHitPos
    bestHitCount bestHitScore isForward_].
  rewrite !u32_small by lia. rewrite i32_small by lia.
  unfold computeBestChain.
  cbn [votes rcVotes sortVotes insertVote computeBestLoc_ voteLoop].
  unfold voteStep. cbn [votePos readPos voteLen currClust hitMap best
                        maxClusterCount].
  rewrite (proj2 (Z.geb_le _ _)) by lia.
  rewrite Z.sub_diag. change (i32 0 >? 10) with false. cbv iota.
  unfold entryAt. rewrite lookup_empty. cbn [default coverage rightmostBase].
  unfold voteEnd. cbn [votePos readPos voteLen].
  replace (tpos - rp + rp + vl) with (tpos + vl) by lia.
  rewrite (u32_small (tpos + vl)) by lia.
  change (u32 0) with 0. rewrite Z.sub_0_r.
  rewrite (u32_small (tpos + vl)) by lia.
  rewrite Z.min_l by lia. rewrite Z.add_0_l, (u32_small vl) by lia.
  rewrite (proj2 (Z.gtb_lt _ _)) by lia.
  reflexivity.
Qed.

Lemma lone_forward_seed_witness :
  computeBestChain (addFragMatch emptyHits 40 5 30) 50
  = Some (mkHits (40 - 5) 30 (inject_Z 30 / inject_Z 50)
                 [mkVote (40 - 5) 5 30] [] true).
Proof. apply (lone_forward_seed 40 5 30 50); lia. Defined.

End ChainOrderFacts.

(** ** Facts on covered bases and match fragments *)

Module CoverageFacts.
Import Coverage.

Lemma insertHit_perm x l : insertHit x l ≡ₚ x :: l.
Proof.
  induction l as [|y l IH]; simpl; [reflexivity|].
  destruct (y <? x); [|reflexivity].
  rewrite IH. apply Permutation_swap.
Qed.

Lemma sortHits_perm l : sortHits l ≡ₚ l.
Proof.
  induction l as [|x l IH]; simpl; [reflexivity|].
  rewrite insertHit_perm. by rewrite IH.
Qed.

Lemma insertHit_sorted x l :
  StronglySorted Z.le l -> StronglySorted Z.le (insertHit x l).
Proof.
  induction 1 as [|y l Hs IH Hy]; simpl.
  - repeat constructor.
  - destruct (y <? x) eqn:E.
    + apply Z.ltb_lt in E. constructor; [exact IH|].
      rewrite insertHit_perm. constructor; [lia|exact Hy].
    + apply Z.ltb_ge in E. constructor; [by constructor|].
      constructor; [exact E|].
      eapply Forall_impl; [exact Hy|]. intros z Hz. simpl in Hz. lia.
Qed.

Lemma sortHits_sorted l : StronglySorted Z.le (sortHits l).
Proof.
  induction l as [|x l IH]; simpl; [constructor|].
  by apply insertHit_sorted.
Qed.

Lemma cover_bounds kl : 0 <= kl -> forall l last,
  StronglySorted Z.le l -> Forall (Z.le last) l ->
  0 <= cover kl last l /\
  cover kl last l <= kl * Z.of_nat (length l) /\
  cover kl last l <= maxHit l - last \/ l = [] /\ cover kl last l = 0.
Proof.
  intros Hk. induction l as [|h l IH]; intros last Hs Hl.
  - right. by split.
  - left. apply StronglySorted_inv in Hs as [Hs Hh].
    apply Forall_cons in Hl as [Hlh Hl].
    unfold maxHit in *. cbn [cover fold_right length].
    rewrite Nat2Z.inj_succ.
    destruct (IH h Hs Hh) as [(H0 & H1 & H2)|[-> ->]].
    + lia.
    + cbn. lia.
Qed.

(** Under the invariant [0 <= covered <= lastHit] nothing wraps in the
    loop, which then computes [cover]. *)
Lemma fold_cover l : forall covered last,
  StronglySorted Z.le l -> Forall (fun h => last <= h < 2 ^ 32) l ->
  0 <= covered <= last ->
  fst (fold_left (coverStep 20) l (covered, last)) = covered + cover 20 last l.
Proof.
  induction l as [|h l IH]; intros covered last Hs Hl Hc.
  - cbn. lia.
  - apply StronglySorted_inv in Hs as [Hs Hh].
    apply Forall_cons in Hl as [Hlh Hl].
    cbn [fold_left coverStep cover].
    rewrite (u32_small (h - last)) by lia.
    rewrite (u32_small (covered + _)) by lia.
    rewrite IH; [lia|exact Hs| |lia].
    rewrite Forall_forall in Hh, Hl. apply Forall_forall.
    intros z Hz. specialize (Hh z Hz). specialize (Hl z Hz). simpl in Hh. lia.
Qed.

Lemma maxHit_perm l1 l2 : l1 ≡ₚ l2 -> maxHit l1 = maxHit l2.
Proof.
  unfold maxHit. induction 1; cbn [fold_right] in *; lia.
Qed.

Lemma basesCovered_cover l :
  Forall (fun h => 0 <= h < 2 ^ 32) l ->
  snd (basesCovered l) = cover 20 0 (sortHits l).
Proof.
  intros Hl. unfold basesCovered. cbn [snd].
  rewrite fold_cover; [lia|apply sortHits_sorted| |lia].
  rewrite Forall_forall in Hl. apply Forall_forall. intros z Hz.
  apply Hl. by rewrite sortHits_perm in Hz.
Qed.

(** X6: [basesCovered] on hits that fit [uint32_t]: nothing wraps, the
    count is at most 20 per hit and at most the largest hit, and the
    caller's vector comes back sorted with the hits it held. *)
Theorem basesCovered_bounds (kmerHits : list Z) :
  Forall (fun h => 0 <= h < 2 ^ 32) kmerHits ->
  0 <= snd (basesCovered kmerHits) /\
  snd (basesCovered kmerHits) <= 20 * Z.of_nat (length kmerHits) /\
  snd (basesCovered kmerHits) <= maxHit kmerHits /\
  fst (basesCovered kmerHits) ≡ₚ kmerHits /\
  StronglySorted Z.le (fst (basesCovered kmerHits)).
Proof.
  intros Hl. rewrite basesCovered_cover by exact Hl.
  assert (Hf : Forall (Z.le 0) (sortHits kmerHits)).
  { rewrite Forall_forall in Hl. apply Forall_forall. intros z Hz.
    rewrite sortHits_perm in Hz. apply Hl in Hz. lia. }
  assert (Hlen : length (sortHits kmerHits) = length kmerHits)
    by apply Permutation_length, sortHits_perm.
  assert (Hmax : maxHit (sortHits kmerHits) = maxHit kmerHits)
    by apply maxHit_perm, sortHits_perm.
  assert (Hm0 : 0 <= maxHit kmerHits).
  { clear. unfold maxHit. induction kmerHits; cbn [fold_right]; lia. }
  destruct (cover_bounds 20 ltac:(lia) _ 0 (sortHits_sorted kmerHits) Hf)
    as [(H0 & H1 & H2)|[He Hc]].
  - rewrite Hlen in H1. rewrite Hmax in H2.
    repeat split; try lia. apply sortHits_perm. apply sortHits_sorted.
  - rewrite Hc. repeat split; try lia.
    apply sortHits_perm. apply sortHits_sorted.
Qed.

Lemma basesCovered_bounds_witness :
  0 <= snd (basesCovered [40; 3; 10]) /\
  snd (basesCovered [40; 3; 10]) <= 20 * Z.of_nat (length [40; 3; 10]) /\
  snd (basesCovered [40; 3; 10]) <= maxHit [40; 3; 10] /\
  fst (basesCovered [40; 3; 10]) ≡ₚ [40; 3; 10] /\
  StronglySorted Z.le (fst (basesCovered [40; 3; 10])).
Proof.
  apply (basesCovered_bounds [40; 3; 10]).
  repeat constructor; simpl; lia.
Defined.

Lemma cover_insert kl : 0 <= kl -> forall l last h,
  StronglySorted Z.le l -> Forall (Z.le last) l -> last <= h ->
  cover kl last l <= cover kl last (insertHit h l).
Proof.
  intros Hk. induction l as [|y l IH]; intros last h Hs Hl Hh.
  - cbn. lia.
  - apply StronglySorted_inv in Hs as [Hs Hy].
    apply Forall_cons in Hl as [Hly Hl].
    cbn [insertHit]. destruct (y <? h) eqn:E.
    + apply Z.ltb_lt in E. cbn [cover].
      specialize (IH y h Hs Hy ltac:(lia)). lia.
    + apply Z.ltb_ge in E. cbn [cover]. lia.
Qed.

Lemma sortHits_order_free l1 l2 : l1 ≡ₚ l2 -> sortHits l1 = sortHits l2.
Proof.
  intros Hp. apply (ChainOrderFacts.sorted_perm_eq Z.le);
    try apply sortHits_sorted.
  - intros x y _ _. apply Z.le_antisymm.
  - by rewrite !sortHits_perm.
Qed.

(** X7: [basesCovered] depends on the hits only, not on their order, and
    one more hit never lowers it. *)
Theorem basesCovered_hits_only (kmerHits kmerHits' : list Z) (h : Z) :
  Forall (fun h => 0 <= h < 2 ^ 32) kmerHits -> 0 <= h < 2 ^ 32 ->
  kmerHits ≡ₚ kmerHits' ->
  basesCovered kmerHits = basesCovered kmerHits' /\
  snd (basesCovered kmerHits) <= snd (basesCovered (h :: kmerHits)).
Proof.
  intros Hl Hh Hp. split.
  - unfold basesCovered. by rewrite (sortHits_order_free _ _ Hp).
  - rewrite !basesCovered_cover by (try constructor; assumption).
    cbn [sortHits]. apply cover_insert; [lia|apply sortHits_sorted| |lia].
    rewrite Forall_forall in Hl. apply Forall_forall. intros z Hz.
    rewrite sortHits_perm in Hz. apply Hl in Hz. lia.
Qed.

Lemma basesCovered_hits_only_witness :
  basesCovered [40; 3; 10] = basesCovered [3; 40; 10] /\
  snd (basesCovered [40; 3; 10]) <= snd (basesCovered (25 :: [40; 3; 10])).
Proof.
  apply (basesCovered_hits_only [40; 3; 10] [3; 40; 10] 25).
  - repeat constructor; simpl; lia.
  - lia.
  - apply Permutation_swap.
Defined.

(** X8: on fragments whose ends do not wrap in [uint32_t], [precedes] is a
    strict order: no fragment precedes itself, and if [a] precedes [b] and
    [b] precedes [c] then [a] precedes [c]. *)
Theorem precedes_strict_order (a b c : MatchFragment.t) :
  fits b ->
  precedes b b = false /\
  (precedes a b = true -> precedes b c = true -> precedes a c = true).
Proof.
  intros (H1 & H2 & H3 & H4 & H5). unfold precedes. split.
  - rewrite !u32_small by lia.
    apply andb_false_iff. left. apply Z.ltb_ge. lia.
  - rewrite (u32_small (MatchFragment.refStart b + _)) by lia.
    rewrite (u32_small (MatchFragment.queryStart b + _)) by lia.
    rewrite !andb_true_iff, !Z.ltb_lt. lia.
Qed.

Lemma precedes_strict_order_witness :
  precedes (MatchFragment.mk 20 15 10) (MatchFragment.mk 20 15 10) = false /\
  (precedes (MatchFragment.mk 0 0 10) (MatchFragment.mk 20 15 10) = true ->
   precedes (MatchFragment.mk 20 15 10) (MatchFragment.mk 40 30 10) = true ->
   precedes (MatchFragment.mk 0 0 10) (MatchFragment.mk 40 30 10) = true).
Proof.
  apply (precedes_strict_order (MatchFragment.mk 0 0 10)
           (MatchFragment.mk 20 15 10) (MatchFragment.mk 40 30 10)).
  unfold fits. simpl. lia.
Defined.

End CoverageFacts.

(** ** Facts on the sampled validation *)

Module SamplingFacts.
Import Sampling.

(** Remove the wrap-arounds that the ranges at hand make void. *)
Ltac small :=
  repeat match goal with
         | |- context [i32 ?x] => rewrite (i32_small x) by lia
         | |- context [u32 ?x] => rewrite (u32_small x) by lia
         end.

Ltac split_if :=
  match goal with
  | |- context [if ?a <? ?b then _ else _] =>
      destruct (Z.ltb_spec a b)
  | |- context [if ?a >=? ?b then _ else _] =>
      let E := fresh "E" in
      destruct (a >=? b) eqn:E;
      [apply Z.geb_le in E|rewrite Z.geb_leb in E; apply Z.leb_gt in E]
  | |- context [if ?a >? ?b then _ else _] =>
      let E := fresh "E" in
      destruct (a >? b) eqn:E;
      [apply Z.gtb_lt in E|rewrite Z.gtb_ltb in E; apply Z.ltb_ge in E]
  end.

(** The trimmed read lies inside the transcript and inside the read
    string. *)
Lemma trimRead_inside (isRC : bool) (RefLength votePos len pos vl : Z) :
  - 2 ^ 29 <= votePos < 2 ^ 29 -> 0 <= len < 2 ^ 29 ->
  0 <= RefLength < 2 ^ 29 ->
  (isRC = true -> 0 <= pos /\ 0 <= vl /\ pos + vl <= len) ->
  let t := trimRead isRC RefLength votePos len pos vl in
  0 <= readStart t /\ readStart t + readLen t < RefLength /\
  0 <= read t /\ read t + readLen t <= len.
Proof.
  intros Hv Hl Hr Hrc. unfold trimRead, trimStart.
  cbn [readStart readLen posInRead voteLen read].
  rewrite (i32_small len) by lia.
  destruct isRC.
  - destruct (Hrc eq_refl) as (Hp & Hvl & Hpv). clear Hrc.
    split_if.
    + small. unfold trimEnd. cbn [readStart readLen posInRead voteLen read].
      small. split_if.
      * small. unfold clipRC.
        cbn [readStart readLen posInRead voteLen read andb].
        split_if; [split_if|split_if];
          cbn [readStart readLen posInRead voteLen read]; small; lia.
      * unfold clipRC. cbn [readStart readLen posInRead voteLen read andb].
        split_if; cbn [readStart readLen posInRead voteLen read]; small; lia.
    + unfold trimEnd. cbn [readStart readLen posInRead voteLen read].
      small. split_if.
      * small. unfold clipRC.
        cbn [readStart readLen posInRead voteLen read andb].
        split_if; [split_if|split_if];
          cbn [readStart readLen posInRead voteLen read]; small; lia.
      * unfold clipRC. cbn [readStart readLen posInRead voteLen read andb].
        split_if; cbn [readStart readLen posInRead voteLen read]; small; lia.
  - unfold clipRC. cbn [andb]. split_if.
    + small. unfold trimEnd. cbn [readStart readLen posInRead voteLen read].
      small. split_if; cbn [readStart readLen posInRead voteLen read];
        small; lia.
    + unfold trimEnd. cbn [readStart readLen posInRead voteLen read].
      small. split_if; cbn [readStart readLen posInRead voteLen read];
        small; lia.
Qed.



Lemma choosePattern_elem readIndex rl offset :
  offset ∈ choosePattern readIndex rl ->
  - 2 ^ 30 <= readIndex < 2 ^ 30 ->
  (readIndex < 4 /\ 0 <= offset <= 4) \/
  (4 <= readIndex /\ rl <= readIndex + 4 /\ - 4 <= offset <= 0) \/
  (4 <= readIndex /\ readIndex + 4 < rl /\ - 4 <= offset <= 4).
Proof.
  intros Ho Hr. unfold choosePattern in Ho. revert Ho. small.
  split_if; [|split_if]; intros Ho;
    unfold rightPattern, leftPattern, centerPattern in Ho;
    repeat (apply elem_of_cons in Ho as [->|Ho]; [lia|]);
    by apply elem_of_nil in Ho.
Qed.

Lemma subvoteLocus_inside isRC t len RefLength readIndex offset :
  0 <= readStart t -> readStart t + readLen t < RefLength ->
  0 <= read t -> read t + readLen t <= len ->
  len < 2 ^ 29 -> RefLength < 2 ^ 29 -> 15 < readLen t ->
  0 <= readIndex < readLen t ->
  offset ∈ choosePattern readIndex (readLen t) ->
  0 <= fst (subvoteLocus isRC t readIndex offset) < len /\
  0 <= snd (subvoteLocus isRC t readIndex offset) < RefLength.
Proof.
  intros H1 H2 H3 H4 H5 H6 H7 H8 Ho.
  apply choosePattern_elem in Ho; [|lia].
  unfold subvoteLocus. cbn [fst snd]. destruct isRC; small; lia.
Qed.

Section Bounds.

Variable charBaseAt : Z -> bool -> Z.
Variable charCanon : Z -> Z.
Variable sampleCentre : Z -> Z -> Z -> Z -> Z.

Lemma charAt_inside (readIn : list Z) i :
  0 <= i < Z.of_nat (length readIn) -> is_Some (charAt readIn i).
Proof.
  intros Hi. unfold charAt. destruct (Z.ltb_spec i 0); [lia|].
  apply lookup_lt_is_Some. lia.
Qed.

Lemma sample_inside isRC t readIn RefLength numTries i :
  0 <= readStart t -> readStart t + readLen t < RefLength ->
  0 <= read t -> read t + readLen t <= Z.of_nat (length readIn) ->
  Z.of_nat (length readIn) < 2 ^ 29 -> RefLength < 2 ^ 29 ->
  15 < readLen t ->
  centresInside sampleCentre t numTries -> 0 <= i < numTries ->
  is_Some (sample charBaseAt charCanon sampleCentre isRC t readIn numTries i).
Proof.
  intros H1 H2 H3 H4 H5 H6 H7 Hc Hi. unfold sample.
  assert (Hidx : 0 <= sampleIndex sampleCentre t numTries i < readLen t).
  { unfold sampleIndex. specialize (Hc i Hi). small. lia. }
  assert (Hm : is_Some (mapM (subvote charBaseAt charCanon isRC t readIn
                                (sampleIndex sampleCentre t numTries i))
                             (choosePattern
                                (sampleIndex sampleCentre t numTries i)
                                (readLen t)))).
  { apply mapM_is_Some. apply Forall_forall. intros offset Ho.
    pose proof (subvoteLocus_inside isRC t _ RefLength _ offset
                  H1 H2 H3 H4 H5 H6 H7 Hidx Ho) as [Hr _].
    unfold subvote, compose.
    destruct (subvoteLocus isRC t _ offset) as [r x]. cbn [fst] in Hr.
    destruct (charAt_inside readIn r Hr) as [c ->]. by eexists. }
  destruct Hm as [hs ->]. by eexists.
Qed.

Lemma sampleLoop_inside isRC t readIn RefLength numTries :
  0 <= readStart t -> readStart t + readLen t < RefLength ->
  0 <= read t -> read t + readLen t <= Z.of_nat (length readIn) ->
  Z.of_nat (length readIn) < 2 ^ 29 -> RefLength < 2 ^ 29 ->
  15 < readLen t ->
  centresInside sampleCentre t numTries -> numTries < 2 ^ 32 ->
  forall n i numHits,
    0 <= i -> i + Z.of_nat n <= numTries -> 0 <= numHits <= i ->
    exists r,
      sampleLoop charBaseAt charCanon sampleCentre isRC t readIn numTries
                 n i numHits = Some r /\
      0 <= r <= i + Z.of_nat n.
Proof.
  intros H1 H2 H3 H4 H5 H6 H7 Hc Hn.
  induction n as [|n IH]; intros i numHits Hi Hin Hh.
  - exists numHits. split; [reflexivity|lia].
  - cbn [sampleLoop].
    destruct (sample_inside isRC t readIn RefLength numTries i
                H1 H2 H3 H4 H5 H6 H7 Hc ltac:(lia)) as [hit ->].
    destruct (IH (i + 1) (u32 (numHits + (if hit then 1 else 0))))
      as (r & Hr & Hb); [lia|lia| |].
    + rewrite u32_small by (destruct hit; lia). destruct hit; lia.
    + exists r. split; [exact Hr|lia].
Qed.

(** X10: [numSampledHits_] keeps inside its strings: when every sample
    centre falls inside the trimmed read (as the exact centre does), each
    sub-vote reads a character of the read and a base of the transcript
    that exist, and the count returned is at most [numTries]. *)
Theorem numSampledHits__in_bounds (RefLength : Z) (readIn : list Z)
  (votePos pos vl : Z) (isRC : bool) (numTries : Z) :
  let len := Z.of_nat (length readIn) in
  let t := trimRead isRC RefLength votePos len pos vl in
  - 2 ^ 29 <= votePos < 2 ^ 29 -> len < 2 ^ 29 -> 0 <= RefLength < 2 ^ 29 ->
  (isRC = true -> 0 <= pos /\ 0 <= vl /\ pos + vl <= len) ->
  0 <= numTries < 2 ^ 32 ->
  (15 < readLen t -> centresInside sampleCentre t numTries) ->
  (exists n, numSampledHits_ charBaseAt charCanon sampleCentre RefLength
               readIn votePos pos vl isRC numTries = Some n /\
             0 <= n <= numTries) /\
  (15 < readLen t ->
   forall i offset,
     0 <= i < numTries ->
     offset ∈ choosePattern (sampleIndex sampleCentre t numTries i)
                            (readLen t) ->
     0 <= fst (subvoteLocus isRC t (sampleIndex sampleCentre t numTries i)
                            offset) < len /\
     0 <= snd (subvoteLocus isRC t (sampleIndex sampleCentre t numTries i)
                            offset) < RefLength).
Proof.
  intros len t Hv Hl Hr Hrc Hn Hc.
  destruct (trimRead_inside isRC RefLength votePos len pos vl Hv
              ltac:(lia) Hr Hrc) as (H1 & H2 & H3 & H4).
  fold t in H1, H2, H3, H4. split.
  - unfold numSampledHits_. fold len. fold t.
    destruct (readLen t <=? 15) eqn:E.
    + exists 0. split; [reflexivity|lia].
    + apply Z.leb_gt in E.
      destruct (sampleLoop_inside isRC t readIn RefLength numTries
                  H1 H2 H3 H4 Hl ltac:(lia) E (Hc E) ltac:(lia)
                  (Z.to_nat numTries) 0 0) as (r & Hr' & Hb); try lia.
      exists r. split; [exact Hr'|lia].
  - intros E i offset Hi Ho.
    apply (subvoteLocus_inside isRC t len RefLength); try lia; [|exact Ho].
    unfold sampleIndex. specialize (Hc E i Hi). small. lia.
Qed.

End Bounds.

Lemma floorCentre_inside t numTries :
  1 < numTries -> 0 < readLen t -> centresInside floorCentre t numTries.
Proof.
  intros Hn Hl i Hi. unfold floorCentre.
  assert (0 <= i * (readLen t - 1) / (numTries - 1) <= readLen t - 1);
    [|lia].
  split; [apply Z.div_pos; nia|].
  apply Z.div_le_upper_bound; nia.
Qed.

Lemma numSampledHits__in_bounds_witness :
  let readIn := replicate 30 65 in
  let t := trimRead false 100 10 30 0 20 in
  (exists n, numSampledHits_ (fun _ _ => 65) (fun c => c) floorCentre 100
               readIn 10 0 20 false 15 = Some n /\ 0 <= n <= 15) /\
  (15 < readLen t ->
   forall i offset,
     0 <= i < 15 ->
     offset ∈ choosePattern (sampleIndex floorCentre t 15 i) (readLen t) ->
     0 <= fst (subvoteLocus false t (sampleIndex floorCentre t 15 i) offset)
     < 30 /\
     0 <= snd (subvoteLocus false t (sampleIndex floorCentre t 15 i) offset)
     < 100).
Proof.
  apply (numSampledHits__in_bounds (fun _ _ => 65) (fun c => c) floorCentre
           100 (replicate 30 65) 10 0 20 false 15).
  - lia.
  - simpl. lia.
  - lia.
  - discriminate.
  - lia.
  - intros _. apply floorCentre_inside; [lia|]. vm_compute. reflexivity.
Defined.

End SamplingFacts.

(** ** Facts on the names of mates *)

Module NamesFacts.
Import Stdlib.Strings.Ascii.
Import Names.
Local Open Scope char_scope.

Lemma memchr_app_found c p s :
  c ∉ p -> memchr c (p ++ c :: s) = Some (length p).
Proof.
  induction p as [|x p IH]; intros Hn; cbn.
  - by rewrite Ascii.eqb_refl.
  - apply not_elem_of_cons in Hn as [Hx Hn].
    destruct (Ascii.eqb_spec x c); [congruence|].
    by rewrite IH.
Qed.

Lemma memchr_none c s : c ∉ s -> memchr c s = None.
Proof.
  induction s as [|x s IH]; intros Hn; cbn; [reflexivity|].
  apply not_elem_of_cons in Hn as [Hx Hn].
  destruct (Ascii.eqb_spec x c); [congruence|].
  by rewrite IH.
Qed.

Lemma memchr_Some c s n :
  memchr c s = Some n ->
  exists p t, s = p ++ c :: t /\ (c ∉ p) /\ length p = n.
Proof.
  revert n. induction s as [|x s IH]; intros n; cbn; [discriminate|].
  destruct (Ascii.eqb_spec x c) as [->|Hx].
  - intros [= <-]. exists [], s. repeat split. apply not_elem_of_nil.
  - destruct (memchr c s) as [m|]; [|discriminate].
    intros [= <-]. destruct (IH m eq_refl) as (p & t & -> & Hp & <-).
    exists (x :: p), t. repeat split. apply not_elem_of_cons. by split.
Qed.

Lemma memchr_None_inv c s : memchr c s = None -> c ∉ s.
Proof.
  induction s as [|x s IH]; cbn; [intros; apply not_elem_of_nil|].
  destruct (Ascii.eqb_spec x c); [discriminate|].
  destruct (memchr c s); [discriminate|].
  intros _. apply not_elem_of_cons. split; [congruence|by apply IH].
Qed.

Lemma memcmp0_prefix p a b : memcmp0 (p ++ a) (p ++ b) (length p) = true.
Proof.
  induction p as [|x p IH]; simpl; [reflexivity|].
  by rewrite Ascii.eqb_refl.
Qed.

Lemma memcmp0_refl a n : (n <= length a)%nat -> memcmp0 a a n = true.
Proof.
  revert n. induction a as [|x a IH]; intros [|n] Hn; cbn in *;
    try reflexivity; [lia|].
  rewrite Ascii.eqb_refl. apply IH. lia.
Qed.

Lemma charAt_app p c s : charAt (p ++ c :: s) (length p) = c.
Proof. unfold charAt. by rewrite app_nth2, Nat.sub_diag by lia. Qed.

Lemma charAt_app_S p x c s : charAt (p ++ x :: c :: s) (length p + 1) = c.
Proof.
  unfold charAt. rewrite app_nth2 by lia.
  by replace (length p + 1 - length p)%nat with 1%nat by lia.
Qed.

(** X11: a header is not always consistent with itself: [consistentNames]
    rejects a pair of equal headers exactly when the first space of the
    header is its last character. *)
Theorem consistentNames_same (h : header) :
  consistentNames h h = false <->
  exists p, h = p ++ [" "] /\ " " ∉ p.
Proof.
  unfold consistentNames.
  destruct (memchr " " h) as [offset|] eqn:E.
  - apply memchr_Some in E as (p & t & -> & Hp & <-).
    rewrite length_app. cbn [length].
    destruct (length p + 1 <? length p + S (length t))%nat eqn:El.
    + apply Nat.ltb_lt in El.
      rewrite memcmp0_prefix, Ascii.eqb_refl. cbn. split; [discriminate|].
      intros (q & Hq & Hn). exfalso.
      destruct t as [|c t]; [cbn in El; lia|].
      assert (Hlen : length (p ++ " " :: c :: t) = length (q ++ [" "]))
        by (by rewrite Hq).
      assert (Hpq : p ++ [" "] = take (length p + 1) (q ++ [" "])).
      { rewrite <- Hq.
        replace (p ++ " " :: c :: t) with ((p ++ [" "]) ++ c :: t)
          by (by rewrite <- app_assoc).
        rewrite take_app_length'; [reflexivity|].
        rewrite length_app. cbn. lia. }
      rewrite !length_app in Hlen. cbn in Hlen.
      rewrite take_app_le in Hpq by lia.
      apply Hn. rewrite <- (take_drop (length p + 1) q), <- Hpq.
      apply elem_of_app. left. apply elem_of_app. right. left.
    + apply Nat.ltb_ge in El. split; [intros _|reflexivity].
      destruct t as [|c t]; [by exists p|cbn in El; lia].
  - apply memchr_None_inv in E. split.
    + destruct (1 <? length h)%nat eqn:El.
      * rewrite Nat.eqb_refl, memcmp0_refl, Ascii.eqb_refl by lia.
        rewrite orb_true_r. discriminate.
      * rewrite Nat.eqb_refl, Ascii.eqb_refl. discriminate.
    + intros (p & -> & _). exfalso. apply E.
      apply elem_of_app. right. left.
Qed.

(** X12: what [consistentNames] accepts and what it does not look at.
    With a space in the name of the first mate, only the prefix before the
    space and the one character after it are compared: the second mate
    need not have a space there, and the rest of both headers is free.
    Without a space, names that end in 1 and 2 are accepted in that order
    only. *)
Theorem consistentNames_mates (p s1 s2 : header) (x c1 c2 : Ascii.ascii) :
  " " ∉ p ->
  (c1 = c2 \/ (c1 = "1" /\ c2 = "2")) ->
  consistentNames (p ++ " " :: c1 :: s1) (p ++ x :: c2 :: s2) = true /\
  (p <> [] ->
   consistentNames (p ++ ["1"]) (p ++ ["2"]) = true /\
   consistentNames (p ++ ["2"]) (p ++ ["1"]) = false).
Proof.
  intros Hp Hc. split.
  - unfold consistentNames. rewrite memchr_app_found by exact Hp.
    rewrite !length_app. cbn [length].
    rewrite (proj2 (Nat.ltb_lt _ _)) by lia.
    rewrite memcmp0_prefix, !charAt_app_S. cbn [andb].
    destruct Hc as [->|[-> ->]]; [by rewrite Ascii.eqb_refl|reflexivity].
  - intros Hne.
    assert (Hlen : (1 <= length p)%nat) by (destruct p; [done|cbn; lia]).
    assert (Hm : forall c d : Ascii.ascii,
              c <> " " ->
              consistentNames (p ++ [c]) (p ++ [d])
              = (Ascii.eqb c "1" && Ascii.eqb d "2") || Ascii.eqb c d).
    { intros c d Hcs. unfold consistentNames.
      rewrite memchr_none.
      2:{ intros Hin. apply elem_of_app in Hin as [Hin|Hin]; [by apply Hp|].
          apply list_elem_of_singleton in Hin. congruence. }
      rewrite !length_app. cbn [length].
      rewrite (proj2 (Nat.ltb_lt _ _)) by lia.
      rewrite Nat.eqb_refl.
      replace (length p + 1 - 1)%nat with (length p) by lia.
      by rewrite memcmp0_prefix, !charAt_app. }
    rewrite !Hm by discriminate. by split.
Qed.

Lemma consistentNames_mates_witness :
  consistentNames
    (["r"; "7"] ++ " " :: "1" :: [":"; "N"])
    (["r"; "7"] ++ "_" :: "2" :: [":"; "Y"]) = true /\
  (["r"; "7"] <> [] ->
   consistentNames (["r"; "7"] ++ ["1"]) (["r"; "7"] ++ ["2"]) = true /\
   consistentNames (["r"; "7"] ++ ["2"]) (["r"; "7"] ++ ["1"]) = false).
Proof.
  apply (consistentNames_mates ["r"; "7"] [":"; "N"] [":"; "Y"] "_" "1" "2").
  - simpl. intros Hin.
    repeat (apply elem_of_cons in Hin as [Hin|Hin]; [discriminate|]).
    by apply elem_of_nil in Hin.
  - right. split; reflexivity.
Defined.

End NamesFacts.

(** ** More facts on [getHitsForFragment] *)

Module FragmentFacts.
Import Chainer Mapping.

Section Fragments.

Context {D : Type} `{LogDomain D}.
Variable hitTypeSE : Z -> bool -> LibraryFormat.
Variable hitTypePE : Z -> bool -> Z -> bool -> LibraryFormat.

(** The alignment the single-end overload emits for a chained hit list. *)
Local Abbreviation seAlignment tid hl' :=
  (mkAln (D := D) tid (hitTypeSE (bestHitPos hl') (isForward hl'))
         (bestHitScore hl') 0 LOG_0).

Lemma singleEndLoop_spec l rl c :
  exists alns, singleEndLoop hitTypeSE l rl c = Some alns /\
    (forall a, a ∈ alns <->
       exists tid hl hl', (tid, hl) ∈ l /\
         computeBestChain hl rl = Some hl' /\
         (c <= bestHitScore hl')%Q /\ a = seAlignment tid hl') /\
    (forall t, t ∈ map transcriptID alns -> t ∈ map fst l) /\
    (NoDup (map fst l) -> NoDup (map transcriptID alns)).
Proof.
  induction l as [|[tid hl] l (alns & E & Hiff & Hsub & Hnd)].
  - exists []. split; [reflexivity|]. split; [|split].
    + intros a. split; [intros Ha; by apply elem_of_nil in Ha|].
      intros (? & ? & ? & Hin & _). by apply elem_of_nil in Hin.
    + intros t Ht. exact Ht.
    + intros _. constructor.
  - destruct (ChainerFacts.computeBestChain_total hl rl) as [hl' Ec].
    cbn [singleEndLoop]. rewrite Ec, E. cbn.
    destruct (Qle_bool c (bestHitScore hl')) eqn:Eq.
    + eexists. split; [reflexivity|]. split; [|split].
      * intros a. rewrite elem_of_cons, Hiff. split.
        -- intros [->|(t & h & h' & Hin & Hc & Hs & ->)].
           ++ exists tid, hl, hl'. repeat split; [left|exact Ec|].
              by apply Qle_bool_iff.
           ++ exists t, h, h'. repeat split; auto. by right.
        -- intros (t & h & h' & Hin & Hc & Hs & ->).
           apply elem_of_cons in Hin as [[= -> ->]|Hin].
           ++ left. rewrite Ec in Hc. by injection Hc as <-.
           ++ right. exists t, h, h'. auto.
      * cbn. intros t Ht. apply elem_of_cons in Ht as [->|Ht]; [left|].
        right. by apply Hsub.
      * cbn. intros Hn. apply NoDup_cons in Hn as [Hn1 Hn2].
        apply NoDup_cons. split; [|by apply Hnd].
        intros Ht. apply Hn1. by apply Hsub.
    + exists alns. split; [reflexivity|]. split; [|split].
      * intros a. rewrite Hiff. split.
        -- intros (t & h & h' & Hin & Hc & Hs & ->).
           exists t, h, h'. repeat split; auto. by right.
        -- intros (t & h & h' & Hin & Hc & Hs & ->).
           apply elem_of_cons in Hin as [[= -> ->]|Hin].
           ++ rewrite Ec in Hc. injection Hc as <-.
              apply Qle_bool_iff in Hs. congruence.
           ++ exists t, h, h'. auto.
      * cbn. intros t Ht. right. by apply Hsub.
      * cbn. intros Hn. apply NoDup_cons in Hn as [_ Hn2]. by apply Hnd.
Qed.

(** X13: for a single read, [getHitsForFragment] never aborts and emits
    exactly one alignment for each transcript whose best chain reaches
    [coverageThresh], and nothing else; the alignment carries the
    [bestHitScore], the format of the best position and strand, fragment
    length 0 and [logProb = LOG_0]. *)
Theorem single_end_alignments (hits : gmap Z TranscriptHitList)
  (readLen : Z) (coverageThresh : Q) :
  exists alns,
    getHitsForFragmentSE hitTypeSE hits readLen coverageThresh = Some alns /\
    NoDup (map transcriptID alns) /\
    forall a, a ∈ alns <->
      exists tid hl hl', hits !! tid = Some hl /\
        computeBestChain hl readLen = Some hl' /\
        (coverageThresh <= bestHitScore hl')%Q /\
        a = mkAln tid (hitTypeSE (bestHitPos hl') (isForward hl'))
                  (bestHitScore hl') 0 LOG_0.
Proof.
  unfold getHitsForFragmentSE.
  destruct (singleEndLoop_spec (map_to_list hits) readLen coverageThresh)
    as (alns & E & Hiff & _ & Hnd).
  exists alns. split; [exact E|]. split.
  - apply Hnd. apply NoDup_fst_map_to_list.
  - intros a. rewrite Hiff. split;
      intros (t & h & h' & Hin & Hrest); exists t, h, h';
      (split; [|exact Hrest]); by apply elem_of_map_to_list.
Qed.

Lemma chainAll_spec l rl :
  exists l', chainAll l rl = Some l' /\ map fst l' = map fst l /\
    forall tid h h', (tid, h) ∈ l -> computeBestChain h rl = Some h' ->
                     (tid, h') ∈ l'.
Proof.
  induction l as [|[tid hl] l (l' & E & Hf & Hin)].
  - exists []. repeat split. intros ? ? ? Hi. by apply elem_of_nil in Hi.
  - destruct (ChainerFacts.computeBestChain_total hl rl) as [hl' Ec].
    cbn [chainAll]. rewrite Ec, E. cbn. eexists. split; [reflexivity|].
    split; [cbn; by rewrite Hf|].
    intros t h h' Hi Hc. apply elem_of_cons in Hi as [[= -> ->]|Hi].
    + rewrite Ec in Hc. injection Hc as <-. left.
    + right. eapply Hin; eauto.
Qed.

Lemma pairedStep_spec lm tid rh l1 l2 cl cr :
  exists new,
    pairedStep (D := D) hitTypePE lm tid rh l1 l2 cl cr = Some new /\
    (forall a, a ∈ new -> transcriptID a = tid) /\
    (length new <= 1)%nat /\
    (forall l r, lm !! tid = Some l -> computeBestChain rh l2 = Some r ->
                 (cl <= bestHitScore l)%Q -> (cr <= bestHitScore r)%Q ->
                 pairAlignment hitTypePE tid l r l1 l2 ∈ new).
Proof.
  unfold pairedStep.
  destruct (ChainerFacts.computeBestChain_total rh l2) as [r Er].
  destruct (lm !! tid) as [l|] eqn:El.
  - destruct (Qle_bool cl (bestHitScore l)) eqn:Eq.
    + rewrite Er. cbn. unfold Qlt_bool.
      destruct (Qle_bool cr (bestHitScore r)) eqn:Eqr; cbn.
      * eexists. split; [reflexivity|]. split; [|split].
        -- intros a Ha. apply list_elem_of_singleton in Ha. by subst.
        -- cbn. lia.
        -- intros l0 r0 [= <-] [= <-] _ _. left.
      * exists []. split; [reflexivity|]. split; [|split].
        -- intros a Ha. by apply elem_of_nil in Ha.
        -- cbn. lia.
        -- intros l0 r0 _ [= <-] _ Hr. apply Qle_bool_iff in Hr. congruence.
    + exists []. split; [reflexivity|]. split; [|split].
      * intros a Ha. by apply elem_of_nil in Ha.
      * cbn. lia.
      * intros l0 r0 [= <-] _ Hl _. apply Qle_bool_iff in Hl. congruence.
  - exists []. split; [reflexivity|]. split; [|split].
    + intros a Ha. by apply elem_of_nil in Ha.
    + cbn. lia.
    + intros l0 r0 [=].
Qed.

Lemma pairedLoop_spec lm l1 l2 cl cr rs :
  exists alns,
    pairedLoop (D := D) hitTypePE lm rs l1 l2 cl cr = Some alns /\
    (forall t, t ∈ map transcriptID alns -> t ∈ map fst rs) /\
    (NoDup (map fst rs) -> NoDup (map transcriptID alns)) /\
    (forall tid rh l r, (tid, rh) ∈ rs ->
       lm !! tid = Some l -> computeBestChain rh l2 = Some r ->
       (cl <= bestHitScore l)%Q -> (cr <= bestHitScore r)%Q ->
       pairAlignment hitTypePE tid l r l1 l2 ∈ alns).
Proof.
  induction rs as [|[tid rh] rs (alns & E & Hsub & Hnd & Hin)].
  - exists []. split; [reflexivity|]. split; [|split].
    + intros t Ht. exact Ht.
    + intros _. constructor.
    + intros ? ? ? ? Hi. by apply elem_of_nil in Hi.
  - destruct (pairedStep_spec lm tid rh l1 l2 cl cr)
      as (new & En & Hid & Hlen & Hnew).
    cbn [pairedLoop]. rewrite En, E. cbn. eexists. split; [reflexivity|].
    assert (Hnew_sub : forall t, t ∈ map transcriptID new -> t = tid).
    { intros t Ht. apply list_elem_of_In, in_map_iff in Ht as (a & <- & Ha).
      apply Hid. by apply list_elem_of_In. }
    split; [|split].
    + intros t. rewrite map_app, elem_of_app. cbn. intros [Ht|Ht].
      * apply Hnew_sub in Ht as ->. left.
      * right. by apply Hsub.
    + cbn. intros Hn. apply NoDup_cons in Hn as [Hn1 Hn2].
      rewrite map_app. apply NoDup_app. split; [|split].
      * destruct new as [|a [|b new]]; cbn in *;
          [constructor|apply NoDup_singleton|lia].
      * intros t Ht Ht'. apply Hnew_sub in Ht as ->.
        apply Hn1. by apply Hsub.
      * by apply Hnd.
    + intros t rh0 l r Hi Hl Hc Hcl Hcr. apply elem_of_app.
      apply elem_of_cons in Hi as [[= -> ->]|Hi].
      * left. by apply Hnew.
      * right. eapply Hin; eauto.
Qed.

(** X14: for a pair, [getHitsForFragment] never aborts, emits at most one
    alignment per transcript, and misses none: every transcript that both
    ends hit with a best chain reaching [coverageThresh] gets its
    alignment. *)
Theorem paired_alignments_complete
  (leftHits rightHits : gmap Z TranscriptHitList)
  (leftReadLength rightReadLength : Z) (coverageThresh : Q) :
  exists alns,
    getHitsForFragmentPE hitTypePE leftHits rightHits
      leftReadLength rightReadLength coverageThresh = Some alns /\
    NoDup (map transcriptID alns) /\
    forall tid lh rh lh' rh',
      leftHits !! tid = Some lh -> rightHits !! tid = Some rh ->
      computeBestChain lh leftReadLength = Some lh' ->
      computeBestChain rh rightReadLength = Some rh' ->
      (coverageThresh <= bestHitScore lh')%Q ->
      (coverageThresh <= bestHitScore rh')%Q ->
      pairAlignment (D := D) hitTypePE tid lh' rh'
                    leftReadLength rightReadLength ∈ alns.
Proof.
  unfold getHitsForFragmentPE.
  destruct (chainAll_spec (map_to_list leftHits) leftReadLength)
    as (chained & Ec & Hfst & Hch).
  rewrite Ec. cbn.
  destruct (pairedLoop_spec (list_to_map chained) leftReadLength
              rightReadLength coverageThresh coverageThresh
              (map_to_list rightHits)) as (alns & E & _ & Hnd & Hin).
  exists alns. split; [exact E|]. split.
  - apply Hnd. apply NoDup_fst_map_to_list.
  - intros tid lh rh lh' rh' Hl Hr Hcl Hcr Hsl Hsr.
    apply (Hin tid rh lh' rh'); auto.
    + by apply elem_of_map_to_list.
    + apply elem_of_list_to_map_1.
      * change (NoDup (map fst chained)). rewrite Hfst.
        apply NoDup_fst_map_to_list.
      * apply (Hch tid lh lh'); [by apply elem_of_map_to_list|exact Hcl].
Qed.

End Fragments.

End FragmentFacts.

(** ** More facts on [collectHitsForRead] *)

Module CollectFacts.
Import Chainer Seeds.

Ltac red_occ := cbn -[Z.add Z.sub Z.mul Z.pow bns_pos2rid annAt].

Section Inside.

Variable bns : bntseq_t.
Variable bwt_sa : Z -> Z.
Variable memOptions : mem_opt_t.
Variable salmonOpts : SeedOpts.

Lemma depos_forward pos :
  pos < l_pac bns -> bns_depos bns pos = (pos, false).
Proof.
  intros Hp. unfold bns_depos.
  destruct (pos >=? l_pac bns) eqn:E; [|reflexivity].
  apply Z.geb_le in E. lia.
Qed.

Lemma depos_reverse pos :
  l_pac bns <= pos -> bns_depos bns pos = (2 * l_pac bns - 1 - pos, true).
Proof.
  intros Hp. unfold bns_depos.
  destruct (pos >=? l_pac bns) eqn:E; [reflexivity|].
  rewrite Z.geb_leb in E. apply Z.leb_gt in E. lia.
Qed.

(** X15: a seed occurrence that lies inside one transcript on the forward
    strand gives that transcript exactly one forward vote, at
    [votePos = hitLoc - queryStart] with [hitLoc] the offset of the
    occurrence in the transcript, and touches no other hit list. *)
Theorem forward_seed_votes (readLen : Z) (p : Seed) (slen k i : Z)
  (hits : gmap Z TranscriptHitList) :
  let lo := bwt_sa (x0 p + k) in
  let hitLoc := lo - offset (annAt bns i) in
  let h0 := default emptyHits (hits !! i) in
  0 < slen < 2 ^ 31 -> lo + slen - 1 < l_pac bns ->
  0 <= i -> bns_pos2rid bns lo = i -> bns_pos2rid bns (lo + slen - 1) = i ->
  0 <= hitLoc < 2 ^ 31 -> 0 <= qstart p < 2 ^ 31 ->
  exists h',
    occurrences bns bwt_sa memOptions salmonOpts readLen p slen [k] hits
    = <[i := h']> hits /\
    votes h' = votes h0 ++ [mkVote (hitLoc - qstart p) (qstart p) slen] /\
    rcVotes h' = rcVotes h0.
Proof.
  intros lo hitLoc h0 Hs Hhi Hi Hrlo Hrhi Hloc Hq.
  cbn [occurrences]. unfold occurrence. fold lo.
  rewrite !depos_forward by lia. red_occ.
  rewrite Hrlo, Hrhi.
  destruct (i <? 0) eqn:E3; [lia|].
  rewrite Z.eqb_refl. red_occ.
  unfold applyCall. cbn [callRefID callIsRev callHitLoc callQueryStart
                         callLen callRlen].
  eexists. split; [reflexivity|].
  unfold addFragMatch. cbn [votes rcVotes]. fold h0. fold hitLoc.
  rewrite !u32_small by lia. rewrite i32_small by lia. by split.
Qed.

(** X16: a seed occurrence that lies inside one transcript on the reverse
    strand gives that transcript exactly one reverse-complement vote, at
    [votePos = hitLoc - (readLen - queryStart)] with [hitLoc] the offset in
    the transcript of the last base the occurrence covers. *)
Theorem reverse_seed_votes (readLen : Z) (p : Seed) (slen k i : Z)
  (hits : gmap Z TranscriptHitList) :
  let refStart := bwt_sa (x0 p + k) in
  let hi := 2 * l_pac bns - 1 - refStart in
  let lo := hi - slen + 1 in
  let hitLoc := hi - offset (annAt bns i) in
  let h0 := default emptyHits (hits !! i) in
  0 < slen < 2 ^ 31 -> l_pac bns <= refStart ->
  0 <= i -> bns_pos2rid bns lo = i -> bns_pos2rid bns hi = i ->
  0 <= hitLoc < 2 ^ 31 -> 0 <= qstart p <= readLen -> readLen < 2 ^ 31 ->
  exists h',
    occurrences bns bwt_sa memOptions salmonOpts readLen p slen [k] hits
    = <[i := h']> hits /\
    rcVotes h'
    = rcVotes h0
      ++ [mkVote (hitLoc - (readLen - qstart p)) (qstart p) slen] /\
    votes h' = votes h0.
Proof.
  intros refStart hi lo hitLoc h0 Hs Hrev Hi Hrlo Hrhi Hloc Hq Hr.
  cbn [occurrences]. unfold occurrence. fold refStart.
  rewrite !depos_reverse by lia. red_occ.
  replace (2 * l_pac bns - 1 - (refStart + slen - 1)) with lo
    by (unfold lo, hi; lia).
  fold hi. rewrite Hrlo, Hrhi.
  destruct (i <? 0) eqn:E3; [lia|].
  rewrite Z.eqb_refl. red_occ.
  unfold applyCall. cbn [callRefID callIsRev callHitLoc callQueryStart
                         callLen callRlen].
  eexists. split; [reflexivity|].
  unfold addFragMatchRC. cbn [votes rcVotes]. fold h0. fold hitLoc.
  rewrite !(u32_small (qstart p)), !(u32_small readLen),
    (u32_small hitLoc), (u32_small slen) by lia.
  rewrite (u32_small (readLen - qstart p)) by lia.
  rewrite i32_small by lia. by split.
Qed.

(** X17: a seed occurrence that starts on the forward strand and ends on
    the reverse strand is discarded: no hit list changes. *)
Theorem strand_crossing_seed_dropped (readLen : Z) (p : Seed) (slen k : Z)
  (hits : gmap Z TranscriptHitList) :
  let refStart := bwt_sa (x0 p + k) in
  refStart < l_pac bns <= refStart + slen - 1 ->
  occurrences bns bwt_sa memOptions salmonOpts readLen p slen [k] hits = hits.
Proof.
  intros refStart Hc. cbn [occurrences]. unfold occurrence. fold refStart.
  rewrite depos_forward, depos_reverse by lia. reflexivity.
Qed.

Lemma sampledOccs_empty_interval max_occ : sampledOccs 0 max_occ = Some [].
Proof.
  unfold sampledOccs, occStep.
  assert (0 <= u64 max_occ) by (unfold u64; apply Z.mod_pos_bound; lia).
  destruct (0 >? u64 max_occ) eqn:E; [apply Z.gtb_lt in E; lia|].
  cbn. destruct (Z.to_nat max_occ); reflexivity.
Qed.

(** X18: seeds whose suffix-array interval is empty ([x[2] == 0]) are
    dropped: a read that has only such seeds collects no hit, whatever
    [max_occ] is. *)
Theorem empty_interval_seeds_dropped (mem : list Seed) (readLen : Z)
  (hits : gmap Z TranscriptHitList) :
  Forall (fun p => x2 p = 0) mem ->
  collectHitsForRead bns bwt_sa memOptions salmonOpts mem readLen hits
  = Some hits.
Proof.
  induction 1 as [|p mem Hp _ IH]; cbn [collectHitsForRead];
    [reflexivity|].
  by rewrite Hp, sampledOccs_empty_interval.
Qed.

(** X19: with [max_occ == 0] the collector does not come back with "no
    hits": the first seed that has an occurrence makes it divide by zero;
    it returns, with the hits untouched, only when no seed has one. *)
Theorem zero_max_occ_traps (mem : list Seed) (readLen : Z)
  (hits : gmap Z TranscriptHitList) :
  max_occ memOptions = 0 ->
  collectHitsForRead bns bwt_sa memOptions salmonOpts mem readLen hits
  = if forallb (fun p => x2 p <=? 0) mem then Some hits else None.
Proof.
  intros H0. induction mem as [|p mem IH]; cbn [collectHitsForRead forallb];
    [reflexivity|].
  rewrite H0. unfold sampledOccs, occStep. change (u64 0) with 0.
  destruct (x2 p <=? 0) eqn:E.
  - apply Z.leb_le in E.
    destruct (x2 p >? 0) eqn:E'; [apply Z.gtb_lt in E'; lia|].
    cbn. exact IH.
  - apply Z.leb_gt in E.
    destruct (x2 p >? 0) eqn:E';
      [reflexivity|rewrite Z.gtb_ltb in E'; apply Z.ltb_ge in E'; lia].
Qed.

(** X20: the seed length is shared by the occurrences of a seed.  When
    a forward occurrence that straddles two transcripts is cut down to its
    part in the first one, the shortened length stays in [slen]: every
    later occurrence of the same seed is located and voted with that
    length, not with the length of the seed. *)
Theorem split_shortens_later_occurrences (readLen : Z) (p : Seed)
  (slen k : Z) (ks : list Z) (i : Z) (hits : gmap Z TranscriptHitList) :
  let lo := bwt_sa (x0 p + k) in
  let L := leftPart bns i lo in
  let R := rightPart bns i (lo + slen - 1) in
  splitSpanningSeeds salmonOpts = true -> 0 < slen < 2 ^ 31 ->
  straddles bns i lo (lo + slen - 1) ->
  R <= L -> min_seed_len memOptions <= L ->
  L < slen /\
  occurrences bns bwt_sa memOptions salmonOpts readLen p slen (k :: ks) hits
  = occurrences bns bwt_sa memOptions salmonOpts readLen p L ks
      (applyCall hits
         (mkCall i false (lo - offset (annAt bns i)) (qstart p) L readLen)).
Proof.
  intros lo L R Hon Hlen Hst HRL Hmin.
  destruct (SeedsFacts.straddles_forward _ _ _ _ Hst) as [Hlo Hhi].
  destruct Hst as (Hi & Hrlo & Hrhi & Ho & Hb & Hc).
  assert (HL : len (annAt bns i) - (lo - offset (annAt bns i)) = L)
    by (unfold L, leftPart; lia).
  assert (HR : slen - L = R) by (unfold L, R, leftPart, rightPart; lia).
  assert (HLb : 0 < L < 2 ^ 31) by (unfold L, R, leftPart, rightPart in *; lia).
  assert (HRb : 0 < R) by (unfold L, R, leftPart, rightPart in *; lia).
  split; [lia|].
  cbn [occurrences]. unfold occurrence. fold lo.
  rewrite !depos_forward by lia. red_occ.
  rewrite Hrlo, Hrhi.
  destruct (i <? 0) eqn:E3; [lia|].
  destruct (i =? i + 1) eqn:E4; [lia|]. red_occ. rewrite Hon. red_occ.
  unfold splitForward. rewrite HL, HR.
  rewrite (i32_small L) by lia.
  destruct (Z.max L R <? min_seed_len memOptions) eqn:E5;
    [apply Z.ltb_lt in E5; lia|].
  destruct (L >=? R) eqn:E6;
    [reflexivity|rewrite Z.geb_leb in E6; apply Z.leb_gt in E6; lia].
Qed.

End Inside.

Lemma forward_seed_votes_witness :
  exists h',
    occurrences twoTranscripts (fun i => i) (mkMemOpt 19 200)
                (mkSeedOpts true) 50 (mkSeed 110 1 5 30) 25 [0] ∅
    = <[1 := h']> ∅ /\
    votes h'
    = votes (default emptyHits ((∅ : gmap Z TranscriptHitList) !! 1))
      ++ [mkVote (110 + 0 - offset (annAt twoTranscripts 1) - 5) 5 25] /\
    rcVotes h'
    = rcVotes (default emptyHits ((∅ : gmap Z TranscriptHitList) !! 1)).
Proof.
  apply (forward_seed_votes twoTranscripts (fun i => i) (mkMemOpt 19 200)
           (mkSeedOpts true) 50 (mkSeed 110 1 5 30) 25 0 1 ∅);
    try reflexivity; simpl; lia.
Defined.

Lemma reverse_seed_votes_witness :
  exists h',
    occurrences twoTranscripts (fun i => i) (mkMemOpt 19 200)
                (mkSeedOpts true) 50 (mkSeed 250 1 5 30) 25 [0] ∅
    = <[1 := h']> ∅ /\
    rcVotes h'
    = rcVotes (default emptyHits ((∅ : gmap Z TranscriptHitList) !! 1))
      ++ [mkVote (2 * l_pac twoTranscripts - 1 - (250 + 0)
                  - offset (annAt twoTranscripts 1) - (50 - 5)) 5 25] /\
    votes h'
    = votes (default emptyHits ((∅ : gmap Z TranscriptHitList) !! 1)).
Proof.
  apply (reverse_seed_votes twoTranscripts (fun i => i) (mkMemOpt 19 200)
           (mkSeedOpts true) 50 (mkSeed 250 1 5 30) 25 0 1 ∅);
    try reflexivity; simpl; lia.
Defined.

Lemma strand_crossing_seed_dropped_witness :
  occurrences twoTranscripts (fun i => i) (mkMemOpt 19 200)
              (mkSeedOpts true) 50 (mkSeed 190 1 5 30) 25 [0] ∅ = ∅.
Proof.
  apply (strand_crossing_seed_dropped twoTranscripts (fun i => i)
           (mkMemOpt 19 200) (mkSeedOpts true) 50 (mkSeed 190 1 5 30) 25 0 ∅).
  simpl. lia.
Defined.

Lemma empty_interval_seeds_dropped_witness :
  collectHitsForRead twoTranscripts (fun i => i) (mkMemOpt 19 200)
                     (mkSeedOpts true) [mkSeed 110 0 5 30; mkSeed 7 0 0 25]
                     50 ∅
  = Some ∅.
Proof.
  apply (empty_interval_seeds_dropped twoTranscripts (fun i => i)
           (mkMemOpt 19 200) (mkSeedOpts true)
           [mkSeed 110 0 5 30; mkSeed 7 0 0 25] 50 ∅).
  repeat constructor.
Defined.

Lemma zero_max_occ_traps_witness :
  collectHitsForRead twoTranscripts (fun i => i) (mkMemOpt 19 0)
                     (mkSeedOpts true) [mkSeed 7 0 0 25; mkSeed 110 1 5 30]
                     50 ∅
  = if forallb (fun p => x2 p <=? 0) [mkSeed 7 0 0 25; mkSeed 110 1 5 30]
    then Some ∅ else None.
Proof.
  apply (zero_max_occ_traps twoTranscripts (fun i => i) (mkMemOpt 19 0)
           (mkSeedOpts true) [mkSeed 7 0 0 25; mkSeed 110 1 5 30] 50 ∅).
  reflexivity.
Defined.

Lemma split_shortens_later_occurrences_witness :
  leftPart twoTranscripts 0 75 < 40 /\
  occurrences twoTranscripts (fun i => i) (mkMemOpt 19 200) (mkSeedOpts true)
              50 (mkSeed 75 2 0 40) 40 (0 :: [1]) ∅
  = occurrences twoTranscripts (fun i => i) (mkMemOpt 19 200)
                (mkSeedOpts true) 50 (mkSeed 75 2 0 40)
                (leftPart twoTranscripts 0 75) [1]
      (applyCall ∅
         (mkCall 0 false (75 + 0 - offset (annAt twoTranscripts 0)) 0
                 (leftPart twoTranscripts 0 75) 50)).
Proof.
  apply (split_shortens_later_occurrences twoTranscripts (fun i => i)
           (mkMemOpt 19 200) (mkSeedOpts true) 50 (mkSeed 75 2 0 40) 40 0
           [1] 0 ∅).
  - reflexivity.
  - lia.
  - unfold straddles. simpl. repeat split; lia.
  - unfold leftPart, rightPart. simpl. lia.
  - unfold leftPart. simpl. lia.
Defined.

End CollectFacts.

(** ** Facts on the accounting of a mini-batch *)

Module AccountingFacts.
Import EM Accounting.

Section MiniBatch.

Context {D : Type} `{LogDomain D}.

Variable pmf : list (Z * D) -> Z -> D.
Variable uni : nat -> Q.
Variable salmonOpts : EMOpts.
Variable expectedLibraryFormat : LibraryFormat.
Variable logForgettingMass : D.
Variable initialRound : bool.

Local Abbreviation eStepAln :=
  (eStepAln pmf salmonOpts expectedLibraryFormat initialRound).
Local Abbreviation eStepGroup :=
  (eStepGroup pmf salmonOpts expectedLibraryFormat initialRound).
Local Abbreviation processGroup :=
  (processGroup pmf uni salmonOpts expectedLibraryFormat logForgettingMass
                initialRound).
Local Abbreviation eStep :=
  (eStep pmf uni salmonOpts expectedLibraryFormat logForgettingMass
         initialRound).
Local Abbreviation processMiniBatch :=
  (processMiniBatch pmf uni salmonOpts expectedLibraryFormat
                    logForgettingMass initialRound).

(** *** The incoming [logProb] is never read *)

Lemma eStepAln_stale fld first lp a x :
  eStepAln fld first lp (withLogProb x a) = eStepAln fld first lp a.
Proof. reflexivity. Qed.

Lemma fold_eStepAln_stale fld first x g : forall lp,
  fold_left (eStepAln fld first) (map (withLogProb x) g) lp
  = fold_left (eStepAln fld first) g lp.
Proof.
  induction g as [|a g IH]; intros lp; cbn [map fold_left]; [reflexivity|].
  by rewrite eStepAln_stale, IH.
Qed.

Lemma eStepGroup_stale st x g :
  eStepGroup st (map (withLogProb x) g) = eStepGroup st g.
Proof.
  unfold EM.eStepGroup. rewrite fold_eStepAln_stale. by destruct g.
Qed.

Lemma processGroup_stale st x g :
  processGroup st (map (withLogProb x) g) = processGroup st g.
Proof.
  destruct g as [|a g]; [reflexivity|].
  unfold EM.processGroup. cbn [map].
  change (withLogProb x a :: map (withLogProb x) g)
    with (map (withLogProb x) (a :: g)).
  rewrite eStepGroup_stale. reflexivity.
Qed.

Lemma eStep_stale x batch : forall st,
  eStep st (map (map (withLogProb x)) batch) = eStep st batch.
Proof.
  induction batch as [|g batch IH]; intros st; cbn [map EM.eStep];
    [reflexivity|].
  rewrite processGroup_stale.
  destruct (processGroup st g) as [[st1 g'] b]. by rewrite IH.
Qed.

(** X21: [processMiniBatch] never reads the [logProb] that the alignments
    come with: whatever each alignment holds in that field, the state and
    the groups after the batch are the same.  Group objects are recycled
    and the alignment cache stores every field but [logProb], so the
    groups of a later pass arrive with stale values there. *)
Theorem processMiniBatch_ignores_stale_logProb
  (stale : SMEMAlignment D -> D) (st : EMState D)
  (batchHits : list (list (SMEMAlignment D))) :
  processMiniBatch st (map (map (withLogProb stale)) batchHits)
  = processMiniBatch st batchHits.
Proof. unfold EM.processMiniBatch. by rewrite eStep_stale. Qed.

(** *** What a batch does to one transcript *)

Lemma eStepAln_at fld first lp a i ti :
  0 <= transcriptID a ->
  eTranscripts lp !! i = Some ti ->
  let hit := bool_decide (transcriptID a = Z.of_nat i)
             && negb (isLog0 (mass ti)) in
  let fresh := hit && negb (bool_decide (Z.of_nat i ∈ observedTranscripts lp)) in
  eTranscripts (eStepAln fld first lp a) !! i
  = Some (if fresh && initialRound then addTotalCount 1 ti else ti) /\
  (Z.of_nat i ∈ observedTranscripts (eStepAln fld first lp a) <->
   Z.of_nat i ∈ observedTranscripts lp \/ hit = true).
Proof.
  intros Ha Hi hit fresh. subst fresh hit. unfold EM.eStepAln.
  destruct (bool_decide (transcriptID a = Z.of_nat i)) eqn:Et.
  - apply bool_decide_eq_true in Et.
    assert (Hat : transcriptAt (eTranscripts lp) (transcriptID a) = ti).
    { unfold transcriptAt. by rewrite Et, Nat2Z.id, Hi. }
    rewrite Hat. cbn [andb].
    destruct (isLog0 (mass ti)); cbn [negb andb eTranscripts
                                        observedTranscripts].
    + split; [exact Hi|]. split; [by left|]. by intros [?|?].
    + rewrite Et.
      destruct (bool_decide (Z.of_nat i ∈ observedTranscripts lp)) eqn:Es;
        cbn [negb andb].
      * apply bool_decide_eq_true in Es. split; [exact Hi|].
        split; [by left|by intros _].
      * split; [|split; [by right|]].
        2:{ intros _. apply elem_of_union. left. by apply elem_of_singleton. }
        destruct initialRound; [|exact Hi].
        rewrite Nat2Z.id, list_lookup_alter_eq, Hi. reflexivity.
  - apply bool_decide_eq_false in Et. cbn [andb].
    assert (Hne : Z.to_nat (transcriptID a) <> i) by lia.
    destruct (isLog0 (mass (transcriptAt (eTranscripts lp) (transcriptID a))));
      cbn [negb eTranscripts observedTranscripts].
    + split; [exact Hi|]. split; [by left|]. by intros [?|?].
    + destruct (bool_decide (transcriptID a ∈ observedTranscripts lp)).
      * split; [exact Hi|]. split; [by left|]. by intros [?|?].
      * split.
        -- destruct initialRound; [|exact Hi].
           by rewrite list_lookup_alter_ne.
        -- rewrite elem_of_union, elem_of_singleton.
           split; [intros [?|?]; [congruence|by left]|].
           intros [?|?]; [by right|done].
Qed.

Lemma fold_eStepAln_at fld first g : forall lp i ti,
  Forall (fun a => 0 <= transcriptID a) g ->
  eTranscripts lp !! i = Some ti ->
  let named := bool_decide (Z.of_nat i ∈ map transcriptID g)
               && negb (isLog0 (mass ti)) in
  let fresh :=
    named && negb (bool_decide (Z.of_nat i ∈ observedTranscripts lp)) in
  eTranscripts (fold_left (eStepAln fld first) g lp) !! i
  = Some (if fresh && initialRound then addTotalCount 1 ti else ti).
Proof.
  induction g as [|a g IH]; intros lp i ti Hg Hi; cbn [fold_left map].
  - cbn. exact Hi.
  - apply Forall_cons in Hg as [Ha Hg].
    destruct (eStepAln_at fld first lp a i ti Ha Hi) as [Hl Hobs].
    cbv zeta in Hl, Hobs.
    rewrite (IH _ i _ Hg Hl).
    set (ti1 := if _ && initialRound then addTotalCount 1 ti else ti).
    assert (Hm : mass ti1 = mass ti) by (subst ti1; by destruct (_ && _)).
    rewrite Hm.
    destruct (bool_decide (transcriptID a = Z.of_nat i)) eqn:Et.
    + (* the alignment names the transcript *)
      assert (Hin : bool_decide (Z.of_nat i ∈ transcriptID a
                                   :: map transcriptID g) = true).
      { apply bool_decide_eq_true. apply bool_decide_eq_true in Et.
        rewrite Et. left. }
      rewrite Hin. cbn [andb] in *.
      destruct (isLog0 (mass ti)) eqn:Em; cbn [negb andb] in *.
      * rewrite andb_false_r. cbn. by subst ti1.
      * rewrite (bool_decide_eq_true_2 _ (proj2 Hobs (or_intror eq_refl))).
        rewrite andb_false_r. cbn. reflexivity.
    + cbn [andb] in *.
      assert (Hin : bool_decide (Z.of_nat i ∈ transcriptID a
                                   :: map transcriptID g)
                    = bool_decide (Z.of_nat i ∈ map transcriptID g)).
      { apply bool_decide_eq_false in Et. apply bool_decide_ext.
        rewrite elem_of_cons. split; [intros [?|?]; [congruence|done]|].
        by right. }
      rewrite Hin.
      assert (Hs : bool_decide
                     (Z.of_nat i ∈ observedTranscripts (eStepAln fld first lp a))
                   = bool_decide (Z.of_nat i ∈ observedTranscripts lp)).
      { apply bool_decide_ext. rewrite Hobs. split; [intros [?|?]|]; auto.
        discriminate. }
      rewrite Hs. subst ti1. reflexivity.
Qed.

Lemma processGroup_at st g i t :
  Forall (fun a => 0 <= transcriptID a) g ->
  transcripts st !! i = Some t ->
  let named := bool_decide (Z.of_nat i ∈ map transcriptID g) in
  exists t',
    transcripts (fst (fst (processGroup st g))) !! i = Some t' /\
    mass t' = mass t /\ RefLength t' = RefLength t /\
    totalCount t'
    = totalCount t
      + (if initialRound && negb (isLog0 (mass t)) && named then 1 else 0) /\
    uniqueCount t <= uniqueCount t'
    <= uniqueCount t + (if initialRound && named then 1 else 0).
Proof.
  intros Hg Hi named. destruct g as [|first g].
  - exists t. cbn. repeat split; try exact Hi; try lia.
    subst named. rewrite !andb_false_r. lia.
    subst named. rewrite !andb_false_r. lia.
  - pose proof (fold_eStepAln_at (fragLengthDist st)
                  (transcriptID first) (first :: g)
                  (mkELoop LOG_0 true ∅ (transcripts st) (libTypeCounts st) [])
                  i t Hg Hi) as He.
    cbv zeta in He. cbn [observedTranscripts] in He.
    rewrite (bool_decide_eq_false_2 (Z.of_nat i ∈ (∅ : gset Z))) in He
      by set_solver.
    rewrite andb_true_r in He. fold named in He.
    set (te := if _ && initialRound then addTotalCount 1 t else t) in He.
    assert (Hte : mass te = mass t /\ RefLength te = RefLength t /\
                  uniqueCount te = uniqueCount t /\
                  totalCount te
                  = totalCount t
                    + (if initialRound && negb (isLog0 (mass t)) && named
                       then 1 else 0)).
    { subst te. destruct named, (isLog0 (mass t)), initialRound; cbn;
        repeat split; lia. }
    destruct Hte as (Hm & Hr & Hu & Ht).
    unfold EM.processGroup.
    change (EM.eStepGroup pmf salmonOpts expectedLibraryFormat initialRound
              st (first :: g))
      with (fold_left (eStepAln (fragLengthDist st) (transcriptID first))
              (first :: g)
              (mkELoop LOG_0 true ∅ (transcripts st) (libTypeCounts st) [])).
    set (e := fold_left _ (first :: g) _) in *.
    destruct (isLog0 (sumOfAlignProbs e)).
    + exists te. cbn [fst transcripts].
      split; [exact He|]. rewrite Hm, Hr, Ht, Hu.
      repeat split; try lia. destruct (initialRound && named); lia.
    + destruct (fold_left _ (eAlns e) _) as [[alns fld] eng].
      cbn [fst transcripts].
      destruct (transcriptUnique e && initialRound) eqn:Eu.
      * apply andb_true_iff in Eu as [_ Hir].
        destruct (decide (Z.to_nat (transcriptID first) = i)) as [Hfi|Hfi].
        -- exists (addUniqueCount 1 te).
           rewrite <- Hfi, list_lookup_alter_eq, Hfi, He. cbn.
           split; [reflexivity|]. rewrite Hm, Hr, Ht, Hu.
           repeat split; try lia.
           assert (Hn : named = true).
           { subst named. apply bool_decide_eq_true.
             apply Forall_cons in Hg as [Hf _]. cbn [map].
             replace (Z.of_nat i) with (transcriptID first) by lia. left. }
           rewrite Hir, Hn. cbn. lia.
        -- exists te. rewrite list_lookup_alter_ne by exact Hfi.
           split; [exact He|]. rewrite Hm, Hr, Ht, Hu.
           repeat split; try lia. destruct (initialRound && named); lia.
      * exists te. split; [exact He|]. rewrite Hm, Hr, Ht, Hu.
        repeat split; try lia. destruct (initialRound && named); lia.
Qed.

Lemma namingGroups_cons i (g : list (SMEMAlignment D)) batch :
  namingGroups i (g :: batch)
  = (if bool_decide (Z.of_nat i ∈ map transcriptID g) then 1 else 0)
    + namingGroups i batch.
Proof.
  unfold namingGroups. rewrite filter_cons.
  destruct (decide (Z.of_nat i ∈ map transcriptID g)) as [Hd|Hd].
  - rewrite (bool_decide_eq_true_2 _ Hd). cbn [length]. lia.
  - rewrite (bool_decide_eq_false_2 _ Hd). lia.
Qed.

Lemma namingGroups_nonneg i (batch : list (list (SMEMAlignment D))) :
  0 <= namingGroups i batch.
Proof. unfold namingGroups. lia. Qed.

Lemma eStep_at batch : forall st i t,
  Forall (Forall (fun a => 0 <= transcriptID a)) batch ->
  transcripts st !! i = Some t ->
  exists t',
    transcripts (fst (fst (eStep st batch))) !! i = Some t' /\
    mass t' = mass t /\ RefLength t' = RefLength t /\
    totalCount t'
    = totalCount t
      + (if initialRound && negb (isLog0 (mass t))
         then namingGroups i batch else 0) /\
    uniqueCount t <= uniqueCount t'
    <= uniqueCount t + (if initialRound then namingGroups i batch else 0).
Proof.
  induction batch as [|g batch IH]; intros st i t Hb Hi.
  - exists t. change (namingGroups i []) with 0. cbn [EM.eStep fst].
    repeat split; try exact Hi; try lia;
      destruct initialRound, (isLog0 (mass t)); cbn; lia.
  - apply Forall_cons in Hb as [Hg Hb].
    destruct (processGroup_at st g i t Hg Hi)
      as (t1 & H1 & Hm1 & Hr1 & Ht1 & Hu1).
    cbn [EM.eStep].
    destruct (processGroup st g) as [[st1 g'] b]. cbn [fst] in H1.
    destruct (IH st1 i t1 Hb H1) as (t2 & H2 & Hm2 & Hr2 & Ht2 & Hu2).
    destruct (eStep st1 batch) as [[st2 rest'] n]. cbn [fst] in *.
    exists t2. split; [exact H2|]. rewrite Hm2, Hm1, Hr2, Hr1.
    split; [reflexivity|]. split; [reflexivity|].
    rewrite namingGroups_cons. rewrite Hm1 in Ht2.
    pose proof (namingGroups_nonneg i batch).
    destruct initialRound, (isLog0 (mass t)),
      (bool_decide (Z.of_nat i ∈ map transcriptID g));
      cbn [andb negb] in *; lia.
Qed.

Lemma processGroup_ids st g :
  map transcriptID (snd (fst (processGroup st g))) = map transcriptID g.
Proof.
  unfold EM.processGroup. destruct g as [|first g]; [reflexivity|].
  set (e := EM.eStepGroup _ _ _ _ st (first :: g)).
  assert (He : map transcriptID (eAlns e) = map transcriptID (first :: g)).
  { subst e. rewrite EMFacts.eStepGroup_alns, map_map. reflexivity. }
  destruct (isLog0 (sumOfAlignProbs e)); [exact He|].
  destruct (EMFacts.normalize_fold uni logForgettingMass (sumOfAlignProbs e)
              (burnedIn st) (eAlns e) [] (fragLengthDist st) (randEng st))
    as (new & E & _).
  rewrite E. cbn [fst snd app]. by rewrite map_map.
Qed.

Lemma eStep_ids batch : forall st,
  map (map transcriptID) (snd (fst (eStep st batch)))
  = map (map transcriptID) batch.
Proof.
  induction batch as [|g batch IH]; intros st; [reflexivity|].
  cbn [EM.eStep]. pose proof (processGroup_ids st g) as Hg.
  destruct (processGroup st g) as [[st1 g'] b]. cbn [fst snd] in Hg.
  specialize (IH st1). destruct (eStep st1 batch) as [[st2 rest'] n].
  cbn [fst snd map] in *. by rewrite Hg, IH.
Qed.

Lemma batchKeys_ids (b1 b2 : list (list (SMEMAlignment D))) :
  map (map transcriptID) b1 = map (map transcriptID) b2 ->
  batchKeys b1 = batchKeys b2.
Proof.
  intros Hb. unfold batchKeys. f_equal.
  rewrite !concat_map. by rewrite Hb.
Qed.

Lemma batchKeys_named i (batch : list (list (SMEMAlignment D))) :
  Z.of_nat i ∈ batchKeys batch <-> namingGroups i batch <> 0.
Proof.
  rewrite EMFacts.batchKeys_elem. induction batch as [|g batch IH].
  - cbn. split; [intros (a & Ha & _); by apply elem_of_nil in Ha|done].
  - rewrite namingGroups_cons. pose proof (namingGroups_nonneg i batch).
    cbn [concat]. split.
    + intros (a & Ha & Hid). apply elem_of_app in Ha as [Ha|Ha].
      * rewrite bool_decide_eq_true_2; [lia|].
        rewrite <- Hid. apply list_elem_of_In, in_map.
        by apply list_elem_of_In.
      * assert (namingGroups i batch <> 0) by (apply IH; eauto).
        destruct (bool_decide _); lia.
    + destruct (bool_decide (Z.of_nat i ∈ map transcriptID g)) eqn:E.
      * intros _. apply bool_decide_eq_true in E.
        apply list_elem_of_In, in_map_iff in E as (a & Hid & Ha).
        exists a. split; [|exact Hid]. apply elem_of_app. left.
        by apply list_elem_of_In.
      * intros Hn. destruct (proj2 IH ltac:(lia)) as (a & Ha & Hid).
        exists a. split; [|exact Hid]. apply elem_of_app. by right.
Qed.

Lemma batchKeys_nonneg (batch : list (list (SMEMAlignment D))) :
  Forall (Forall (fun a => 0 <= transcriptID a)) batch ->
  Forall (fun k => 0 <= k) (batchKeys batch).
Proof.
  intros Hb. apply Forall_forall. intros k Hk.
  apply EMFacts.batchKeys_elem in Hk as (a & Ha & <-).
  apply list_elem_of_In, in_concat in Ha as (g & Hg & Ha).
  apply list_elem_of_In in Hg, Ha.
  rewrite Forall_forall in Hb. specialize (Hb g Hg).
  rewrite Forall_forall in Hb. by apply Hb.
Qed.

Lemma ids_nonneg (b1 b2 : list (list (SMEMAlignment D))) :
  map (map transcriptID) b1 = map (map transcriptID) b2 ->
  Forall (Forall (fun a => 0 <= transcriptID a)) b2 ->
  Forall (Forall (fun a => 0 <= transcriptID a)) b1.
Proof.
  revert b2. induction b1 as [|g1 b1 IH]; intros [|g2 b2] Hm Hb;
    try discriminate; [constructor|].
  injection Hm as Hg Hm. apply Forall_cons in Hb as [Hg2 Hb].
  constructor; [|by eapply IH].
  clear -Hg Hg2. revert g2 Hg Hg2.
  induction g1 as [|a g1 IH]; intros [|a2 g2] Hg Hg2; try discriminate;
    [constructor|].
  injection Hg as Ha Hg. apply Forall_cons in Hg2 as [Ha2 Hg2].
  constructor; [lia|by eapply IH].
Qed.

(** What [processMiniBatch] leaves at the index [i] of [transcripts]. *)
Lemma processMiniBatch_at st batch i t :
  Forall (Forall (fun a => 0 <= transcriptID a)) batch ->
  transcripts st !! i = Some t ->
  exists t',
    transcripts (fst (processMiniBatch st batch)) !! i = Some t' /\
    RefLength t' = RefLength t /\
    totalCount t'
    = totalCount t
      + (if initialRound && negb (isLog0 (mass t))
         then namingGroups i batch else 0) /\
    uniqueCount t <= uniqueCount t'
    <= uniqueCount t + (if initialRound then namingGroups i batch else 0) /\
    (namingGroups i batch = 0 -> mass t' = mass t).
Proof.
  intros Hb Hi. unfold EM.processMiniBatch.
  destruct (eStep_at batch st i t Hb Hi) as (t1 & H1 & Hm1 & Hr1 & Ht1 & Hu1).
  pose proof (eStep_ids batch st) as Hids.
  destruct (eStep st batch) as [[st1 hits] n].
  cbn [fst snd transcripts] in *. unfold EM.mStep.
  rewrite (EMFacts.fold_alter_lookup
             (fun tid => addMass (dadd logForgettingMass
                                       (hitMass hits tid)))).
  2: apply EMFacts.batchKeys_NoDup.
  2: { apply batchKeys_nonneg. by eapply ids_nonneg. }
  rewrite H1. cbn [fmap option_fmap option_map].
  rewrite (batchKeys_ids hits batch Hids).
  destruct (bool_decide (Z.of_nat i ∈ batchKeys batch)) eqn:Ek.
  - eexists. split; [reflexivity|]. cbn.
    split; [exact Hr1|]. split; [exact Ht1|]. split; [exact Hu1|].
    intros Hn. apply bool_decide_eq_true in Ek.
    by apply batchKeys_named in Ek.
  - exists t1. repeat split; auto; lia.
Qed.

(** X22: first-round counting.  After a batch, the [totalCount] of a
    transcript with mass has grown by the number of groups of the batch
    that hold an alignment to it (once per group, however many alignments
    the group holds) when [initialRound] is set, and not at all otherwise;
    [uniqueCount] grows by at most that number, and only in the initial
    round; [RefLength] never changes. *)
Theorem first_round_counts (st : EMState D)
  (batchHits : list (list (SMEMAlignment D))) (i : nat) (t : Transcript D) :
  Forall (Forall (fun a => 0 <= transcriptID a)) batchHits ->
  transcripts st !! i = Some t ->
  exists t',
    transcripts (fst (processMiniBatch st batchHits)) !! i = Some t' /\
    RefLength t' = RefLength t /\
    totalCount t'
    = totalCount t
      + (if initialRound && negb (isLog0 (mass t))
         then namingGroups i batchHits else 0) /\
    uniqueCount t <= uniqueCount t'
    <= uniqueCount t + (if initialRound then namingGroups i batchHits else 0).
Proof.
  intros Hb Hi.
  destruct (processMiniBatch_at st batchHits i t Hb Hi)
    as (t' & H1 & H2 & H3 & H4 & _).
  exists t'. auto.
Qed.

Lemma processGroup_sameMasses st g :
  sameMasses (transcripts st) (transcripts (fst (fst (processGroup st g)))).
Proof.
  unfold EM.processGroup. destruct g as [|first g].
  - apply EMFacts.sameMasses_refl.
  - set (e := EM.eStepGroup _ _ _ _ st (first :: g)).
    assert (He : sameMasses (transcripts st) (eTranscripts e))
      by apply EMFacts.eStepGroup_sameMasses.
    destruct (isLog0 (sumOfAlignProbs e)); [exact He|].
    destruct (fold_left _ (eAlns e) _) as [[alns fld] eng].
    cbn [fst transcripts].
    destruct (transcriptUnique e && initialRound); [|exact He].
    eapply EMFacts.sameMasses_trans; [exact He|].
    apply EMFacts.sameMasses_alter. intros t. by split.
Qed.

Lemma eStep_sameMasses batch : forall st,
  sameMasses (transcripts st) (transcripts (fst (fst (eStep st batch)))).
Proof.
  induction batch as [|g batch IH]; intros st.
  - apply EMFacts.sameMasses_refl.
  - cbn [EM.eStep]. pose proof (processGroup_sameMasses st g) as Hg.
    destruct (processGroup st g) as [[st1 g'] b]. cbn [fst] in Hg.
    specialize (IH st1). destruct (eStep st1 batch) as [[st2 rest'] n].
    cbn [fst] in *. eapply EMFacts.sameMasses_trans; eauto.
Qed.

Lemma mStep_length hits (ts : list (Transcript D)) :
  length (mStep logForgettingMass hits ts) = length ts.
Proof.
  unfold EM.mStep. generalize (batchKeys hits). intros keys. revert ts.
  induction keys as [|k keys IH]; intros ts; cbn [fold_left]; [reflexivity|].
  by rewrite IH, length_alter.
Qed.

Lemma processMiniBatch_length st batch :
  length (transcripts (fst (processMiniBatch st batch)))
  = length (transcripts st).
Proof.
  unfold EM.processMiniBatch.
  pose proof (eStep_sameMasses batch st) as Hs.
  destruct (eStep st batch) as [[st1 hits] n].
  cbn [fst transcripts] in *. rewrite mStep_length.
  symmetry. by eapply Forall2_length.
Qed.

(** X23: a batch touches only the transcripts it names: a transcript to
    which no alignment of the batch maps keeps its mass, its counts and
    its length, and the vector of transcripts keeps its size. *)
Theorem unnamed_transcripts_untouched (st : EMState D)
  (batchHits : list (list (SMEMAlignment D))) (i : nat) :
  Forall (Forall (fun a => 0 <= transcriptID a)) batchHits ->
  namingGroups i batchHits = 0 ->
  transcripts (fst (processMiniBatch st batchHits)) !! i
  = transcripts st !! i /\
  length (transcripts (fst (processMiniBatch st batchHits)))
  = length (transcripts st).
Proof.
  intros Hb Hn. split; [|apply processMiniBatch_length].
  destruct (transcripts st !! i) as [t|] eqn:Hi.
  - destruct (processMiniBatch_at st batchHits i t Hb Hi)
      as (t' & H1 & H2 & H3 & H4 & H5).
    rewrite H1. f_equal. rewrite Hn in H3, H4. specialize (H5 Hn).
    assert (H3' : totalCount t' = totalCount t)
      by (destruct (initialRound && _); lia).
    assert (H4' : uniqueCount t' = uniqueCount t)
      by (destruct initialRound; lia).
    clear H1 H3 H4. destruct t, t'; cbn in *. by subst.
  - apply lookup_ge_None. rewrite processMiniBatch_length.
    by apply lookup_ge_None.
Qed.

(** *** Assigned fragments and the cluster forest *)

Lemma creditedCount_app (l1 l2 : list (ClusterCall D)) :
  creditedCount (l1 ++ l2) = creditedCount l1 + creditedCount l2.
Proof.
  induction l1 as [|c l1 IH]; cbn; [reflexivity|].
  fold (creditedCount (l1 ++ l2)). fold (creditedCount l1).
  destruct c; lia.
Qed.

Lemma processGroup_forest st g :
  exists new,
    clusterForest (fst (fst (processGroup st g))) = clusterForest st ++ new /\
    creditedCount new = (if snd (processGroup st g) then 1 else 0) /\
    (snd (processGroup st g) = true -> g <> []) /\
    numAssignedFragments (fst (fst (processGroup st g)))
    = numAssignedFragments st.
Proof.
  unfold EM.processGroup. destruct g as [|first g].
  - exists []. cbn. by rewrite app_nil_r.
  - set (e := EM.eStepGroup _ _ _ _ st (first :: g)).
    destruct (isLog0 (sumOfAlignProbs e)).
    + exists []. cbn. by rewrite app_nil_r.
    + destruct (fold_left _ (eAlns e) _) as [[alns fld] eng].
      cbn [fst snd clusterForest numAssignedFragments].
      unfold clusterUpdate. destruct (transcriptUnique e);
        eexists; (split; [reflexivity|]); cbn; repeat split; done.
Qed.

Lemma eStep_forest batch : forall st,
  exists new,
    clusterForest (fst (fst (eStep st batch))) = clusterForest st ++ new /\
    creditedCount new = snd (eStep st batch) /\
    0 <= snd (eStep st batch)
    <= Z.of_nat (length (filter (fun g => g <> []) batch)) /\
    numAssignedFragments (fst (fst (eStep st batch)))
    = numAssignedFragments st.
Proof.
  induction batch as [|g batch IH]; intros st.
  - exists []. cbn. rewrite app_nil_r. repeat split; lia.
  - cbn [EM.eStep].
    destruct (processGroup_forest st g) as (new1 & Hf1 & Hc1 & Hne & Hn1).
    destruct (processGroup st g) as [[st1 g'] b]. cbn [fst snd] in *.
    destruct (IH st1) as (new2 & Hf2 & Hc2 & Hb2 & Hn2).
    destruct (eStep st1 batch) as [[st2 rest'] n]. cbn [fst snd] in *.
    exists (new1 ++ new2). rewrite Hf2, Hf1, app_assoc.
    split; [reflexivity|]. rewrite creditedCount_app, Hc1, Hc2.
    split; [reflexivity|]. split; [|congruence].
    rewrite filter_cons. destruct (decide (g <> [])) as [Hd|Hd].
    + cbn [length]. destruct b; lia.
    + destruct b; [|lia]. exfalso. by apply Hd, Hne.
Qed.

(** X24: the clusters are credited exactly what is assigned: the calls a
    batch makes on the cluster forest are appended to those made before,
    their [updateCluster] counts add up to the number by which
    [numAssignedFragments] grows, and that number is at most the number
    of non-empty groups of the batch. *)
Theorem cluster_credit_is_assigned_count (st : EMState D)
  (batchHits : list (list (SMEMAlignment D))) :
  exists new,
    clusterForest (fst (processMiniBatch st batchHits))
    = clusterForest st ++ new /\
    0 <= creditedCount new
    <= Z.of_nat (length (filter (fun g => g <> []) batchHits)) /\
    numAssignedFragments (fst (processMiniBatch st batchHits))
    = u64 (numAssignedFragments st + creditedCount new).
Proof.
  unfold EM.processMiniBatch.
  destruct (eStep_forest batchHits st) as (new & Hf & Hc & Hb & Hn).
  destruct (eStep st batchHits) as [[st1 hits] n]. cbn [fst snd] in *.
  exists new. cbn [clusterForest numAssignedFragments].
  split; [exact Hf|]. rewrite Hc, Hn. split; [exact Hb|reflexivity].
Qed.

(** *** Conservation of mass *)

Section Exact.

Variable expD : D -> R.
Context {laws : LogLaws expD} {mul : LogMulLaw expD}.

Lemma totalMass_sameMasses (ts ts' : list (Transcript D)) :
  sameMasses ts ts' -> totalMass expD ts = totalMass expD ts'.
Proof.
  induction 1 as [|t t' ts ts' [Hm _] _ IH]; cbn; [reflexivity|].
  fold (totalMass expD ts). fold (totalMass expD ts'). by rewrite Hm, IH.
Qed.

Lemma processGroup_sum st g :
  sumExp expD (snd (fst (processGroup st g)))
  = if snd (processGroup st g) then 1%R else 0%R.
Proof.
  unfold EM.processGroup. destruct g as [|first g]; [reflexivity|].
  set (e := EM.eStepGroup _ _ _ _ st (first :: g)).
  assert (He : expD (sumOfAlignProbs e) = sumExp expD (eAlns e))
    by apply EMFacts.eStepGroup_sum, laws.
  destruct (isLog0 (sumOfAlignProbs e)) eqn:E.
  - cbn [fst snd]. rewrite <- He.
    apply isLog0_spec in E. rewrite E. apply expD_log0.
  - destruct (EMFacts.normalize_fold uni logForgettingMass (sumOfAlignProbs e)
                (burnedIn st) (eAlns e) [] (fragLengthDist st) (randEng st))
      as (new & En & _).
    rewrite En. cbn [fst snd app].
    rewrite (EMFacts.sumExp_normalised expD) by exact E.
    rewrite <- He. pose proof (expD_pos _ E). by field_simplify_eq; [|lra].
Qed.

Lemma eStep_sum batch : forall st,
  sumExp expD (concat (snd (fst (eStep st batch))))
  = IZR (snd (eStep st batch)).
Proof.
  induction batch as [|g batch IH]; intros st; [reflexivity|].
  cbn [EM.eStep]. pose proof (processGroup_sum st g) as Hg.
  destruct (processGroup st g) as [[st1 g'] b]. cbn [fst snd] in Hg.
  specialize (IH st1). destruct (eStep st1 batch) as [[st2 rest'] n].
  cbn [fst snd concat] in *.
  rewrite (EMFacts.sumExp_app expD), Hg, IH, plus_IZR.
  by destruct b.
Qed.

Lemma expD_fold_logAdd (l : list (SMEMAlignment D)) : forall m,
  expD (fold_left (fun m aln => logAdd m (logProb aln)) l m)
  = (expD m + sumExp expD l)%R.
Proof.
  induction l as [|a l IH]; intros m; cbn [fold_left sumExp fold_right].
  - lra.
  - rewrite IH, expD_logAdd. fold (sumExp expD l). lra.
Qed.

Lemma expD_hitMass hits tid :
  expD (hitMass hits tid)
  = sumExp expD (filter (fun aln => transcriptID aln = tid) (concat hits)).
Proof. unfold hitMass. rewrite expD_fold_logAdd, expD_log0. lra. Qed.

Lemma sumOver_pick (x : Z) (v : R) ks :
  NoDup ks -> x ∈ ks ->
  sumOver (fun k => if decide (x = k) then v else 0%R) ks = v.
Proof.
  induction 1 as [|k ks Hk _ IH]; intros Hx; [by apply elem_of_nil in Hx|].
  cbn [sumOver fold_right]. fold (sumOver (fun k => if decide (x = k)
                                             then v else 0%R) ks).
  apply elem_of_cons in Hx as [->|Hx].
  - rewrite decide_True by done.
    assert (Hz : sumOver (fun k0 => if decide (k = k0) then v else 0%R) ks
                 = 0%R).
    { clear -Hk. induction ks as [|y ks IH]; [reflexivity|].
      cbn [sumOver fold_right].
      fold (sumOver (fun k0 => if decide (k = k0) then v else 0%R) ks).
      apply not_elem_of_cons in Hk as [Hy Hk].
      rewrite decide_False by done. rewrite IH by done. lra. }
    rewrite Hz. lra.
  - rewrite decide_False by (intros ->; done). rewrite IH by done. lra.
Qed.

Lemma sumOver_plus (f g : Z -> R) ks :
  sumOver (fun k => (f k + g k)%R) ks = (sumOver f ks + sumOver g ks)%R.
Proof.
  induction ks as [|k ks IH]; cbn [sumOver fold_right]; [lra|].
  fold (sumOver (fun k => (f k + g k)%R) ks). fold (sumOver f ks).
  fold (sumOver g ks). rewrite IH. lra.
Qed.

Lemma sumOver_ext (f g : Z -> R) ks :
  (forall k, f k = g k) -> sumOver f ks = sumOver g ks.
Proof.
  intros Hfg. induction ks as [|k ks IH]; cbn [sumOver fold_right];
    [reflexivity|].
  fold (sumOver f ks). fold (sumOver g ks). by rewrite Hfg, IH.
Qed.

Lemma sumOver_zero ks : sumOver (fun _ => 0%R) ks = 0%R.
Proof.
  induction ks as [|k ks IH]; cbn [sumOver fold_right]; [reflexivity|].
  fold (sumOver (fun _ : Z => 0%R) ks). rewrite IH. lra.
Qed.

Lemma sumOver_scale (c : R) (f : Z -> R) ks :
  sumOver (fun k => (c * f k)%R) ks = (c * sumOver f ks)%R.
Proof.
  induction ks as [|k ks IH]; cbn [sumOver fold_right]; [lra|].
  fold (sumOver (fun k => (c * f k)%R) ks). fold (sumOver f ks).
  rewrite IH. lra.
Qed.

(** Grouping the alignments by transcript keeps their sum. *)
Lemma sumOver_groups ks (l : list (SMEMAlignment D)) :
  NoDup ks -> (forall a, a ∈ l -> transcriptID a ∈ ks) ->
  sumOver (fun k => sumExp expD (filter (fun aln => transcriptID aln = k) l))
          ks
  = sumExp expD l.
Proof.
  intros Hn. induction l as [|a l IH]; intros Hin.
  - cbn [sumExp fold_right]. rewrite <- (sumOver_zero ks).
    apply sumOver_ext. intros k. reflexivity.
  - rewrite (sumOver_ext _
               (fun k => ((if decide (transcriptID a = k)
                           then expD (logProb a) else 0)
                          + sumExp expD
                              (filter (fun aln => transcriptID aln = k) l))%R)).
    + rewrite sumOver_plus, sumOver_pick, IH; [reflexivity| |exact Hn|].
      * intros b Hb. apply Hin. by right.
      * apply Hin. left.
    + intros k. rewrite filter_cons.
      destruct (decide (transcriptID a = k)); unfold sumExp;
        cbn [fold_right]; lra.
Qed.

Lemma totalMass_alter m i (ts : list (Transcript D)) :
  (i < length ts)%nat ->
  totalMass expD (alter (addMass m) i ts)
  = (totalMass expD ts + expD m)%R.
Proof.
  revert i. induction ts as [|t ts IH]; intros [|i] Hi; cbn in Hi; try lia.
  - cbn. fold (totalMass expD ts). rewrite expD_logAdd. lra.
  - cbn [alter list_alter totalMass fold_right].
    change (list_alter (addMass m) i ts) with (alter (addMass m) i ts).
    fold (totalMass expD (alter (addMass m) i ts)). fold (totalMass expD ts).
    rewrite IH by lia. lra.
Qed.

Lemma totalMass_fold (F : Z -> D) keys : forall ts : list (Transcript D),
  Forall (fun k => 0 <= k < Z.of_nat (length ts)) keys ->
  totalMass expD
    (fold_left (fun ts k => alter (addMass (F k)) (Z.to_nat k) ts) keys ts)
  = (totalMass expD ts + sumOver (fun k => expD (F k)) keys)%R.
Proof.
  induction keys as [|k keys IH]; intros ts Hk; cbn [fold_left sumOver
                                                       fold_right].
  - lra.
  - apply Forall_cons in Hk as [Hk Hks].
    fold (sumOver (fun k => expD (F k)) keys).
    rewrite IH by (by rewrite length_alter).
    rewrite totalMass_alter by lia. lra.
Qed.

(** X25: conservation of mass.  With exact log-domain arithmetic, a batch
    raises the total mass of the transcripts by [exp(logForgettingMass)]
    for every fragment it assigns, and by nothing else. *)
Theorem mass_conservation (st : EMState D)
  (batchHits : list (list (SMEMAlignment D))) :
  validIds (transcripts st) batchHits ->
  0 <= numAssignedFragments st ->
  numAssignedFragments st + Z.of_nat (length batchHits) < 2 ^ 64 ->
  totalMass expD (transcripts (fst (processMiniBatch st batchHits)))
  = (totalMass expD (transcripts st)
     + expD logForgettingMass
       * IZR (numAssignedFragments (fst (processMiniBatch st batchHits))
              - numAssignedFragments st))%R.
Proof.
  intros Hv Hn0 Hn1. unfold EM.processMiniBatch.
  pose proof (eStep_sameMasses batchHits st) as Hs.
  pose proof (eStep_ids batchHits st) as Hids.
  pose proof (eStep_sum batchHits st) as Hsum.
  destruct (eStep_forest batchHits st) as (_ & _ & _ & Hb & Hn).
  destruct (eStep st batchHits) as [[st1 hits] n].
  cbn [fst snd transcripts numAssignedFragments] in *.
  assert (Hlen : (length (filter (fun g => g <> []) batchHits)
                  <= length batchHits)%nat) by apply length_filter.
  rewrite Hn, SeedsFacts.u64_small by lia.
  replace (numAssignedFragments st + n - numAssignedFragments st) with n
    by lia.
  unfold EM.mStep.
  rewrite (totalMass_fold
             (fun tid => dadd logForgettingMass (hitMass hits tid))).
  - rewrite <- (totalMass_sameMasses _ _ Hs). f_equal.
    rewrite (sumOver_ext _ (fun k => (expD logForgettingMass
                                      * expD (hitMass hits k))%R))
      by (intros k; apply expD_dadd).
    rewrite sumOver_scale. f_equal.
    rewrite (sumOver_ext _ _ _ (expD_hitMass hits)).
    rewrite sumOver_groups; [exact Hsum|apply EMFacts.batchKeys_NoDup|].
    intros a Ha. apply EMFacts.batchKeys_elem. eauto.
  - apply Forall_forall. intros k Hk.
    rewrite (batchKeys_ids hits batchHits Hids) in Hk.
    apply EMFacts.batchKeys_elem in Hk as (a & Ha & <-).
    apply list_elem_of_In, in_concat in Ha as (g & Hg & Ha).
    apply list_elem_of_In in Hg, Ha.
    unfold validIds in Hv. rewrite Forall_forall in Hv.
    specialize (Hv g Hg). rewrite Forall_forall in Hv.
    rewrite <- (Forall2_length _ _ _ Hs). by apply Hv.
Qed.

End Exact.

End MiniBatch.

Section Pass.

Context {D : Type}.

Lemma u64_add_l a b : u64 (u64 a + b) = u64 (a + b).
Proof. unfold u64. apply Zplus_mod_idemp_l. Qed.

Lemma observeReads_spec maxReadOccs (mapped : list (list (SMEMAlignment D))) :
  forall validHits numObservedFragments,
    let r := observeReads maxReadOccs mapped validHits numObservedFragments in
    Forall2 (fun g hitList =>
               (g = hitList /\ Z.of_nat (length hitList) <= maxReadOccs) \/
               (g = [] /\ maxReadOccs < Z.of_nat (length hitList)))
            (fst (fst r)) mapped /\
    u64 (snd r) = u64 (numObservedFragments + Z.of_nat (length mapped)) /\
    u64 (snd (fst r))
    = u64 (validHits + Z.of_nat (length (concat (fst (fst r))))).
Proof.
  induction mapped as [|hitList mapped IH]; intros v n.
  - cbn. rewrite !Z.add_0_r. repeat split. constructor.
  - cbn [observeReads].
    specialize (IH (u64 (v + Z.of_nat
                               (length (discardRepetitive maxReadOccs hitList))))
                   (u64 (n + 1))).
    destruct (observeReads maxReadOccs mapped _ _) as [[groups v'] n'].
    cbn [fst snd] in *. destruct IH as (Hg & Hn & Hv).
    split; [|split].
    + constructor; [|exact Hg]. unfold discardRepetitive.
      destruct (Z.of_nat (length hitList) >? maxReadOccs) eqn:E.
      * right. apply Z.gtb_lt in E. by split.
      * left. rewrite Z.gtb_ltb in E. apply Z.ltb_ge in E. by split.
    + rewrite Hn, u64_add_l. f_equal. cbn [length]. lia.
    + rewrite Hv, u64_add_l. f_equal. cbn [concat].
      rewrite length_app. lia.
Qed.

(** X26: the loop of [processReadsMEM] over the reads of a job: every
    read is counted as observed, every group handed to the mini-batch
    holds at most [maxReadOccs] alignments and is the read's own group or
    empty, and [validHits] grows by the number of alignments that are
    kept. *)
Theorem observeReads_counts (maxReadOccs : Z)
  (mapped : list (list (SMEMAlignment D))) (validHits numObservedFragments : Z) :
  0 <= maxReadOccs ->
  0 <= validHits < 2 ^ 64 -> 0 <= numObservedFragments < 2 ^ 64 ->
  let r := observeReads maxReadOccs mapped validHits numObservedFragments in
  Forall2 (fun g hitList =>
             (g = hitList /\ Z.of_nat (length hitList) <= maxReadOccs) \/
             (g = [] /\ maxReadOccs < Z.of_nat (length hitList)))
          (fst (fst r)) mapped /\
  Forall (fun g => Z.of_nat (length g) <= maxReadOccs) (fst (fst r)) /\
  snd r = u64 (numObservedFragments + Z.of_nat (length mapped)) /\
  snd (fst r) = u64 (validHits + Z.of_nat (length (concat (fst (fst r))))).
Proof.
  intros Hm Hv Hn r.
  destruct (observeReads_spec maxReadOccs mapped validHits
              numObservedFragments) as (Hg & Hn' & Hv').
  fold r in Hg, Hn', Hv'.
  assert (Hrange : 0 <= snd r < 2 ^ 64 /\ 0 <= snd (fst r) < 2 ^ 64).
  { subst r. clear -Hv Hn. revert validHits numObservedFragments Hv Hn.
    induction mapped as [|h mapped IH]; intros v n Hv Hn; [by cbn|].
    cbn [observeReads].
    specialize (IH (u64 (v + Z.of_nat
                               (length (discardRepetitive maxReadOccs h))))
                   (u64 (n + 1))).
    destruct (observeReads maxReadOccs mapped _ _) as [[groups v'] n'].
    cbn [fst snd] in *.
    apply IH; unfold u64; apply Z.mod_pos_bound; lia. }
  destruct Hrange as [Hr1 Hr2].
  split; [exact Hg|]. split; [|split].
  - clear -Hg Hm. induction Hg as [|g h gs hs Hgh _ IH]; constructor;
      [|exact IH].
    destruct Hgh as [[-> ?]|[-> ?]]; [done|cbn; lia].
  - rewrite <- Hn'. symmetry. by apply SeedsFacts.u64_small.
  - rewrite <- Hv'. symmetry. by apply SeedsFacts.u64_small.
Qed.

End Pass.

End AccountingFacts.

(** ** The accounting with exact log-domain arithmetic *)

Module AccountingExact.
Import EM Accounting ExactLog.

#[export] Instance exactMul : LogMulLaw expD.
Proof.
  constructor. intros [x|] [y|]; cbn; rewrite ?exp_plus; lra.
Qed.

Lemma first_round_counts_witness :
  exists t',
    transcripts
      (fst (processMiniBatch exPmf exUni exOpts exFormat (Some 0%R) true
              exBeforeLastBatch [[exAln; exAln]; [exAln]]))
    !! 0%nat = Some t' /\
    RefLength t' = RefLength (mkTranscript 100 (Some 0%R) 0 0) /\
    totalCount t'
    = totalCount (mkTranscript 100 (Some 0%R) 0 0)
      + (if true && negb (isLog0 (mass (mkTranscript 100 (Some 0%R) 0 0)))
         then namingGroups 0 [[exAln; exAln]; [exAln]] else 0) /\
    uniqueCount (mkTranscript 100 (Some 0%R) 0 0) <= uniqueCount t'
    <= uniqueCount (mkTranscript 100 (Some 0%R) 0 0)
       + (if true then namingGroups 0 [[exAln; exAln]; [exAln]] else 0).
Proof.
  apply (AccountingFacts.first_round_counts exPmf exUni exOpts exFormat
           (Some 0%R) true exBeforeLastBatch [[exAln; exAln]; [exAln]]
           0%nat (mkTranscript 100 (Some 0%R) 0 0)).
  - repeat constructor; simpl; lia.
  - reflexivity.
Defined.

Lemma unnamed_transcripts_untouched_witness :
  let st := mkEM [mkTranscript 100 (Some 0%R) 0 0;
                  mkTranscript 50 (Some 0%R) 3 1] [] [] 0 0 false [] in
  transcripts
    (fst (processMiniBatch exPmf exUni exOpts exFormat (Some 0%R) true
            st [[exAln]])) !! 1%nat
  = transcripts st !! 1%nat /\
  length (transcripts
            (fst (processMiniBatch exPmf exUni exOpts exFormat (Some 0%R) true
                    st [[exAln]])))
  = length (transcripts st).
Proof.
  apply (AccountingFacts.unnamed_transcripts_untouched exPmf exUni exOpts
           exFormat (Some 0%R) true
           (mkEM [mkTranscript 100 (Some 0%R) 0 0;
                  mkTranscript 50 (Some 0%R) 3 1] [] [] 0 0 false [])
           [[exAln]] 1%nat).
  - repeat constructor; simpl; lia.
  - reflexivity.
Defined.

Lemma mass_conservation_witness :
  totalMass expD
    (transcripts
       (fst (processMiniBatch exPmf exUni exOpts exFormat (Some 0%R) true
               exBeforeLastBatch [[exAln]])))
  = (totalMass expD (transcripts exBeforeLastBatch)
     + expD (Some 0%R)
       * IZR (numAssignedFragments
                (fst (processMiniBatch exPmf exUni exOpts exFormat
                        (Some 0%R) true exBeforeLastBatch [[exAln]]))
              - numAssignedFragments exBeforeLastBatch))%R.
Proof.
  apply (AccountingFacts.mass_conservation (laws := ExactFacts.exactLaws)
           exPmf exUni exOpts exFormat (Some 0%R) true expD
           exBeforeLastBatch [[exAln]]).
  - unfold validIds. repeat constructor; simpl; lia.
  - simpl. lia.
  - simpl. lia.
Defined.

Lemma observeReads_counts_witness :
  let r := observeReads 1 [[exAln; exAln]; [exAln]] 0 0 in
  Forall2 (fun g hitList =>
             (g = hitList /\ Z.of_nat (length hitList) <= 1) \/
             (g = [] /\ 1 < Z.of_nat (length hitList)))
          (fst (fst r)) [[exAln; exAln]; [exAln]] /\
  Forall (fun g => Z.of_nat (length g) <= 1) (fst (fst r)) /\
  snd r = u64 (0 + Z.of_nat (length [[exAln; exAln]; [exAln]])) /\
  snd (fst r) = u64 (0 + Z.of_nat (length (concat (fst (fst r))))).
Proof.
  apply (AccountingFacts.observeReads_counts 1 [[exAln; exAln]; [exAln]] 0 0);
    lia.
Defined.

End AccountingExact.

(** ** Facts on the experiment and the driver *)

Module ExperimentFacts.
Import Experiment.

Lemma tallyStranded_sum id counts : forall i numAgree numDisagree,
  Forall (fun c => 0 <= c) counts ->
  0 <= numAgree -> 0 <= numDisagree ->
  (i <= id -> numAgree = 0) ->
  numAgree + numDisagree + sumCounts counts < 2 ^ 64 ->
  let r := tallyStranded id counts i numAgree numDisagree in
  0 <= fst r /\ 0 <= snd r /\
  fst r + snd r = numAgree + numDisagree + sumCounts counts.
Proof.
  induction counts as [|c counts IH]; intros i na nd Hc Ha Hd Hi Hs.
  - cbn. lia.
  - apply Forall_cons in Hc as [Hc0 Hc]. cbn [tallyStranded].
    unfold sumCounts in *. cbn [fold_right] in *.
    assert (0 <= fold_right Z.add 0 counts).
    { clear -Hc. induction Hc; cbn; lia. }
    destruct (i =? id) eqn:E.
    + apply Z.eqb_eq in E. rewrite (Hi ltac:(lia)).
      destruct (IH (i + 1) c nd Hc ltac:(lia) Hd ltac:(lia) ltac:(lia))
        as (H1 & H2 & H3).
      cbv zeta. lia.
    + apply Z.eqb_neq in E. rewrite SeedsFacts.u64_small by lia.
      destruct (IH (i + 1) na (nd + c) Hc Ha ltac:(lia) ltac:(lia)
                  ltac:(lia)) as (H1 & H2 & H3).
      cbv zeta. lia.
Qed.

Lemma tallyUnstranded_sum id1 id2 counts : forall i n1 n2 nd,
  Forall (fun c => 0 <= c) counts ->
  0 <= n1 -> 0 <= n2 -> 0 <= nd ->
  (i <= id1 -> n1 = 0) -> (i <= id2 -> n2 = 0) ->
  n1 + n2 + nd + sumCounts counts < 2 ^ 64 ->
  let r := tallyUnstranded id1 id2 counts i n1 n2 nd in
  0 <= fst (fst r) /\ 0 <= snd (fst r) /\ 0 <= snd r /\
  fst (fst r) + snd (fst r) + snd r = n1 + n2 + nd + sumCounts counts.
Proof.
  induction counts as [|c counts IH]; intros i n1 n2 nd Hc H1 H2 Hd Hi1 Hi2 Hs.
  - cbn. lia.
  - apply Forall_cons in Hc as [Hc0 Hc]. cbn [tallyUnstranded].
    unfold sumCounts in *. cbn [fold_right] in *.
    assert (0 <= fold_right Z.add 0 counts).
    { clear -Hc. induction Hc; cbn; lia. }
    destruct (i =? id1) eqn:E1; [|destruct (i =? id2) eqn:E2].
    + apply Z.eqb_eq in E1. rewrite (Hi1 ltac:(lia)).
      destruct (IH (i + 1) c n2 nd Hc ltac:(lia) H2 Hd ltac:(lia)
                  ltac:(lia) ltac:(lia)) as (? & ? & ? & ?).
      cbv zeta. lia.
    + apply Z.eqb_eq in E2. apply Z.eqb_neq in E1. rewrite (Hi2 ltac:(lia)).
      destruct (IH (i + 1) n1 c nd Hc H1 ltac:(lia) Hd ltac:(lia)
                  ltac:(lia) ltac:(lia)) as (? & ? & ? & ?).
      cbv zeta. lia.
    + apply Z.eqb_neq in E1, E2. rewrite SeedsFacts.u64_small by lia.
      destruct (IH (i + 1) n1 n2 (nd + c) Hc H1 H2 ltac:(lia) ltac:(lia)
                  ltac:(lia) ltac:(lia)) as (? & ? & ? & ?).
      cbv zeta. lia.
Qed.

(** X27: the summary of a read library accounts for every alignment it
    counted: the consistent and the inconsistent alignments that
    [summarizeLibraryTypeCounts] reports add up to the sum of the counts
    of all formats, whatever the expected format is and whatever index
    [formatID] gives it. *)
Theorem summarizeLibraryTypeCounts_accounts (formatID : LibraryFormat -> Z)
  (fmt : LibraryFormat) (counts : list Z) :
  Forall (fun c => 0 <= c) counts -> sumCounts counts < 2 ^ 64 ->
  0 <= fst (summarizeLibraryTypeCounts formatID fmt counts) /\
  0 <= snd (summarizeLibraryTypeCounts formatID fmt counts) /\
  fst (summarizeLibraryTypeCounts formatID fmt counts)
  + snd (summarizeLibraryTypeCounts formatID fmt counts) = sumCounts counts.
Proof.
  intros Hc Hs. unfold summarizeLibraryTypeCounts.
  destruct (ReadStrandedness.eqb (strandedness fmt) ReadStrandedness.U).
  - destruct (strandPair fmt) as [fmt1 fmt2].
    pose proof (tallyUnstranded_sum (formatID fmt1) (formatID fmt2) counts
                  0 0 0 0 Hc ltac:(lia) ltac:(lia) ltac:(lia)
                  ltac:(lia) ltac:(lia) ltac:(lia)) as Ht.
    cbv zeta in Ht.
    destruct (tallyUnstranded _ _ counts 0 0 0 0) as [[n1 n2] nd].
    cbn [fst snd] in *. rewrite SeedsFacts.u64_small by lia. lia.
  - pose proof (tallyStranded_sum (formatID fmt) counts 0 0 0 Hc
                  ltac:(lia) ltac:(lia) ltac:(lia) ltac:(lia)) as Ht.
    cbv zeta in Ht. lia.
Qed.

Lemma summarizeLibraryTypeCounts_accounts_witness :
  0 <= fst (summarizeLibraryTypeCounts (fun _ => 1)
              (mkFormat PAIRED_END TOWARD ReadStrandedness.SA) [7; 90; 3]) /\
  0 <= snd (summarizeLibraryTypeCounts (fun _ => 1)
              (mkFormat PAIRED_END TOWARD ReadStrandedness.SA) [7; 90; 3]) /\
  fst (summarizeLibraryTypeCounts (fun _ => 1)
         (mkFormat PAIRED_END TOWARD ReadStrandedness.SA) [7; 90; 3])
  + snd (summarizeLibraryTypeCounts (fun _ => 1)
           (mkFormat PAIRED_END TOWARD ReadStrandedness.SA) [7; 90; 3])
  = sumCounts [7; 90; 3].
Proof.
  apply (summarizeLibraryTypeCounts_accounts (fun _ => 1)
           (mkFormat PAIRED_END TOWARD ReadStrandedness.SA) [7; 90; 3]).
  - repeat constructor; lia.
  - simpl. lia.
Defined.

End ExperimentFacts.

Module DriverFacts.
Import Driver.

Section Loop.

Variable disableMappingCache : bool.
Variable numRequiredFragments : Z.
Variable regularFiles : bool.
Variable passObserves : nat -> Z.

Local Abbreviation quantifyLoop :=
  (quantifyLoop disableMappingCache numRequiredFragments regularFiles
                passObserves).

Lemma quantifyLoop_uniform n : 0 < n ->
  didReset disableMappingCache regularFiles = true ->
  (forall j, passObserves j = n) ->
  numRequiredFragments + n < 2 ^ 64 ->
  forall left passes fuel,
    Z.of_nat left = (numRequiredFragments - Z.of_nat passes * n + n - 1) / n ->
    Z.of_nat passes * n < numRequiredFragments + n ->
    (left < fuel)%nat ->
    quantifyLoop fuel passes (Z.of_nat passes * n)
    = Some (Finished (passes + left) (Z.of_nat (passes + left) * n)).
Proof.
  intros Hn Hreset Hobs Hbig.
  induction left as [|left IH]; intros passes fuel Hleft Hp Hfuel.
  - destruct fuel as [|fuel]; [lia|]. cbn [Driver.quantifyLoop].
    assert (numRequiredFragments <= Z.of_nat passes * n).
    { destruct (Z.le_gt_cases numRequiredFragments (Z.of_nat passes * n));
        [done|exfalso].
      assert (1 <= (numRequiredFragments - Z.of_nat passes * n + n - 1) / n)
        by (apply Z.div_le_lower_bound; lia).
      lia. }
    rewrite (proj2 (Z.ltb_ge _ _)) by lia.
    by rewrite Nat.add_0_r.
  - destruct fuel as [|fuel]; [lia|]. cbn [Driver.quantifyLoop].
    assert (Z.of_nat passes * n < numRequiredFragments).
    { destruct (Z.lt_ge_cases (Z.of_nat passes * n) numRequiredFragments);
        [done|exfalso].
      assert ((numRequiredFragments - Z.of_nat passes * n + n - 1) / n < 1)
        by (apply Z.div_lt_upper_bound; lia).
      lia. }
    rewrite (proj2 (Z.ltb_lt _ _)) by lia.
    rewrite Hreset, andb_false_r, Hobs.
    rewrite SeedsFacts.u64_small by lia.
    replace (Z.of_nat passes * n + n) with (Z.of_nat (S passes) * n) by lia.
    rewrite (IH (S passes) fuel); [f_equal; f_equal; lia| |lia|lia].
    replace (numRequiredFragments - Z.of_nat (S passes) * n + n - 1)
      with (numRequiredFragments - Z.of_nat passes * n + n - 1 + (-1) * n)
      by lia.
    rewrite Z.div_add by lia. lia.
Qed.

(** X28: when every pass observes the same positive number [n] of
    fragments and the reset between passes succeeds, [quantifyLibrary]
    makes the least number of passes that reaches [numRequiredFragments],
    [ceil(numRequiredFragments / n)], given fuel for them; with nothing
    required it makes no pass at all. *)
Theorem quantifyLibrary_passes (n : Z) (fuel : nat) :
  0 < n -> 0 <= numRequiredFragments -> numRequiredFragments + n < 2 ^ 64 ->
  didReset disableMappingCache regularFiles = true ->
  (forall j, passObserves j = n) ->
  let passes := Z.to_nat ((numRequiredFragments + n - 1) / n) in
  (passes < fuel)%nat ->
  quantifyLibrary disableMappingCache numRequiredFragments regularFiles
                  passObserves fuel
  = Some (Finished passes (Z.of_nat passes * n)).
Proof.
  intros Hn Hr Hbig Hreset Hobs passes Hfuel. unfold quantifyLibrary.
  assert (0 <= (numRequiredFragments + n - 1) / n)
    by (apply Z.div_pos; lia).
  change 0 with (Z.of_nat 0 * n) at 1.
  rewrite (quantifyLoop_uniform n Hn Hreset Hobs Hbig passes 0 fuel);
    [reflexivity| |lia|exact Hfuel].
  subst passes. rewrite Z2Nat.id by lia. f_equal. lia.
Qed.

(** X29: when the first pass observes fewer fragments than required and
    the reset fails (the mapping cache is disabled and a read file is not
    a regular file), [quantifyLibrary] gives up after that one pass. *)
Theorem quantifyLibrary_gives_up (fuel : nat) :
  0 < numRequiredFragments < 2 ^ 64 ->
  didReset disableMappingCache regularFiles = false ->
  0 <= passObserves 0%nat < numRequiredFragments ->
  quantifyLibrary disableMappingCache numRequiredFragments regularFiles
                  passObserves (S (S fuel))
  = Some (GaveUp 1 (passObserves 0%nat)).
Proof.
  intros Hreq Hreset Hfirst. unfold quantifyLibrary.
  cbn [Driver.quantifyLoop].
  rewrite (proj2 (Z.ltb_lt _ _)) by lia. cbn [Nat.ltb Nat.leb andb].
  rewrite Z.add_0_l, SeedsFacts.u64_small by lia.
  rewrite (proj2 (Z.ltb_lt _ _)) by lia.
  rewrite Hreset. reflexivity.
Qed.

(** X30: when fragments are required, the resets succeed and no pass ever
    observes a fragment (the reads are empty or none maps),
    [quantifyLibrary] never leaves its loop: no amount of fuel lets it
    return. *)
Theorem quantifyLibrary_endless (fuel : nat) :
  0 < numRequiredFragments ->
  didReset disableMappingCache regularFiles = true ->
  (forall j, passObserves j = 0) ->
  quantifyLibrary disableMappingCache numRequiredFragments regularFiles
                  passObserves fuel = None.
Proof.
  intros Hreq Hreset Hobs. unfold quantifyLibrary.
  generalize 0%nat as passes.
  induction fuel as [|fuel IH]; intros passes; [reflexivity|].
  cbn [Driver.quantifyLoop].
  rewrite (proj2 (Z.ltb_lt _ _)) by lia.
  rewrite Hreset, andb_false_r, Hobs. apply IH.
Qed.

End Loop.

Lemma quantifyLibrary_passes_witness :
  let passes := Z.to_nat ((10000000 + 4000000 - 1) / 4000000) in
  quantifyLibrary false 10000000 true (fun _ => 4000000) 5
  = Some (Finished passes (Z.of_nat passes * 4000000)).
Proof.
  apply (quantifyLibrary_passes false 10000000 true (fun _ => 4000000)
           4000000 5); try reflexivity; try lia.
  vm_compute. lia.
Defined.

Lemma quantifyLibrary_gives_up_witness :
  quantifyLibrary true 10000000 false (fun _ => 4000000) (S (S 3))
  = Some (GaveUp 1 ((fun _ : nat => 4000000) 0%nat)).
Proof.
  apply (quantifyLibrary_gives_up true 10000000 false (fun _ => 4000000) 3);
    try reflexivity; lia.
Defined.

Lemma quantifyLibrary_endless_witness :
  quantifyLibrary false 10 true (fun _ => 0) 1000 = None.
Proof.
  apply (quantifyLibrary_endless false 10 true (fun _ => 0) 1000);
    try reflexivity; lia.
Defined.

End DriverFacts.
